(** * Pipeline simulator: a shallow embedding of [src/backend/pipeline_fixed.cpp]

    The development follows the C++ source top to bottom: opcode tables,
    the instruction and slot records, the register scoreboard, the
    execution-unit pool, the hazard detector, the instruction loader and the
    cycle loop of [main].  C++ [int] values are modelled as [Z].  The cycle
    counter, the counters of a slot and [completed] are bounded by
    [MAX_CYCLES] and by the number of instructions; the three hazard
    counters of the statistics, which a long program can take past
    [INT_MAX], are incremented the way a 32-bit [int] is ([int_incr]); and
    register indices produced by [stoi] are range-checked where the source
    range-checks them.  The OpenMP sweeps are modelled as the sequential
    index loops they parallelise (slot order). *)

From Stdlib Require Import ZArith String Ascii List Bool Lia Floats.
From stdpp Require Import base decidable countable gmap list strings pretty.

Local Open Scope string_scope.
Local Open Scope Z_scope.

(** ** Opcodes and execution units *)

Inductive Opcode :=
  ADD | SUB | MUL | DIV | FADD | FMUL | FDIV | LOAD | STORE | BEQ | BNE | JMP | NOP.

Inductive ExecUnit := ALU_UNIT | FPU_UNIT | MEM_UNIT | BRANCH_UNIT | ANY_UNIT.

#[global] Instance Opcode_eq_dec : EqDecision Opcode.
Proof. solve_decision. Defined.

#[global] Instance ExecUnit_eq_dec : EqDecision ExecUnit.
Proof. solve_decision. Defined.

(** The enumerators' integer values, used as the ordering key of
    [std::map<ExecUnit, int>]. *)
Definition ExecUnit_to_pos (u : ExecUnit) : positive :=
  match u with
  | ALU_UNIT => 1 | FPU_UNIT => 2 | MEM_UNIT => 3 | BRANCH_UNIT => 4 | ANY_UNIT => 5
  end%positive.

Definition ExecUnit_of_pos (p : positive) : option ExecUnit :=
  match p with
  | 1 => Some ALU_UNIT | 2 => Some FPU_UNIT | 3 => Some MEM_UNIT
  | 4 => Some BRANCH_UNIT | 5 => Some ANY_UNIT | _ => None
  end%positive.

#[global] Instance ExecUnit_countable : Countable ExecUnit.
Proof.
  refine (inj_countable ExecUnit_to_pos ExecUnit_of_pos _).
  intros []; reflexivity.
Defined.

Definition getExecUnit (op : Opcode) : ExecUnit :=
  match op with
  | ADD | SUB | MUL | DIV => ALU_UNIT
  | FADD | FMUL | FDIV => FPU_UNIT
  | LOAD | STORE => MEM_UNIT
  | BEQ | BNE | JMP => BRANCH_UNIT
  | _ => ANY_UNIT
  end.

Definition getLatency (op : Opcode) : Z :=
  match op with
  | ADD | SUB => 1
  | MUL => 3
  | DIV => 8
  | FADD => 4
  | FMUL => 5
  | FDIV => 12
  | LOAD => 3
  | STORE => 2
  | BEQ | BNE | JMP => 1
  | _ => 1
  end.

Definition opcodeToString (op : Opcode) : string :=
  match op with
  | ADD => "ADD" | SUB => "SUB" | MUL => "MUL" | DIV => "DIV"
  | FADD => "FADD" | FMUL => "FMUL" | FDIV => "FDIV"
  | LOAD => "LOAD" | STORE => "STORE"
  | BEQ => "BEQ" | BNE => "BNE" | JMP => "JMP" | NOP => "NOP"
  end.

Definition stringToOpcode (str : string) : Opcode :=
  if String.eqb str "ADD" then ADD
  else if String.eqb str "SUB" then SUB
  else if String.eqb str "MUL" then MUL
  else if String.eqb str "DIV" then DIV
  else if String.eqb str "FADD" then FADD
  else if String.eqb str "FMUL" then FMUL
  else if String.eqb str "FDIV" then FDIV
  else if String.eqb str "LOAD" then LOAD
  else if String.eqb str "STORE" then STORE
  else if String.eqb str "BEQ" then BEQ
  else if String.eqb str "BNE" then BNE
  else if String.eqb str "JMP" then JMP
  else NOP.

Definition unitToString (u : ExecUnit) : string :=
  match u with
  | ALU_UNIT => "ALU" | FPU_UNIT => "FPU" | MEM_UNIT => "MEM"
  | BRANCH_UNIT => "BRANCH" | ANY_UNIT => "ANY"
  end.

(** ** [std::stoi] and [parseRegister] *)

Definition INT_MIN : Z := -2147483648.
Definition INT_MAX : Z := 2147483647.

(** [isspace] in the C locale. *)
Definition isspace (c : ascii) : bool :=
  let n := nat_of_ascii c in
  (Nat.eqb n 32 || (Nat.leb 9 n && Nat.leb n 13))%bool.

Definition digit_value (c : ascii) : option Z :=
  let n := Z.of_nat (nat_of_ascii c) in
  if (48 <=? n) && (n <=? 57) then Some (n - 48) else None.

Fixpoint skip_spaces (s : string) : string :=
  match s with
  | String c rest => if isspace c then skip_spaces rest else s
  | EmptyString => s
  end.

(** Reads the longest prefix of decimal digits; [None] when there is no
    digit at all. *)
Fixpoint read_digits (s : string) (acc : option Z) : option Z :=
  match s with
  | String c rest =>
      match digit_value c with
      | Some d => read_digits rest (Some (10 * default 0 acc + d))
      | None => acc
      end
  | EmptyString => acc
  end.

(** [std::stoi(str)]: leading white space, an optional sign, decimal digits;
    trailing characters are ignored.  [None] stands for the exception it
    throws ([invalid_argument] without a digit, [out_of_range] outside
    [int]). *)
Definition stoi (str : string) : option Z :=
  let s := skip_spaces str in
  let '(neg, body) :=
    match s with
    | String "-" rest => (true, rest)
    | String "+" rest => (false, rest)
    | _ => (false, s)
    end in
  match read_digits body None with
  | None => None
  | Some v =>
      let r := if neg then - v else v in
      if (INT_MIN <=? r) && (r <=? INT_MAX) then Some r else None
  end.

Definition parseRegister (reg_str : string) : Z :=
  match reg_str with
  | String "R" rest =>
      match stoi rest with
      | Some v => v
      | None => -1
      end
  | _ => -1
  end.

(** ** Instructions and pipeline slots *)

Record Instruction := mkInstruction {
  id : Z;
  opcode : Opcode;
  src1 : Z;
  src2 : Z;
  dest : Z;
  is_branch : bool;
  branch_target : Z;
  original_string : string
}.

Inductive Stage := IDLE | FETCH | DECODE | ISSUE | EXECUTE | WRITEBACK | COMPLETE.

#[global] Instance Stage_eq_dec : EqDecision Stage.
Proof. solve_decision. Defined.

Definition stageToString (s : Stage) : string :=
  match s with
  | IDLE => "IDLE" | FETCH => "FETCH" | DECODE => "DECODE" | ISSUE => "ISSUE"
  | EXECUTE => "EXECUTE" | WRITEBACK => "WRITEBACK" | COMPLETE => "COMPLETE"
  end.

(** The enumerator value of a stage (IDLE = 0, ..., COMPLETE = 6). *)
Definition stage_index (s : Stage) : Z :=
  match s with
  | IDLE => 0 | FETCH => 1 | DECODE => 2 | ISSUE => 3
  | EXECUTE => 4 | WRITEBACK => 5 | COMPLETE => 6
  end.

Record PipelineState := mkPipelineState {
  current_stage : Stage;
  assigned_unit : ExecUnit;
  cycles_in_stage : Z;
  total_cycles : Z;
  stalled : bool;
  stall_reason : string;
  issue_cycle : Z;
  complete_cycle : Z
}.

(** The default constructor [PipelineState()]. *)
Definition PipelineState_init : PipelineState :=
  mkPipelineState IDLE ANY_UNIT 0 0 false "" (-1) (-1).

Definition set_stage (st : PipelineState) (s : Stage) : PipelineState :=
  mkPipelineState s (assigned_unit st) (cycles_in_stage st) (total_cycles st)
    (stalled st) (stall_reason st) (issue_cycle st) (complete_cycle st).

Definition set_cycles_in_stage (st : PipelineState) (n : Z) : PipelineState :=
  mkPipelineState (current_stage st) (assigned_unit st) n (total_cycles st)
    (stalled st) (stall_reason st) (issue_cycle st) (complete_cycle st).

Definition set_stall (st : PipelineState) (b : bool) (reason : string) : PipelineState :=
  mkPipelineState (current_stage st) (assigned_unit st) (cycles_in_stage st)
    (total_cycles st) b reason (issue_cycle st) (complete_cycle st).

(** ** Register scoreboard *)

Record RegInfo := mkRegInfo {
  busy : bool;
  writer_id : Z;
  ready_cycle : Z
}.

Record RegisterScoreboard := mkRegisterScoreboard {
  regs : list RegInfo;
  num_registers : Z
}.

(** The constructor [RegisterScoreboard(num_regs)]. *)
Definition RegisterScoreboard_new (num_regs : Z) : RegisterScoreboard :=
  mkRegisterScoreboard
    (replicate (Z.to_nat num_regs) (mkRegInfo false (-1) (-1))) num_regs.

(** [regs[reg]] on the vector.  The source indexes only behind the range
    guard; [None] is an access outside the vector. *)
Definition regs_at (sb : RegisterScoreboard) (reg : Z) : option RegInfo :=
  regs sb !! Z.to_nat reg.

Definition isBusy (sb : RegisterScoreboard) (reg current_cycle : Z) : bool :=
  if (reg <? 0) || (reg >=? num_registers sb) then false
  else match regs_at sb reg with
       | Some e => busy e && (ready_cycle e >? current_cycle)
       | None => false
       end.

Definition markBusy (sb : RegisterScoreboard) (reg instr_id ready : Z)
  : RegisterScoreboard :=
  if (reg >=? 0) && (reg <? num_registers sb)
  then mkRegisterScoreboard
         (<[Z.to_nat reg := mkRegInfo true instr_id ready]> (regs sb))
         (num_registers sb)
  else sb.

Definition clearBusy (sb : RegisterScoreboard) (reg : Z) : RegisterScoreboard :=
  if (reg >=? 0) && (reg <? num_registers sb)
  then match regs_at sb reg with
       | Some e =>
           mkRegisterScoreboard
             (<[Z.to_nat reg := mkRegInfo false (writer_id e) (ready_cycle e)]> (regs sb))
             (num_registers sb)
       | None => sb
       end
  else sb.

Definition getWriter (sb : RegisterScoreboard) (reg : Z) : Z :=
  if (reg >=? 0) && (reg <? num_registers sb)
  then match regs_at sb reg with
       | Some e => writer_id e
       | None => -1
       end
  else -1.

(** ** Execution-unit pool *)

Record ExecutionUnits := mkExecutionUnits {
  available : gmap ExecUnit Z;
  capacity : gmap ExecUnit Z
}.

(** [m[k]] on a [std::map<ExecUnit, int>]: the stored value, or the
    value-initialised [0] that [operator[]] inserts for a missing key. *)
Definition map_at (m : gmap ExecUnit Z) (k : ExecUnit) : Z := default 0 (m !! k).

Definition map_touch (m : gmap ExecUnit Z) (k : ExecUnit) : gmap ExecUnit Z :=
  match m !! k with
  | Some _ => m
  | None => <[k := 0]> m
  end.

Definition initial_capacity : gmap ExecUnit Z :=
  <[BRANCH_UNIT := 1]> (<[MEM_UNIT := 1]> (<[FPU_UNIT := 1]> (<[ALU_UNIT := 2]> ∅))).

(** The constructor [ExecutionUnits()]. *)
Definition ExecutionUnits_new : ExecutionUnits :=
  mkExecutionUnits initial_capacity initial_capacity.

Definition isAvailable (eu : ExecutionUnits) (unit : ExecUnit) : bool :=
  match available eu !! unit with
  | Some n => n >? 0
  | None => false
  end.

Definition allocate (eu : ExecutionUnits) (unit : ExecUnit) : bool * ExecutionUnits :=
  if isAvailable eu unit
  then (true, mkExecutionUnits
                (<[unit := map_at (available eu) unit - 1]> (available eu))
                (capacity eu))
  else (false, eu).

Definition release (eu : ExecutionUnits) (unit : ExecUnit) : ExecutionUnits :=
  match available eu !! unit with
  | Some a =>
      if a <? map_at (capacity eu) unit
      then mkExecutionUnits (<[unit := a + 1]> (available eu))
             (map_touch (capacity eu) unit)
      else mkExecutionUnits (available eu) (map_touch (capacity eu) unit)
  | None => eu
  end.

Definition reset (eu : ExecutionUnits) : ExecutionUnits :=
  mkExecutionUnits (capacity eu) (capacity eu).

(** ** Statistics *)

Record Statistics := mkStatistics {
  stat_total_cycles : Z;
  instructions_completed : Z;
  total_stalls : Z;
  raw_hazards : Z;
  war_hazards : Z;
  waw_hazords : Z;
  structural_hazards : Z;
  branch_mispredictions : Z;
  ipc : float
}.

Definition Statistics_init : Statistics :=
  mkStatistics 0 0 0 0 0 0 0 0 0%float.

(** The conversion [(double)n] of an [int]. *)
Definition double_of_int (n : Z) : float :=
  if n <? 0 then PrimFloat.opp (PrimFloat.of_uint63 (Uint63.of_Z (- n)))
  else PrimFloat.of_uint63 (Uint63.of_Z n).

Definition calculate (st : Statistics) : Statistics :=
  mkStatistics (stat_total_cycles st) (instructions_completed st) (total_stalls st)
    (raw_hazards st) (war_hazards st) (waw_hazords st) (structural_hazards st)
    (branch_mispredictions st)
    (if stat_total_cycles st >? 0
     then PrimFloat.div (double_of_int (instructions_completed st))
            (double_of_int (stat_total_cycles st))
     else 0%float).

(** An arithmetic result as the 32 bits of an [int] hold it.  Signed
    overflow is undefined in C++; the compiled program wraps around, and so
    does this function: [INT_MAX + 1] becomes [INT_MIN]. *)
Definition int_wrap (z : Z) : Z := (z - INT_MIN) mod 2 ^ 32 + INT_MIN.

(** [n++] on an [int] counter. *)
Definition int_incr (n : Z) : Z := int_wrap (n + 1).

(** [stats.raw_hazards++] *)
Definition bump_raw (st : Statistics) : Statistics :=
  mkStatistics (stat_total_cycles st) (instructions_completed st) (total_stalls st)
    (int_incr (raw_hazards st)) (war_hazards st) (waw_hazords st)
    (structural_hazards st) (branch_mispredictions st) (ipc st).

(** [stats.structural_hazards++] *)
Definition bump_structural (st : Statistics) : Statistics :=
  mkStatistics (stat_total_cycles st) (instructions_completed st) (total_stalls st)
    (raw_hazards st) (war_hazards st) (waw_hazords st)
    (int_incr (structural_hazards st)) (branch_mispredictions st) (ipc st).

(** [stats.total_stalls++] *)
Definition bump_stalls (st : Statistics) : Statistics :=
  mkStatistics (stat_total_cycles st) (instructions_completed st)
    (int_incr (total_stalls st))
    (raw_hazards st) (war_hazards st) (waw_hazords st) (structural_hazards st)
    (branch_mispredictions st) (ipc st).

(** ** Hazard detection *)

(** [std::to_string] of an [int]. *)
Definition to_string (n : Z) : string := pretty n.

Definition raw_reason (sb : RegisterScoreboard) (reg : Z) : string :=
  "RAW on R" +:+ to_string reg +:+ " (writer: I" +:+ to_string (getWriter sb reg) +:+ ")".

Definition structural_reason (required : ExecUnit) : string :=
  "Structural - " +:+ unitToString required +:+ " busy".

(** [detectHazards]: the returned triple is the result, the updated slot
    and the updated statistics (both are passed by reference). *)
Definition detectHazards (instr : Instruction) (state : PipelineState)
    (scoreboard : RegisterScoreboard) (units : ExecutionUnits)
    (cycle : Z) (stats : Statistics) : bool * PipelineState * Statistics :=
  let '(hazard, reason, stats) :=
    if isBusy scoreboard (src1 instr) cycle
    then (true, raw_reason scoreboard (src1 instr), bump_raw stats)
    else if isBusy scoreboard (src2 instr) cycle
    then (true, raw_reason scoreboard (src2 instr), bump_raw stats)
    else (false, "", stats) in
  let required := getExecUnit (opcode instr) in
  let '(hazard, reason, stats) :=
    if negb hazard && negb (isAvailable units required)
    then (true, structural_reason required, bump_structural stats)
    else (hazard, reason, stats) in
  if hazard
  then (false, set_stall state true reason, bump_stalls stats)
  else (true, set_stall state false "", stats).

(** ** Loading instructions *)

(** Characters up to the next white space: the token and what follows. *)
Fixpoint read_token (s : string) : string * string :=
  match s with
  | String c rest =>
      if isspace c then (EmptyString, s)
      else let '(tok, rest') := read_token rest in (String c tok, rest')
  | EmptyString => (EmptyString, EmptyString)
  end.

(** [iss >> str] into a fresh (empty) string: skips white space and reads
    one token; at the end of the line the string stays empty. *)
Definition extract (stream : string) : string * string :=
  read_token (skip_spaces stream).

(** What one iteration of the loading loop does with a line: [continue],
    [push_back] of a new instruction, or an exception that [stoi] throws
    outside any [try] block. *)
Inductive LineResult :=
  | LineSkipped
  | LineInstr (i : Instruction)
  | LineThrows.

Definition starts_with_hash (line : string) : bool :=
  match line with
  | String c _ => Ascii.eqb c "#"
  | EmptyString => false
  end.

Definition is_empty (s : string) : bool :=
  match s with
  | EmptyString => true
  | _ => false
  end.

Definition parse_line (line : string) (id : Z) : LineResult :=
  if is_empty line || starts_with_hash line then LineSkipped
  else
    let '(opcode_str, iss) := extract line in
    if is_empty opcode_str then LineSkipped
    else
      let opcode := stringToOpcode opcode_str in
      match opcode with
      | LOAD | STORE =>
          let '(dest_str, iss) := extract iss in
          let '(src1_str, iss) := extract iss in
          LineInstr (mkInstruction id opcode (parseRegister src1_str) (-1)
                       (parseRegister dest_str) false 0 line)
      | BEQ | BNE =>
          let '(src1_str, iss) := extract iss in
          let '(src2_str, iss) := extract iss in
          let '(branch_target_str, iss) := extract iss in
          match stoi branch_target_str with
          | Some target =>
              LineInstr (mkInstruction id opcode (parseRegister src1_str)
                           (parseRegister src2_str) (-1) true target line)
          | None => LineThrows
          end
      | JMP =>
          let '(branch_target_str, iss) := extract iss in
          match stoi branch_target_str with
          | Some target =>
              LineInstr (mkInstruction id opcode (-1) (-1) (-1) true target line)
          | None => LineThrows
          end
      | _ =>
          let '(dest_str, iss) := extract iss in
          let '(src1_str, iss) := extract iss in
          let '(src2_str, iss) := extract iss in
          LineInstr (mkInstruction id opcode (parseRegister src1_str)
                       (parseRegister src2_str) (parseRegister dest_str) false 0 line)
      end.

(** The loop of [loadInstructionsFromString] from a given value of the
    counter [id]; [None] when an exception leaves the function. *)
Fixpoint load_from (id : Z) (instruction_strings : list string)
  : option (list Instruction) :=
  match instruction_strings with
  | [] => Some []
  | line :: rest =>
      match parse_line line id with
      | LineSkipped => load_from id rest
      | LineInstr i =>
          match load_from (id + 1) rest with
          | Some l => Some (i :: l)
          | None => None
          end
      | LineThrows => None
      end
  end.

Definition loadInstructionsFromString (instruction_strings : list string)
  : option (list Instruction) :=
  load_from 1 instruction_strings.

(** ** Per-cycle snapshot *)

Record CycleData := mkCycleData {
  snap_cycle : Z;
  snap_stages : gmap string (list string);
  snap_stalls : list (string * string)
}.

Definition empty_stage_map : gmap string (list string) :=
  <["WRITEBACK" := []]> (<["EXECUTE" := []]> (<["ISSUE" := []]>
    (<["DECODE" := []]> (<["FETCH" := []]> ∅)))).

Fixpoint capture_loop (instrs : list Instruction) (sts : list PipelineState)
    (stage_map : gmap string (list string)) (stalls : list (string * string))
  : gmap string (list string) * list (string * string) :=
  match instrs, sts with
  | i :: instrs', st :: sts' =>
      let stage_map :=
        if negb (bool_decide (current_stage st = IDLE))
           && negb (bool_decide (current_stage st = COMPLETE))
        then let key := stageToString (current_stage st) in
             <[key := (default [] (stage_map !! key) ++ [original_string i])%list]> stage_map
        else stage_map in
      let stalls :=
        if stalled st then (stalls ++ [(original_string i, stall_reason st)])%list
        else stalls in
      capture_loop instrs' sts' stage_map stalls
  | _, _ => (stage_map, stalls)
  end.

Definition captureCycleState (cycle : Z) (instrs : list Instruction)
    (sts : list PipelineState) : CycleData :=
  let r := capture_loop instrs sts empty_stage_map [] in
  mkCycleData cycle r.1 r.2.

(** ** The cycle loop of [main] *)

(** [for (int i = 0; i < instructions.size(); i++)] over the parallel
    vectors [instructions] and [states], threading the objects the body
    mutates.  Slots beyond the shorter vector are left as they are. *)
Fixpoint for_each {A : Type}
    (body : Instruction → PipelineState → A → PipelineState * A)
    (instrs : list Instruction) (sts : list PipelineState) (a : A)
  : list PipelineState * A :=
  match instrs, sts with
  | i :: instrs', st :: sts' =>
      let r := body i st a in
      let r' := for_each body instrs' sts' r.2 in
      (r.1 :: r'.1, r'.2)
  | _, _ => (sts, a)
  end.

(** A loop whose body touches only its own slot. *)
Definition sweep (body : Instruction → PipelineState → PipelineState)
    (instrs : list Instruction) (sts : list PipelineState) : list PipelineState :=
  (for_each (λ i st (_ : unit), (body i st, tt)) instrs sts tt).1.

Definition writeback_slot (cycle : Z) (i : Instruction) (st : PipelineState)
    (a : RegisterScoreboard * ExecutionUnits * Z)
  : PipelineState * (RegisterScoreboard * ExecutionUnits * Z) :=
  let '(sb, eu, completed) := a in
  if bool_decide (current_stage st = WRITEBACK)
  then
    let sb := clearBusy sb (dest i) in
    let eu := if bool_decide (assigned_unit st ≠ ANY_UNIT)
              then release eu (assigned_unit st) else eu in
    (mkPipelineState COMPLETE (assigned_unit st) (cycles_in_stage st)
       (total_cycles st) (stalled st) (stall_reason st) (issue_cycle st) cycle,
     (sb, eu, completed + 1))
  else (st, a).

Definition execute_slot (i : Instruction) (st : PipelineState) : PipelineState :=
  if bool_decide (current_stage st = EXECUTE)
  then
    let st := set_cycles_in_stage st (cycles_in_stage st + 1) in
    let required_cycles := getLatency (opcode i) in
    if cycles_in_stage st >=? required_cycles
    then set_cycles_in_stage (set_stage st WRITEBACK) 0
    else st
  else st.

Definition issue_slot (cycle : Z) (i : Instruction) (st : PipelineState)
    (a : ExecutionUnits * RegisterScoreboard)
  : PipelineState * (ExecutionUnits * RegisterScoreboard) :=
  let '(eu, sb) := a in
  if bool_decide (current_stage st = ISSUE)
  then
    let unit := getExecUnit (opcode i) in
    let r := allocate eu unit in
    if r.1
    then
      let ready_at_cycle := cycle + getLatency (opcode i) in
      (mkPipelineState EXECUTE unit 0 (total_cycles st) (stalled st)
         (stall_reason st) cycle (complete_cycle st),
       (r.2, markBusy sb (dest i) (id i) ready_at_cycle))
    else (st, (r.2, sb))
  else (st, a).

Definition decode_slot (sb : RegisterScoreboard) (eu : ExecutionUnits) (cycle : Z)
    (i : Instruction) (st : PipelineState) (stats : Statistics)
  : PipelineState * Statistics :=
  if bool_decide (current_stage st = DECODE)
  then
    let r := detectHazards i st sb eu cycle stats in
    if r.1.1 then (set_stage r.1.2 ISSUE, r.2) else (r.1.2, r.2)
  else (st, stats).

Definition fetch_slot (i : Instruction) (st : PipelineState) : PipelineState :=
  if bool_decide (current_stage st = FETCH)
  then set_cycles_in_stage (set_stage st DECODE) 0
  else if bool_decide (current_stage st = IDLE)
  then set_stage st FETCH
  else st.

Definition account_slot (i : Instruction) (st : PipelineState) : PipelineState :=
  if negb (bool_decide (current_stage st = IDLE))
     && negb (bool_decide (current_stage st = COMPLETE))
  then mkPipelineState (current_stage st) (assigned_unit st) (cycles_in_stage st)
         (total_cycles st + 1) (stalled st) (stall_reason st) (issue_cycle st)
         (complete_cycle st)
  else st.

(** The local variables of [main] that the loop works on. *)
Record Sim := mkSim {
  states : list PipelineState;
  scoreboard : RegisterScoreboard;
  exec_units : ExecutionUnits;
  stats : Statistics;
  cycle : Z;
  completed : Z;
  cycle_history : list CycleData
}.

Definition MAX_CYCLES : Z := 500.

Definition initial (instrs : list Instruction) : Sim :=
  mkSim (replicate (length instrs) PipelineState_init)
    (RegisterScoreboard_new 32) ExecutionUnits_new Statistics_init 0 0 [].

(** The loop condition [completed < instructions.size() && cycle < MAX_CYCLES]. *)
Definition loop_cond (instrs : list Instruction) (s : Sim) : bool :=
  (completed s <? Z.of_nat (length instrs)) && (cycle s <? MAX_CYCLES).

(** One execution of the loop body. *)
Definition cycle_body (instrs : list Instruction) (s : Sim) : Sim :=
  let c := cycle s + 1 in
  let wb := for_each (writeback_slot c) instrs (states s)
              (scoreboard s, exec_units s, completed s) in
  let ex := sweep execute_slot instrs wb.1 in
  let iss := for_each (issue_slot c) instrs ex (wb.2.1.2, wb.2.1.1) in
  let dec := for_each (decode_slot iss.2.2 iss.2.1 c) instrs iss.1 (stats s) in
  let fe := sweep fetch_slot instrs dec.1 in
  let acc := sweep account_slot instrs fe in
  mkSim acc iss.2.2 iss.2.1 dec.2 c wb.2.2
    (cycle_history s ++ [captureCycleState c instrs acc])%list.

(** The [while] loop, cut after [fuel] iterations. *)
Fixpoint simulation_loop (fuel : nat) (instrs : list Instruction) (s : Sim) : Sim :=
  match fuel with
  | O => s
  | S fuel' =>
      if loop_cond instrs s
      then simulation_loop fuel' instrs (cycle_body instrs s)
      else s
  end.

(** The simulation state after at most [k] cycles. *)
Definition state_after (instrs : list Instruction) (k : nat) : Sim :=
  simulation_loop k instrs (initial instrs).

(** The state when the loop is left: [MAX_CYCLES] iterations are always
    enough (see [simulate_leaves_loop]). *)
Definition simulate (instrs : list Instruction) : Sim :=
  state_after instrs (Z.to_nat MAX_CYCLES).

Definition final_statistics (s : Sim) : Statistics :=
  calculate
    (mkStatistics (cycle s) (completed s) (total_stalls (stats s))
       (raw_hazards (stats s)) (war_hazards (stats s)) (waw_hazords (stats s))
       (structural_hazards (stats s)) (branch_mispredictions (stats s))
       (ipc (stats s))).

(** What [main] prints for the instruction strings of the input: nothing
    when an exception ends the process, the error object, or the result. *)
Inductive Output :=
  | Terminated
  | ErrorJson (error : string)
  | ResultJson (stats : Statistics) (cycles : list CycleData).

Definition main (instruction_strings : list string) : Output :=
  match loadInstructionsFromString instruction_strings with
  | None => Terminated
  | Some [] => ErrorJson "No instructions loaded from input."
  | Some instructions =>
      let s := simulate instructions in
      ResultJson (final_statistics s) (cycle_history s)
  end.

(** ** Notions used in the statements *)

(** One test of the loop condition, followed by the body when it holds. *)
Definition loop_iteration (instrs : list Instruction) (s : Sim) : Sim :=
  if loop_cond instrs s then cycle_body instrs s else s.

(** The slot stays where it is or moves [from] one stage [to] the next. *)
Definition moves (from to : Stage) (st st' : PipelineState) : Prop :=
  current_stage st' = current_stage st
  ∨ (current_stage st = from ∧ current_stage st' = to).

(** What the fetch pass does to the stage of a slot. *)
Definition fetch_moves (st st' : PipelineState) : Prop :=
  current_stage st' =
    match current_stage st with
    | FETCH => DECODE
    | IDLE => FETCH
    | s => s
    end.

(** The accounting pass leaves the stage alone. *)
Definition same_stage (st st' : PipelineState) : Prop :=
  current_stage st' = current_stage st.

(** A slot moves at most one stage in a cycle; a slot that the fetch pass
    promotes is not touched again. *)
Definition one_stage_per_cycle (st st' : PipelineState) : Prop :=
  stage_index (current_stage st) ≤ stage_index (current_stage st')
    ≤ stage_index (current_stage st) + 1
  ∧ (current_stage st = FETCH → current_stage st' = DECODE)
  ∧ (current_stage st = IDLE → current_stage st' = FETCH).

(** The slot holds a unit of kind [u]: it was issued to [u] and has not
    been written back yet. *)
Definition holds_unit (u : ExecUnit) (st : PipelineState) : bool :=
  bool_decide (assigned_unit st = u)
  && (bool_decide (current_stage st = EXECUTE)
      || bool_decide (current_stage st = WRITEBACK)).

(** 1 for a slot that holds a unit of kind [u], 0 otherwise. *)
Definition occ1 (u : ExecUnit) (st : PipelineState) : Z :=
  if holds_unit u st then 1 else 0.

(** The number of slots with [assigned_unit == u] in EXECUTE or WRITEBACK. *)
Fixpoint occupancy (u : ExecUnit) (sts : list PipelineState) : Z :=
  match sts with
  | [] => 0
  | st :: sts' => occ1 u st + occupancy u sts'
  end.

(** The pool and the slots agree: for every kind of unit, the free units
    plus the units held by slots make up the capacity.  [K u] counts the
    units held by slots that the running loop has already passed. *)
Definition units_inv (K : ExecUnit → Z) (sts : list PipelineState)
    (eu : ExecutionUnits) : Prop :=
  capacity eu = initial_capacity
  ∧ ∀ u, 0 ≤ K u
         ∧ (available eu !! u = None ↔ initial_capacity !! u = None)
         ∧ 0 ≤ map_at (available eu) u
         ∧ K u + occupancy u sts + map_at (available eu) u
           = map_at initial_capacity u.

(** 1 for a slot in COMPLETE, 0 otherwise. *)
Definition cc1 (st : PipelineState) : Z :=
  if bool_decide (current_stage st = COMPLETE) then 1 else 0.

(** The number of slots in COMPLETE. *)
Fixpoint count_complete (sts : list PipelineState) : Z :=
  match sts with
  | [] => 0
  | st :: sts' => cc1 st + count_complete sts'
  end.

(** [complete_cycle] keeps its initial [-1] until the slot completes. *)
Definition not_completed_yet (st : PipelineState) : Prop :=
  current_stage st ≠ COMPLETE → complete_cycle st = -1.

(** The [while] loop as a relation between the state at its head and the
    state in which it is left; no bound on the number of iterations is
    built in. *)
Inductive loop_exec (instrs : list Instruction) : Sim → Sim → Prop :=
  | loop_exit s :
      loop_cond instrs s = false → loop_exec instrs s s
  | loop_iter s s' :
      loop_cond instrs s = true →
      loop_exec instrs (cycle_body instrs s) s' →
      loop_exec instrs s s'.

(** The shape [RegisterScoreboard(32)] gives the scoreboard and every
    operation keeps: 32 entries, [num_registers == 32]. *)
Definition wf_scoreboard (sb : RegisterScoreboard) : Prop :=
  num_registers sb = 32 ∧ length (regs sb) = 32%nat.

(** An index inside the register file R0-R31. *)
Definition valid_register (r : Z) : bool := (0 <=? r) && (r <? 32).








(** The two [continue] statements of the loading loop: an empty line, a
    line whose first character is [#], a line without any token. *)
Definition skipped_line (line : string) : bool :=
  is_empty line || starts_with_hash line || is_empty (extract line).1.

(** The strings [stringToOpcode] knows, and NOP. *)
Definition mnemonics : list string :=
  ["ADD"; "SUB"; "MUL"; "DIV"; "FADD"; "FMUL"; "FDIV"; "LOAD"; "STORE";
   "BEQ"; "BNE"; "JMP"; "NOP"].

Definition is_mnemonic (str : string) : bool := existsb (String.eqb str) mnemonics.

(** The two fields of the result object, when there is one. *)
Definition result_stats (o : Output) : option Statistics :=
  match o with
  | ResultJson st _ => Some st
  | _ => None
  end.

Definition result_cycles (o : Output) : option (list CycleData) :=
  match o with
  | ResultJson _ cycles => Some cycles
  | _ => None
  end.

(** Programs of the scenarios. *)
Definition two_alu_program : list string := ["ADD R1 R2 R3"; "SUB R4 R5 R6"].

(** The double nearest to 0.4. *)
Definition double_0_4 : float := 0x1.999999999999ap-2%float.

Definition three_divs : list Instruction :=
  [mkInstruction 1 DIV 2 3 1 false 0 "DIV R1 R2 R3";
   mkInstruction 2 DIV 5 6 4 false 0 "DIV R4 R5 R6";
   mkInstruction 3 DIV 8 9 7 false 0 "DIV R7 R8 R9"].

(** * The earlier variant, [src/backend/pipeline.cpp]

    The command-line program has the same tables, records and passes.  Its
    pool reads the maps with [operator[]] only, its write-back releases the
    unit of every slot, its [clearBusy] resets the whole entry, and its loop
    calls [exec_units.reset()] at the top of every cycle, with
    [MAX_CYCLES = 100].  Only what differs is modelled again. *)
Module Legacy.

Definition isAvailable (eu : ExecutionUnits) (unit : ExecUnit)
  : bool * ExecutionUnits :=
  (map_at (available eu) unit >? 0,
   mkExecutionUnits (map_touch (available eu) unit) (capacity eu)).

Definition allocate (eu : ExecutionUnits) (unit : ExecUnit)
  : bool * ExecutionUnits :=
  if map_at (available eu) unit >? 0
  then (true, mkExecutionUnits
                (<[unit := map_at (available eu) unit - 1]> (available eu))
                (capacity eu))
  else (false, mkExecutionUnits (map_touch (available eu) unit) (capacity eu)).

Definition release (eu : ExecutionUnits) (unit : ExecUnit) : ExecutionUnits :=
  if map_at (available eu) unit <? map_at (capacity eu) unit
  then mkExecutionUnits (<[unit := map_at (available eu) unit + 1]> (available eu))
         (map_touch (capacity eu) unit)
  else mkExecutionUnits (map_touch (available eu) unit)
         (map_touch (capacity eu) unit).

Definition clearBusy (sb : RegisterScoreboard) (reg : Z) : RegisterScoreboard :=
  if (reg >=? 0) && (reg <? num_registers sb)
  then mkRegisterScoreboard
         (<[Z.to_nat reg := mkRegInfo false (-1) (-1)]> (regs sb))
         (num_registers sb)
  else sb.

Definition detectHazards (instr : Instruction) (state : PipelineState)
    (scoreboard : RegisterScoreboard) (units : ExecutionUnits)
    (cycle : Z) (stats : Statistics)
  : bool * PipelineState * Statistics * ExecutionUnits :=
  let '(hazard, reason, stats) :=
    if isBusy scoreboard (src1 instr) cycle
    then (true, raw_reason scoreboard (src1 instr), bump_raw stats)
    else if isBusy scoreboard (src2 instr) cycle
    then (true, raw_reason scoreboard (src2 instr), bump_raw stats)
    else (false, "", stats) in
  let required := getExecUnit (opcode instr) in
  let '(hazard, reason, stats, units) :=
    if hazard then (hazard, reason, stats, units)
    else
      let av := isAvailable units required in
      if av.1 then (hazard, reason, stats, av.2)
      else (true, structural_reason required, bump_structural stats, av.2) in
  if hazard
  then (false, set_stall state true reason, bump_stalls stats, units)
  else (true, set_stall state false "", stats, units).

Definition writeback_slot (cycle : Z) (i : Instruction) (st : PipelineState)
    (a : RegisterScoreboard * ExecutionUnits * Z)
  : PipelineState * (RegisterScoreboard * ExecutionUnits * Z) :=
  let '(sb, eu, completed) := a in
  if bool_decide (current_stage st = WRITEBACK)
  then
    (mkPipelineState COMPLETE (assigned_unit st) (cycles_in_stage st)
       (total_cycles st) (stalled st) (stall_reason st) (issue_cycle st) cycle,
     (clearBusy sb (dest i), release eu (assigned_unit st), completed + 1))
  else (st, a).

Definition issue_slot (cycle : Z) (i : Instruction) (st : PipelineState)
    (a : ExecutionUnits * RegisterScoreboard)
  : PipelineState * (ExecutionUnits * RegisterScoreboard) :=
  let '(eu, sb) := a in
  if bool_decide (current_stage st = ISSUE)
  then
    let unit := getExecUnit (opcode i) in
    let r := allocate eu unit in
    if r.1
    then
      let ready := cycle + getLatency (opcode i) in
      (mkPipelineState EXECUTE unit 0 (total_cycles st) (stalled st)
         (stall_reason st) cycle (complete_cycle st),
       (r.2, markBusy sb (dest i) (id i) ready))
    else (st, (r.2, sb))
  else (st, a).

Definition decode_slot (sb : RegisterScoreboard) (cycle : Z)
    (i : Instruction) (st : PipelineState) (a : Statistics * ExecutionUnits)
  : PipelineState * (Statistics * ExecutionUnits) :=
  if bool_decide (current_stage st = DECODE)
  then
    let r := detectHazards i st sb a.2 cycle a.1 in
    if r.1.1.1 then (set_stage r.1.1.2 ISSUE, (r.1.2, r.2))
    else (r.1.1.2, (r.1.2, r.2))
  else (st, a).

Definition MAX_CYCLES : Z := 100.

Definition loop_cond (instrs : list Instruction) (s : Sim) : bool :=
  (completed s <? Z.of_nat (length instrs)) && (cycle s <? MAX_CYCLES).

(** One execution of the loop body; this program records no snapshots. *)
Definition cycle_body (instrs : list Instruction) (s : Sim) : Sim :=
  let c := cycle s + 1 in
  let eu := reset (exec_units s) in
  let wb := for_each (writeback_slot c) instrs (states s)
              (scoreboard s, eu, completed s) in
  let ex := sweep execute_slot instrs wb.1 in
  let iss := for_each (issue_slot c) instrs ex (wb.2.1.2, wb.2.1.1) in
  let dec := for_each (decode_slot iss.2.2 c) instrs iss.1 (stats s, iss.2.1) in
  let fe := sweep fetch_slot instrs dec.1 in
  let acc := sweep account_slot instrs fe in
  mkSim acc iss.2.2 dec.2.2 dec.2.1 c wb.2.2 (cycle_history s).

Fixpoint simulation_loop (fuel : nat) (instrs : list Instruction) (s : Sim) : Sim :=
  match fuel with
  | O => s
  | S fuel' =>
      if loop_cond instrs s
      then simulation_loop fuel' instrs (cycle_body instrs s)
      else s
  end.

Definition state_after (instrs : list Instruction) (k : nat) : Sim :=
  simulation_loop k instrs (initial instrs).

End Legacy.

(** ** Notions used in the further results *)

(** Where the slot of instruction [i] can be at the end of cycle [c], and
    what its counters are there. *)
Definition slot_timing (c : Z) (i : Instruction) (st : PipelineState) : Prop :=
  match current_stage st with
  | IDLE =>
      c = 0 ∧ total_cycles st = 0
      ∧ assigned_unit st = ANY_UNIT ∧ issue_cycle st = -1
  | FETCH =>
      c = 1 ∧ total_cycles st = c
      ∧ assigned_unit st = ANY_UNIT ∧ issue_cycle st = -1
  | DECODE =>
      2 ≤ c ∧ total_cycles st = c
      ∧ assigned_unit st = ANY_UNIT ∧ issue_cycle st = -1
  | ISSUE =>
      3 ≤ c ∧ total_cycles st = c
      ∧ assigned_unit st = ANY_UNIT ∧ issue_cycle st = -1
  | EXECUTE =>
      4 ≤ issue_cycle st ∧ issue_cycle st + cycles_in_stage st = c
      ∧ 0 ≤ cycles_in_stage st < getLatency (opcode i)
      ∧ assigned_unit st = getExecUnit (opcode i) ∧ total_cycles st = c
  | WRITEBACK =>
      4 ≤ issue_cycle st ∧ issue_cycle st + getLatency (opcode i) = c
      ∧ assigned_unit st = getExecUnit (opcode i) ∧ total_cycles st = c
  | COMPLETE =>
      4 ≤ issue_cycle st
      ∧ complete_cycle st = issue_cycle st + getLatency (opcode i) + 1
      ∧ complete_cycle st ≤ c
      ∧ assigned_unit st = getExecUnit (opcode i)
      ∧ total_cycles st = complete_cycle st - 1
  end.

(** What the six passes of cycle [c] make of one slot, given the objects
    each sequential pass holds when it reaches the slot. *)
Definition step_slot (c : Z) (i : Instruction) (st : PipelineState)
    (a_wb : RegisterScoreboard * ExecutionUnits * Z)
    (a_is : ExecutionUnits * RegisterScoreboard)
    (sb : RegisterScoreboard) (eu : ExecutionUnits) (stats : Statistics)
  : PipelineState :=
  account_slot i
    (fetch_slot i
       (decode_slot sb eu c i
          (issue_slot c i (execute_slot i (writeback_slot c i st a_wb).1) a_is).1
          stats).1).

(** The slots of instructions without a unit are not past DECODE. *)
Definition no_unit_waits (instrs : list Instruction) (s : Sim) : Prop :=
  units_inv (λ _, 0) (states s) (exec_units s)
  ∧ Forall2 (λ i st, getExecUnit (opcode i) = ANY_UNIT →
                      stage_index (current_stage st) ≤ 2)
      instrs (states s).

(** No instruction of the program has the opcode NOP (the only opcode
    without a unit). *)
Definition no_nop (instrs : list Instruction) : Prop :=
  Forall (λ i, opcode i ≠ NOP) instrs.

(** The state of a program without NOP at the end of cycle [cycle s]: no
    hazard has been counted, nothing is in DECODE after cycle 2, and the
    scoreboard and the pool are untouched up to cycle 2. *)
Definition unstalled (instrs : list Instruction) (s : Sim) : Prop :=
  stats s = Statistics_init
  ∧ (cycle s ≤ 2 →
     scoreboard s = RegisterScoreboard_new 32 ∧ exec_units s = ExecutionUnits_new)
  ∧ Forall2 (slot_timing (cycle s)) instrs (states s)
  ∧ Forall (λ st, (current_stage st = DECODE → cycle s = 2)
                  ∧ stalled st = false ∧ stall_reason st = "") (states s).

(** The counters as the hazard detector keeps them.  [raw] and [str] are
    the numbers of RAW and structural hazards reported so far, at most
    [bound] together; each counter holds its number the way an [int] does,
    a stall is counted with exactly one hazard, and the counters nobody
    writes are 0. *)
Definition stats_consistent (bound : Z) (st : Statistics) : Prop :=
  ∃ raw str : Z,
    0 ≤ raw ∧ 0 ≤ str ∧ raw + str ≤ bound
    ∧ raw_hazards st = int_wrap raw
    ∧ structural_hazards st = int_wrap str
    ∧ total_stalls st = int_wrap (raw + str)
    ∧ war_hazards st = 0 ∧ waw_hazords st = 0 ∧ branch_mispredictions st = 0
    ∧ stat_total_cycles st = 0 ∧ instructions_completed st = 0.

(** The stalls that [cycle] cycles can count in a program of [n]
    instructions: the decode pass meets a slot from cycle 3 on. *)
Definition max_stalls (n cycle : Z) : Z := n * Z.max 0 (cycle - 2).

(** The original strings of the slots in [stage], in slot order. *)
Fixpoint stage_origins (stage : Stage) (instrs : list Instruction)
    (sts : list PipelineState) : list string :=
  match instrs, sts with
  | i :: instrs', st :: sts' =>
      if bool_decide (current_stage st = stage)
      then original_string i :: stage_origins stage instrs' sts'
      else stage_origins stage instrs' sts'
  | _, _ => []
  end.

(** The stalled slots with their reasons, in slot order. *)
Fixpoint stalled_pairs (instrs : list Instruction) (sts : list PipelineState)
  : list (string * string) :=
  match instrs, sts with
  | i :: instrs', st :: sts' =>
      if stalled st
      then (original_string i, stall_reason st) :: stalled_pairs instrs' sts'
      else stalled_pairs instrs' sts'
  | _, _ => []
  end.

(** The stages a snapshot lists. *)
Definition in_flight (stage : Stage) : Prop :=
  stage ≠ IDLE ∧ stage ≠ COMPLETE.

Definition in_flight_b (stage : Stage) : bool :=
  match stage with
  | IDLE | COMPLETE => false
  | _ => true
  end.

(** The stall flag and the reason go together, and only a slot in DECODE
    is stalled. *)
Definition stall_flag_ok (st : PipelineState) : Prop :=
  (stalled st = true → current_stage st = DECODE ∧ stall_reason st ≠ "")
  ∧ (stalled st = false → stall_reason st = "").

(** A pool as the simulation keeps it: the capacities of the constructor,
    the same unit kinds in both maps, and between 0 and the capacity free
    units of each kind. *)
Definition pool_wf (eu : ExecutionUnits) : Prop :=
  capacity eu = initial_capacity
  ∧ ∀ u, (available eu !! u = None ↔ initial_capacity !! u = None)
         ∧ 0 ≤ map_at (available eu) u ≤ map_at initial_capacity u.

(** The token that the loader hands to [stoi] outside any [try] block:
    the third operand of BEQ and BNE, the operand of JMP. *)
Definition branch_target_token (line : string) : option string :=
  let iss := (extract line).2 in
  match stringToOpcode (extract line).1 with
  | BEQ | BNE => Some (extract (extract (extract iss).2).2).1
  | JMP => Some (extract iss).1
  | _ => None
  end.

(** The line makes the loader throw: it is not skipped and its branch
    target is no number [stoi] accepts. *)
Definition line_throws (line : string) : bool :=
  negb (skipped_line line)
  && match branch_target_token line with
     | Some tok => bool_decide (stoi tok = None)
     | None => false
     end.

(** The operands the loader gives an instruction of each opcode. *)
Definition operand_shape (i : Instruction) : Prop :=
  match opcode i with
  | LOAD | STORE => src2 i = -1 ∧ is_branch i = false ∧ branch_target i = 0
  | BEQ | BNE => dest i = -1 ∧ is_branch i = true
  | JMP => src1 i = -1 ∧ src2 i = -1 ∧ dest i = -1 ∧ is_branch i = true
  | _ => is_branch i = false ∧ branch_target i = 0
  end.

Definition in_int_range (n : Z) : Prop := INT_MIN ≤ n ≤ INT_MAX.

(** Every character of the line is white space (the empty line included). *)
Fixpoint blank (s : string) : bool :=
  match s with
  | String c rest => isspace c && blank rest
  | EmptyString => true
  end.

(** No character of the string is white space. *)
Fixpoint no_space (s : string) : bool :=
  match s with
  | String c rest => negb (isspace c) && no_space rest
  | EmptyString => true
  end.

(** The slot has been issued: it is in EXECUTE, WRITEBACK or COMPLETE. *)
Definition issued (st : PipelineState) : Prop :=
  4 ≤ stage_index (current_stage st).

(** What holds of the slot of an instruction other than NOP in any
    program: it is in DECODE in cycle 2 only and is never stalled. *)
Definition flows (c : Z) (i : Instruction) (st : PipelineState) : Prop :=
  opcode i ≠ NOP →
  (current_stage st = DECODE → c = 2)
  ∧ stalled st = false ∧ stall_reason st = "".

(** Slots that need the same kind of unit are issued in program order. *)
Definition issued_in_order (instrs : list Instruction)
    (sts : list PipelineState) : Prop :=
  ∀ n1 n2 i1 i2 st1 st2,
    (n1 < n2)%nat →
    instrs !! n1 = Some i1 → instrs !! n2 = Some i2 →
    sts !! n1 = Some st1 → sts !! n2 = Some st2 →
    getExecUnit (opcode i1) = getExecUnit (opcode i2) →
    issued st2 →
    issued st1 ∧ issue_cycle st1 ≤ issue_cycle st2.

(** The facts about a state that the order of issue rests on. *)
Definition order_inv (instrs : list Instruction) (s : Sim) : Prop :=
  (cycle s ≤ 2 →
   scoreboard s = RegisterScoreboard_new 32 ∧ exec_units s = ExecutionUnits_new)
  ∧ no_unit_waits instrs s
  ∧ Forall2 (slot_timing (cycle s)) instrs (states s)
  ∧ Forall2 (flows (cycle s)) instrs (states s)
  ∧ issued_in_order instrs (states s).

(** * Properties *)

(** ** Sample evaluations *)

Example to_string_examples :
  to_string 0 = "0" /\ to_string (-1) = "-1" /\ to_string 31 = "31".
Proof. vm_compute. auto. Qed.

Example parseRegister_examples :
  parseRegister "R10" = 10 /\ parseRegister "R40" = 40 /\ parseRegister "" = -1
  /\ parseRegister "X3" = -1 /\ parseRegister "R" = -1 /\ parseRegister "R1," = 1
  /\ parseRegister "R99999999999" = -1 /\ parseRegister "R-5" = -5.
Proof. vm_compute. repeat split. Qed.

Example ipc_example :
  ipc (calculate (mkStatistics 6 2 0 0 0 0 0 0 0%float)) = (2 / 6)%float.
Proof. vm_compute. reflexivity. Qed.

(** ** Counters of type [int] *)

Lemma int_wrap_eq a b : a = b → int_wrap a = int_wrap b.
Proof. intros ->. reflexivity. Qed.

Lemma int_wrap_id z : INT_MIN ≤ z ≤ INT_MAX → int_wrap z = z.
Proof.
  unfold int_wrap, INT_MIN, INT_MAX. intros H.
  rewrite Z.mod_small by lia. lia.
Qed.

Lemma int_wrap_range z : INT_MIN ≤ int_wrap z ≤ INT_MAX.
Proof.
  unfold int_wrap, INT_MIN, INT_MAX.
  pose proof (Z.mod_pos_bound (z - -2147483648) (2 ^ 32)). lia.
Qed.

Lemma int_wrap_add a b : int_wrap (int_wrap a + b) = int_wrap (a + b).
Proof.
  unfold int_wrap.
  replace ((a - INT_MIN) mod 2 ^ 32 + INT_MIN + b - INT_MIN)
    with ((a - INT_MIN) mod 2 ^ 32 + b) by lia.
  replace (a + b - INT_MIN) with (a - INT_MIN + b) by lia.
  rewrite Zplus_mod_idemp_l. reflexivity.
Qed.

Lemma int_incr_small n : INT_MIN ≤ n < INT_MAX → int_incr n = n + 1.
Proof. intros H. unfold int_incr. apply int_wrap_id. lia. Qed.

(** ** The index loops *)

Section for_each_facts.
Context {A : Type}.
Implicit Types (body : Instruction → PipelineState → A → PipelineState * A).

Lemma for_each_cons body i instrs st sts a :
  for_each body (i :: instrs) (st :: sts) a =
  ((body i st a).1 :: (for_each body instrs sts (body i st a).2).1,
   (for_each body instrs sts (body i st a).2).2).
Proof. reflexivity. Qed.

Lemma for_each_length body instrs sts a :
  length (for_each body instrs sts a).1 = length sts.
Proof.
  revert sts a. induction instrs as [|i instrs IH]; intros [|st sts] a; simpl; auto.
Qed.

(** A relation that every execution of the body establishes between the
    slot before and after holds slot-wise across the whole loop. *)
Lemma for_each_Forall2 (R : PipelineState → PipelineState → Prop) body :
  (∀ st, R st st) →
  (∀ i st a, R st (body i st a).1) →
  ∀ instrs sts a, Forall2 R sts (for_each body instrs sts a).1.
Proof.
  intros Hrefl Hbody instrs.
  induction instrs as [|i instrs IH]; intros [|st sts] a; simpl.
  - constructor.
  - apply Forall2_same_length_lookup_2; [reflexivity|].
    intros k x y Hx Hy. rewrite Hx in Hy. injection Hy as ->. apply Hrefl.
  - constructor.
  - constructor; [apply Hbody | apply IH].
Qed.

Lemma for_each_Forall2_len (R : PipelineState → PipelineState → Prop) body :
  (∀ i st a, R st (body i st a).1) →
  ∀ instrs sts a, length instrs = length sts →
    Forall2 R sts (for_each body instrs sts a).1.
Proof.
  intros Hbody instrs.
  induction instrs as [|i instrs IH]; intros [|st sts] a Hlen; simpl in *;
    try discriminate; constructor; [apply Hbody | apply IH; lia].
Qed.

(** A slot-local property kept by the body is kept by the loop. *)
Lemma for_each_Forall (P : PipelineState → Prop) body :
  (∀ i st a, P st → P (body i st a).1) →
  ∀ instrs sts a, Forall P sts → Forall P (for_each body instrs sts a).1.
Proof.
  intros Hbody instrs.
  induction instrs as [|i instrs IH]; intros [|st sts] a Hall; simpl; auto.
  inversion Hall; subst. constructor; [apply Hbody; assumption | apply IH; assumption].
Qed.


End for_each_facts.

Lemma sweep_length body instrs sts : length (sweep body instrs sts) = length sts.
Proof. apply for_each_length. Qed.

Lemma sweep_Forall2 (R : PipelineState → PipelineState → Prop) body :
  (∀ st, R st st) → (∀ i st, R st (body i st)) →
  ∀ instrs sts, Forall2 R sts (sweep body instrs sts).
Proof.
  intros Hrefl Hbody instrs sts. unfold sweep.
  apply (for_each_Forall2 R); [assumption|]. intros i st a. apply Hbody.
Qed.

Lemma sweep_Forall (P : PipelineState → Prop) body :
  (∀ i st, P st → P (body i st)) →
  ∀ instrs sts, Forall P sts → Forall P (sweep body instrs sts).
Proof.
  intros Hbody instrs sts. unfold sweep. apply (for_each_Forall P).
  intros i st a. apply Hbody.
Qed.


Lemma Forall2_compose {X} (R1 R2 R3 : X → X → Prop) (l1 l2 l3 : list X) :
  (∀ x y z, R1 x y → R2 y z → R3 x z) →
  Forall2 R1 l1 l2 → Forall2 R2 l2 l3 → Forall2 R3 l1 l3.
Proof.
  intros Hc H12. revert l3.
  induction H12; intros l3 H23; inversion H23; subst; constructor; eauto.
Qed.

(** ** The loop and its fuel *)

Lemma simulation_loop_exit fuel instrs s :
  loop_cond instrs s = false → simulation_loop fuel instrs s = s.
Proof. intros H. destruct fuel; simpl; [reflexivity | rewrite H; reflexivity]. Qed.

Lemma simulation_loop_S fuel instrs s :
  simulation_loop (S fuel) instrs s =
  loop_iteration instrs (simulation_loop fuel instrs s).
Proof.
  revert s. induction fuel as [|fuel IH]; intros s.
  - simpl. unfold loop_iteration. reflexivity.
  - change (simulation_loop (S (S fuel)) instrs s)
      with (if loop_cond instrs s
            then simulation_loop (S fuel) instrs (cycle_body instrs s) else s).
    destruct (loop_cond instrs s) eqn:Hc.
    + rewrite IH. simpl. rewrite Hc. reflexivity.
    + simpl. rewrite Hc. unfold loop_iteration. rewrite Hc. reflexivity.
Qed.

Lemma state_after_S instrs k :
  state_after instrs (S k) = loop_iteration instrs (state_after instrs k).
Proof. apply simulation_loop_S. Qed.

(** An invariant of the loop body holds in every state the loop reaches. *)
Lemma state_after_inv (P : Sim → Prop) instrs :
  P (initial instrs) →
  (∀ s, P s → loop_cond instrs s = true → P (cycle_body instrs s)) →
  ∀ k, P (state_after instrs k).
Proof.
  intros H0 Hstep k. induction k as [|k IH]; [exact H0|].
  rewrite state_after_S. unfold loop_iteration.
  destruct (loop_cond instrs (state_after instrs k)) eqn:Hc; auto.
Qed.

Lemma cycle_body_cycle instrs s : cycle (cycle_body instrs s) = cycle s + 1.
Proof. reflexivity. Qed.

(** ** Stage movement of one slot in each pass *)

Lemma moves_refl from to st : moves from to st st.
Proof. left. reflexivity. Qed.

Lemma writeback_slot_moves c i st a :
  moves WRITEBACK COMPLETE st (writeback_slot c i st a).1.
Proof.
  unfold writeback_slot, moves. destruct a as [[sb eu] cmp].
  case_bool_decide; simpl; auto.
Qed.

Lemma execute_slot_moves i st : moves EXECUTE WRITEBACK st (execute_slot i st).
Proof.
  unfold execute_slot, moves. case_bool_decide; simpl; auto.
  destruct (_ >=? _); simpl; auto.
Qed.

Lemma issue_slot_moves c i st a : moves ISSUE EXECUTE st (issue_slot c i st a).1.
Proof.
  unfold issue_slot, moves. destruct a as [eu sb].
  case_bool_decide; simpl; auto.
  destruct (allocate eu (getExecUnit (opcode i))).1; simpl; auto.
Qed.

Lemma detectHazards_stage i st sb eu c stats :
  current_stage (detectHazards i st sb eu c stats).1.2 = current_stage st.
Proof.
  unfold detectHazards.
  destruct (isBusy sb (src1 i) c); [|destruct (isBusy sb (src2 i) c)]; simpl;
    try destruct (isAvailable eu (getExecUnit (opcode i))); reflexivity.
Qed.

Lemma decode_slot_moves sb eu c i st stats :
  moves DECODE ISSUE st (decode_slot sb eu c i st stats).1.
Proof.
  unfold decode_slot, moves. case_bool_decide; simpl; auto.
  destruct (detectHazards i st sb eu c stats).1.1 eqn:Hd; simpl; auto.
  left. apply detectHazards_stage.
Qed.

Lemma fetch_slot_moves i st : fetch_moves st (fetch_slot i st).
Proof.
  unfold fetch_slot, fetch_moves.
  repeat case_bool_decide; simpl; destruct (current_stage st); congruence.
Qed.

Lemma account_slot_stage i st : same_stage st (account_slot i st).
Proof. unfold account_slot, same_stage. destruct (_ && _); reflexivity. Qed.

Lemma passes_one_stage (s0 s1 s2 s3 s4 s5 s6 : PipelineState) :
  moves WRITEBACK COMPLETE s0 s1 → moves EXECUTE WRITEBACK s1 s2 →
  moves ISSUE EXECUTE s2 s3 → moves DECODE ISSUE s3 s4 →
  fetch_moves s4 s5 → same_stage s5 s6 →
  one_stage_per_cycle s0 s6.
Proof.
  unfold moves, fetch_moves, same_stage, one_stage_per_cycle.
  intros H1 H2 H3 H4 H5 H6. rewrite H6, H5. clear H5 H6.
  destruct H4 as [-> | [H4 ->]]; destruct H3 as [H3 | [H3 H3']];
    destruct H2 as [H2 | [H2 H2']]; destruct H1 as [H1 | [H1 H1']];
    try congruence;
    repeat match goal with
           | H : current_stage _ = current_stage _ |- _ => rewrite H in *; clear H
           end;
    try congruence;
    repeat match goal with
           | H : current_stage _ = _ |- _ => rewrite H in *
           end;
    try congruence;
    try (destruct (current_stage s0) eqn:E; simpl;
         repeat split; try lia; congruence).
Qed.


(** ** Unit occupancy *)

Lemma occ1_nonneg u st : 0 ≤ occ1 u st.
Proof. unfold occ1. destruct (holds_unit u st); lia. Qed.

Lemma occ1_not_running u st :
  current_stage st ≠ EXECUTE ∧ current_stage st ≠ WRITEBACK → occ1 u st = 0.
Proof.
  intros [H1 H2]. unfold occ1, holds_unit.
  rewrite (bool_decide_eq_false_2 _ H1), (bool_decide_eq_false_2 _ H2).
  rewrite andb_false_r. reflexivity.
Qed.

Lemma occupancy_nonneg u sts : 0 ≤ occupancy u sts.
Proof.
  induction sts as [|st sts IH]; simpl; [lia|].
  pose proof (occ1_nonneg u st). lia.
Qed.

Lemma occupancy_Forall2 u sts sts' :
  Forall2 (λ st st', holds_unit u st' = holds_unit u st) sts sts' →
  occupancy u sts' = occupancy u sts.
Proof.
  induction 1 as [|st st' sts sts' H _ IH]; simpl; [reflexivity|].
  unfold occ1. rewrite H, IH. reflexivity.
Qed.

Lemma occupancy_replicate_init u n :
  occupancy u (replicate n PipelineState_init) = 0.
Proof.
  induction n as [|n IH]; simpl; [reflexivity|]. rewrite IH.
  unfold occ1, holds_unit. simpl. rewrite andb_false_r. reflexivity.
Qed.

Lemma initial_capacity_None u : initial_capacity !! u = None ↔ u = ANY_UNIT.
Proof. destruct u; vm_compute; split; congruence. Qed.

Lemma initial_capacity_ANY : map_at initial_capacity ANY_UNIT = 0.
Proof. reflexivity. Qed.

Lemma map_at_insert_eq (m : gmap ExecUnit Z) k v : map_at (<[k := v]> m) k = v.
Proof. unfold map_at. rewrite lookup_insert_eq. reflexivity. Qed.

Lemma map_at_insert_ne (m : gmap ExecUnit Z) k k' v :
  k ≠ k' → map_at (<[k := v]> m) k' = map_at m k'.
Proof. intros Hne. unfold map_at. rewrite lookup_insert_ne by exact Hne. reflexivity. Qed.

Lemma units_inv_cons K st sts eu :
  (∀ u, 0 ≤ K u) →
  units_inv (λ u, K u + occ1 u st) sts eu → units_inv K (st :: sts) eu.
Proof.
  intros HK [Hcap H]. split; [exact Hcap|].
  intros u. destruct (H u) as (_ & Hdom & Hav & Hsum).
  split; [apply HK|]. split; [exact Hdom|]. simpl. lia.
Qed.

Lemma units_inv_K_nonneg K sts eu u : units_inv K sts eu → 0 ≤ K u.
Proof. intros [_ H]. apply H. Qed.

Lemma writeback_slot_units c i st sts K a :
  units_inv K (st :: sts) a.1.2 →
  units_inv (λ u, K u + occ1 u (writeback_slot c i st a).1) sts
    (writeback_slot c i st a).2.1.2.
Proof.
  destruct a as [[sb eu] cmp]. cbn [fst snd]. intros [Hcap H].
  unfold writeback_slot.
  case_bool_decide as Hst; cbn [fst snd].
  - (* the slot retires *)
    set (u0 := assigned_unit st).
    assert (Hholds : occ1 u0 st = 1).
    { unfold occ1, holds_unit. rewrite Hst.
      rewrite bool_decide_eq_true_2 by reflexivity.
      rewrite (bool_decide_eq_true_2 (WRITEBACK = WRITEBACK)) by reflexivity.
      rewrite orb_true_r. reflexivity. }
    destruct (H u0) as (HK0 & Hdom0 & Hav0 & Hsum0). simpl in Hsum0.
    pose proof (occupancy_nonneg u0 sts) as Hocc0.
    case_bool_decide as Hany.
    + destruct (available eu !! u0) as [a|] eqn:Ha.
      2:{ destruct Hdom0 as [Hd _]. specialize (Hd eq_refl).
          unfold map_at in Hsum0 at 2. rewrite Hd in Hsum0.
          simpl in Hsum0. lia. }
      assert (Hcapu : map_at (capacity eu) u0 = map_at initial_capacity u0)
        by (rewrite Hcap; reflexivity).
      assert (Hmapa : map_at (available eu) u0 = a)
        by (unfold map_at; rewrite Ha; reflexivity).
      unfold release. fold u0. rewrite Ha.
      assert (Hlt : (a <? map_at (capacity eu) u0) = true)
        by (apply Z.ltb_lt; lia).
      rewrite Hlt.
      assert (Htouch : map_touch (capacity eu) u0 = capacity eu).
      { unfold map_touch. destruct (capacity eu !! u0) eqn:Hc; [reflexivity|].
        rewrite Hcap in Hc. apply initial_capacity_None in Hc.
        fold u0 in Hany. contradiction. }
      rewrite Htouch. split; [exact Hcap|]. cbn [available].
      intros u. destruct (H u) as (HK & Hdom & Hav & Hsum). simpl in Hsum.
      cbv beta. rewrite occ1_not_running by (simpl; split; discriminate).
      destruct (decide (u = u0)) as [->|Hne].
      * rewrite map_at_insert_eq, lookup_insert_eq.
        split; [lia|]. split; [|lia].
        split; intros Hn; [discriminate | apply Hdom0 in Hn; discriminate].
      * assert (Hno : occ1 u st = 0).
        { unfold occ1, holds_unit. rewrite bool_decide_eq_false_2; [reflexivity|].
          fold u0. congruence. }
        rewrite map_at_insert_ne, lookup_insert_ne by congruence.
        split; [lia|]. split; [exact Hdom | lia].
    + (* a slot in WRITEBACK without a unit contradicts the invariant *)
      exfalso. assert (Hu : u0 = ANY_UNIT) by (destruct (decide (u0 = ANY_UNIT)); tauto).
      rewrite Hu in *. rewrite initial_capacity_ANY in Hsum0. lia.
  - split; [exact Hcap|]. intros u.
    destruct (H u) as (HK & Hdom & Hav & Hsum). simpl in Hsum.
    pose proof (occ1_nonneg u st).
    split; [lia|]. split; [exact Hdom | lia].
Qed.

Lemma writeback_pass_units c instrs :
  ∀ sts K a, units_inv K sts a.1.2 →
    units_inv K (for_each (writeback_slot c) instrs sts a).1
      (for_each (writeback_slot c) instrs sts a).2.1.2.
Proof.
  induction instrs as [|i instrs IH]; intros [|st sts] K a Hinv; simpl; auto.
  apply units_inv_cons.
  - intros u. eapply units_inv_K_nonneg, Hinv.
  - apply IH. apply writeback_slot_units. exact Hinv.
Qed.

Lemma issue_slot_units c i st sts K a :
  units_inv K (st :: sts) a.1 →
  units_inv (λ u, K u + occ1 u (issue_slot c i st a).1) sts (issue_slot c i st a).2.1.
Proof.
  destruct a as [eu sb]. cbn [fst snd]. intros [Hcap H].
  assert (Hkeep : units_inv (λ u, K u + occ1 u st) sts eu).
  { split; [exact Hcap|]. intros u.
    destruct (H u) as (HK & Hdom & Hav & Hsum). simpl in Hsum.
    pose proof (occ1_nonneg u st).
    split; [lia|]. split; [exact Hdom | lia]. }
  unfold issue_slot.
  case_bool_decide as Hst; cbn [fst snd]; [|exact Hkeep].
  set (unit := getExecUnit (opcode i)).
  unfold allocate, isAvailable.
  destruct (available eu !! unit) as [n|] eqn:Hn; cbn [fst snd]; [|exact Hkeep].
  destruct (n >? 0) eqn:Hpos; cbn [fst snd]; [|exact Hkeep].
  apply Z.gtb_lt in Hpos.
  assert (Hmapn : map_at (available eu) unit = n)
    by (unfold map_at; rewrite Hn; reflexivity).
  split; [exact Hcap|]. cbn [available]. intros u.
  destruct (H u) as (HK & Hdom & Hav & Hsum). simpl in Hsum.
  assert (Hold : occ1 u st = 0)
    by (apply occ1_not_running; rewrite Hst; split; discriminate).
  rewrite Hold in Hsum.
  destruct (decide (unit = u)) as [<-|Hne].
  - rewrite map_at_insert_eq, lookup_insert_eq.
    assert (Hnew : occ1 unit
      (mkPipelineState EXECUTE unit 0 (total_cycles st) (stalled st)
         (stall_reason st) c (complete_cycle st)) = 1).
    { unfold occ1, holds_unit. simpl.
      rewrite bool_decide_eq_true_2 by reflexivity. reflexivity. }
    rewrite Hnew. split; [lia|]. split; [|lia].
    split; intros Hx; [discriminate|]. apply Hdom in Hx. congruence.
  - rewrite map_at_insert_ne, lookup_insert_ne by exact Hne.
    assert (Hnew : occ1 u
      (mkPipelineState EXECUTE unit 0 (total_cycles st) (stalled st)
         (stall_reason st) c (complete_cycle st)) = 0).
    { unfold occ1, holds_unit. simpl.
      rewrite bool_decide_eq_false_2 by exact Hne. reflexivity. }
    rewrite Hnew. split; [lia|]. split; [exact Hdom | lia].
Qed.

Lemma issue_pass_units c instrs :
  ∀ sts K a, units_inv K sts a.1 →
    units_inv K (for_each (issue_slot c) instrs sts a).1
      (for_each (issue_slot c) instrs sts a).2.1.
Proof.
  induction instrs as [|i instrs IH]; intros [|st sts] K a Hinv; simpl; auto.
  apply units_inv_cons.
  - intros u. eapply units_inv_K_nonneg, Hinv.
  - apply IH. apply issue_slot_units. exact Hinv.
Qed.

(** The other passes neither take nor give back a unit. *)
Lemma units_inv_same_holds sts sts' eu :
  (∀ u, Forall2 (λ st st', holds_unit u st' = holds_unit u st) sts sts') →
  units_inv (λ _, 0) sts eu → units_inv (λ _, 0) sts' eu.
Proof.
  intros Hsame [Hcap H]. split; [exact Hcap|]. intros u.
  rewrite (occupancy_Forall2 u sts sts' (Hsame u)). apply H.
Qed.

Lemma execute_slot_holds u i st :
  holds_unit u (execute_slot i st) = holds_unit u st.
Proof.
  unfold execute_slot. case_bool_decide as Hst; [|reflexivity].
  simpl. destruct (_ >=? _); unfold holds_unit; simpl; rewrite Hst; reflexivity.
Qed.

Lemma detectHazards_slot i st sb eu c stats :
  ∃ b reason, (detectHazards i st sb eu c stats).1.2 = set_stall st b reason.
Proof.
  unfold detectHazards.
  destruct (isBusy sb (src1 i) c); [|destruct (isBusy sb (src2 i) c)]; simpl;
    try destruct (isAvailable eu (getExecUnit (opcode i))); simpl; eauto.
Qed.

Lemma decode_slot_holds u sb eu c i st stats :
  holds_unit u (decode_slot sb eu c i st stats).1 = holds_unit u st.
Proof.
  unfold decode_slot. case_bool_decide as Hst; [|reflexivity].
  destruct (detectHazards_slot i st sb eu c stats) as (b & reason & Hd).
  destruct (detectHazards i st sb eu c stats).1.1; cbn [fst snd]; rewrite Hd;
    unfold holds_unit; simpl; rewrite Hst; simpl; rewrite ?andb_false_r; reflexivity.
Qed.

Lemma fetch_slot_holds u i st : holds_unit u (fetch_slot i st) = holds_unit u st.
Proof.
  unfold fetch_slot. repeat case_bool_decide; try reflexivity;
    unfold holds_unit; simpl;
    match goal with H : current_stage st = _ |- _ => rewrite H end;
    simpl; rewrite ?andb_false_r; reflexivity.
Qed.

Lemma account_slot_holds u i st : holds_unit u (account_slot i st) = holds_unit u st.
Proof. unfold account_slot. destruct (_ && _); reflexivity. Qed.

Lemma cycle_body_units instrs s :
  units_inv (λ _, 0) (states s) (exec_units s) →
  units_inv (λ _, 0) (states (cycle_body instrs s)) (exec_units (cycle_body instrs s)).
Proof.
  intros Hinv. unfold cycle_body. cbn [states exec_units].
  set (c := cycle s + 1).
  set (wb := for_each (writeback_slot c) instrs (states s) _).
  set (ex := sweep execute_slot instrs wb.1).
  set (iss := for_each (issue_slot c) instrs ex _).
  set (dec := for_each (decode_slot _ _ c) instrs iss.1 _).
  set (fe := sweep fetch_slot instrs dec.1).
  assert (Hwb : units_inv (λ _, 0) wb.1 wb.2.1.2)
    by (apply writeback_pass_units; exact Hinv).
  assert (Hex : units_inv (λ _, 0) ex wb.2.1.2).
  { apply (units_inv_same_holds wb.1); [|exact Hwb]. intros u.
    apply sweep_Forall2; [reflexivity | intros; apply execute_slot_holds]. }
  assert (His : units_inv (λ _, 0) iss.1 iss.2.1)
    by (apply (issue_pass_units c instrs ex (λ _, 0) (wb.2.1.2, wb.2.1.1)); exact Hex).
  apply (units_inv_same_holds fe).
  { intros u. apply sweep_Forall2; [reflexivity | intros; apply account_slot_holds]. }
  apply (units_inv_same_holds dec.1).
  { intros u. apply sweep_Forall2; [reflexivity | intros; apply fetch_slot_holds]. }
  apply (units_inv_same_holds iss.1); [|exact His].
  intros u. apply for_each_Forall2; [reflexivity | intros; apply decode_slot_holds].
Qed.

Lemma initial_units instrs :
  units_inv (λ _, 0) (states (initial instrs)) (exec_units (initial instrs)).
Proof.
  split; [reflexivity|]. intros u. simpl.
  rewrite occupancy_replicate_init.
  split; [lia|]. split; [reflexivity|].
  destruct u; vm_compute; split; congruence.
Qed.

Lemma state_after_units instrs k :
  units_inv (λ _, 0) (states (state_after instrs k))
    (exec_units (state_after instrs k)).
Proof.
  apply (state_after_inv (λ s, units_inv (λ _, 0) (states s) (exec_units s))).
  - apply initial_units.
  - intros s Hs _. apply cycle_body_units. exact Hs.
Qed.

(** ** Completed slots and the counter [completed] *)

Lemma count_complete_bounds sts :
  0 ≤ count_complete sts ≤ Z.of_nat (length sts).
Proof.
  induction sts as [|st sts IH]; simpl; [lia|].
  unfold cc1. case_bool_decide; lia.
Qed.

Lemma count_complete_Forall2 sts sts' :
  Forall2 (λ st st', cc1 st' = cc1 st) sts sts' →
  count_complete sts' = count_complete sts.
Proof.
  induction 1 as [|st st' sts sts' H _ IH]; simpl; [reflexivity|].
  rewrite H, IH. reflexivity.
Qed.

Lemma count_complete_replicate_init n :
  count_complete (replicate n PipelineState_init) = 0.
Proof. induction n as [|n IH]; simpl; [reflexivity|]. rewrite IH. reflexivity. Qed.

Lemma moves_cc1 from to st st' :
  from ≠ COMPLETE → to ≠ COMPLETE → moves from to st st' → cc1 st' = cc1 st.
Proof.
  intros Hf Ht [H | [H1 H2]]; unfold cc1.
  - rewrite H. reflexivity.
  - rewrite H1, H2.
    rewrite !bool_decide_eq_false_2 by assumption. reflexivity.
Qed.

Lemma fetch_moves_cc1 st st' : fetch_moves st st' → cc1 st' = cc1 st.
Proof.
  unfold fetch_moves, cc1. intros ->.
  destruct (current_stage st); reflexivity.
Qed.

Lemma same_stage_cc1 st st' : same_stage st st' → cc1 st' = cc1 st.
Proof. unfold same_stage, cc1. intros ->. reflexivity. Qed.

Lemma writeback_slot_completed c i st a :
  (writeback_slot c i st a).2.2 + cc1 st = a.2 + cc1 (writeback_slot c i st a).1.
Proof.
  destruct a as [[sb eu] cmp]. unfold writeback_slot.
  case_bool_decide as Hst; cbn [fst snd]; [|lia].
  unfold cc1. simpl. rewrite Hst. simpl. lia.
Qed.

Lemma writeback_pass_completed c instrs :
  ∀ sts a,
    (for_each (writeback_slot c) instrs sts a).2.2 + count_complete sts
    = a.2 + count_complete (for_each (writeback_slot c) instrs sts a).1.
Proof.
  induction instrs as [|i instrs IH]; intros [|st sts] a; simpl; try lia.
  pose proof (IH sts (writeback_slot c i st a).2) as H1.
  pose proof (writeback_slot_completed c i st a) as H2.
  lia.
Qed.

Lemma cycle_body_length instrs s :
  length (states (cycle_body instrs s)) = length (states s).
Proof.
  unfold cycle_body. cbn [states].
  rewrite !sweep_length, !for_each_length, sweep_length, for_each_length.
  reflexivity.
Qed.

Lemma cycle_body_completed instrs s :
  completed s = count_complete (states s) →
  completed (cycle_body instrs s) = count_complete (states (cycle_body instrs s)).
Proof.
  intros Hinv. unfold cycle_body. cbn [states completed].
  set (c := cycle s + 1).
  set (wb := for_each (writeback_slot c) instrs (states s) _).
  set (ex := sweep execute_slot instrs wb.1).
  set (iss := for_each (issue_slot c) instrs ex _).
  set (dec := for_each (decode_slot _ _ c) instrs iss.1 _).
  set (fe := sweep fetch_slot instrs dec.1).
  set (acc := sweep account_slot instrs fe).
  pose proof (writeback_pass_completed c instrs (states s)
                (scoreboard s, exec_units s, completed s)) as Hwb.
  fold wb in Hwb. cbn [snd] in Hwb.
  assert (Hex : count_complete ex = count_complete wb.1).
  { apply count_complete_Forall2, sweep_Forall2; [reflexivity|].
    intros i st. eapply moves_cc1; [| |apply execute_slot_moves]; discriminate. }
  assert (His : count_complete iss.1 = count_complete ex).
  { apply count_complete_Forall2, for_each_Forall2; [reflexivity|].
    intros i st a. eapply moves_cc1; [| |apply issue_slot_moves]; discriminate. }
  assert (Hde : count_complete dec.1 = count_complete iss.1).
  { apply count_complete_Forall2, for_each_Forall2; [reflexivity|].
    intros i st a. eapply moves_cc1; [| |apply decode_slot_moves]; discriminate. }
  assert (Hfe : count_complete fe = count_complete dec.1).
  { apply count_complete_Forall2, sweep_Forall2; [reflexivity|].
    intros i st. apply fetch_moves_cc1, fetch_slot_moves. }
  assert (Hac : count_complete acc = count_complete fe).
  { apply count_complete_Forall2, sweep_Forall2; [reflexivity|].
    intros i st. apply same_stage_cc1, account_slot_stage. }
  lia.
Qed.

Lemma state_after_length instrs k :
  length (states (state_after instrs k)) = length instrs.
Proof.
  apply (state_after_inv (λ s, length (states s) = length instrs)).
  - simpl. apply length_replicate.
  - intros s Hs _. rewrite cycle_body_length. exact Hs.
Qed.

Lemma state_after_completed instrs k :
  completed (state_after instrs k) = count_complete (states (state_after instrs k)).
Proof.
  apply (state_after_inv (λ s, completed s = count_complete (states s))).
  - simpl. rewrite count_complete_replicate_init. reflexivity.
  - intros s Hs _. apply cycle_body_completed. exact Hs.
Qed.

Lemma state_after_completed_le instrs k :
  0 ≤ completed (state_after instrs k) ≤ Z.of_nat (length instrs).
Proof.
  rewrite state_after_completed, <- (state_after_length instrs k).
  apply count_complete_bounds.
Qed.

(** ** [complete_cycle] of a slot that has not completed *)

Lemma writeback_slot_ncy c i st a :
  not_completed_yet st → not_completed_yet (writeback_slot c i st a).1.
Proof.
  destruct a as [[sb eu] cmp]. unfold writeback_slot, not_completed_yet.
  case_bool_decide; simpl; [congruence | auto].
Qed.

Lemma execute_slot_ncy i st :
  not_completed_yet st → not_completed_yet (execute_slot i st).
Proof.
  unfold execute_slot, not_completed_yet.
  case_bool_decide as Hst; [|auto].
  intros H. destruct (_ >=? _); simpl; intros _; apply H; rewrite Hst; discriminate.
Qed.

Lemma issue_slot_ncy c i st a :
  not_completed_yet st → not_completed_yet (issue_slot c i st a).1.
Proof.
  destruct a as [eu sb]. unfold issue_slot, not_completed_yet.
  case_bool_decide as Hst; [|auto].
  intros H. destruct (allocate eu (getExecUnit (opcode i))).1; simpl; [|exact H].
  intros _. apply H. rewrite Hst. discriminate.
Qed.

Lemma decode_slot_ncy sb eu c i st stats :
  not_completed_yet st → not_completed_yet (decode_slot sb eu c i st stats).1.
Proof.
  unfold decode_slot, not_completed_yet.
  case_bool_decide as Hst; [|auto].
  intros H. destruct (detectHazards_slot i st sb eu c stats) as (b & reason & Hd).
  destruct (detectHazards i st sb eu c stats).1.1; cbn [fst snd]; rewrite Hd; simpl;
    intros _; apply H; rewrite Hst; discriminate.
Qed.

Lemma fetch_slot_ncy i st :
  not_completed_yet st → not_completed_yet (fetch_slot i st).
Proof.
  unfold fetch_slot, not_completed_yet.
  repeat case_bool_decide; simpl; auto; intros Hn _; apply Hn; congruence.
Qed.

Lemma account_slot_ncy i st :
  not_completed_yet st → not_completed_yet (account_slot i st).
Proof. unfold account_slot, not_completed_yet. destruct (_ && _); simpl; auto. Qed.

Lemma cycle_body_ncy instrs s :
  Forall not_completed_yet (states s) →
  Forall not_completed_yet (states (cycle_body instrs s)).
Proof.
  intros H. unfold cycle_body. cbn [states].
  apply sweep_Forall; [apply account_slot_ncy|].
  apply sweep_Forall; [apply fetch_slot_ncy|].
  apply for_each_Forall; [intros; apply decode_slot_ncy; assumption|].
  apply for_each_Forall; [intros; apply issue_slot_ncy; assumption|].
  apply sweep_Forall; [apply execute_slot_ncy|].
  apply for_each_Forall; [intros; apply writeback_slot_ncy; assumption|].
  exact H.
Qed.

Lemma state_after_ncy instrs k :
  Forall not_completed_yet (states (state_after instrs k)).
Proof.
  apply (state_after_inv (λ s, Forall not_completed_yet (states s))).
  - simpl. apply Forall_replicate. intros _. reflexivity.
  - intros s Hs _. apply cycle_body_ncy. exact Hs.
Qed.

(** ** Termination of the loop *)

Lemma simulation_loop_exec instrs fuel :
  ∀ s, loop_cond instrs (simulation_loop fuel instrs s) = false →
       loop_exec instrs s (simulation_loop fuel instrs s).
Proof.
  induction fuel as [|fuel IH]; intros s Hc; simpl in *.
  - apply loop_exit. exact Hc.
  - destruct (loop_cond instrs s) eqn:Hs.
    + apply loop_iter; [exact Hs | apply IH; exact Hc].
    + apply loop_exit. exact Hs.
Qed.

Lemma simulation_loop_enough_fuel instrs fuel :
  ∀ s, MAX_CYCLES - cycle s ≤ Z.of_nat fuel →
       loop_cond instrs (simulation_loop fuel instrs s) = false.
Proof.
  induction fuel as [|fuel IH]; intros s Hf; simpl.
  - unfold loop_cond. rewrite (proj2 (Z.ltb_ge (cycle s) MAX_CYCLES)) by lia.
    apply andb_false_r.
  - destruct (loop_cond instrs s) eqn:Hs; [|exact Hs].
    apply IH. rewrite cycle_body_cycle. lia.
Qed.

Lemma simulate_leaves_loop instrs : loop_cond instrs (simulate instrs) = false.
Proof.
  unfold simulate, state_after. apply simulation_loop_enough_fuel. simpl. lia.
Qed.

Lemma state_after_cycle instrs k :
  cycle (state_after instrs k) = Z.of_nat k
  ∨ loop_cond instrs (state_after instrs k) = false.
Proof.
  induction k as [|k IH]; [left; reflexivity|].
  rewrite state_after_S. unfold loop_iteration.
  destruct (loop_cond instrs (state_after instrs k)) eqn:Hc.
  - left. rewrite cycle_body_cycle. destruct IH as [IH|IH]; [lia | congruence].
  - right. exact Hc.
Qed.

Lemma state_after_cycle_bounds instrs k :
  0 ≤ cycle (state_after instrs k) ≤ Z.of_nat k
  ∧ cycle (state_after instrs k) ≤ MAX_CYCLES.
Proof.
  induction k as [|k IH]; [simpl; unfold MAX_CYCLES; lia|].
  rewrite state_after_S. unfold loop_iteration.
  destruct (loop_cond instrs (state_after instrs k)) eqn:Hc; [|lia].
  rewrite cycle_body_cycle. unfold loop_cond in Hc.
  apply andb_true_iff in Hc as [_ Hc]. apply Z.ltb_lt in Hc. lia.
Qed.

Lemma state_after_stable instrs k :
  loop_cond instrs (state_after instrs k) = false →
  ∀ j, (k ≤ j)%nat → state_after instrs j = state_after instrs k.
Proof.
  intros Hc j Hj. induction Hj as [|j Hj IH]; [reflexivity|].
  rewrite state_after_S, IH. unfold loop_iteration. rewrite Hc. reflexivity.
Qed.

Lemma state_after_at_cycle instrs k :
  state_after instrs k = state_after instrs (Z.to_nat (cycle (state_after instrs k))).
Proof.
  induction k as [|k IH]; [reflexivity|].
  rewrite state_after_S. unfold loop_iteration.
  destruct (loop_cond instrs (state_after instrs k)) eqn:Hc; [|exact IH].
  rewrite cycle_body_cycle.
  destruct (state_after_cycle instrs k) as [Hk|Hk]; [|congruence].
  rewrite Hk. replace (Z.to_nat (Z.of_nat k + 1)) with (S k) by lia.
  rewrite state_after_S. unfold loop_iteration. rewrite Hc. reflexivity.
Qed.

(** Before the cycle in which the loop is left, it was running: after [j]
    iterations the cycle counter is [j] and the condition holds. *)
Lemma state_after_running instrs k j :
  Z.of_nat j < cycle (state_after instrs k) →
  cycle (state_after instrs j) = Z.of_nat j
  ∧ loop_cond instrs (state_after instrs j) = true.
Proof.
  intros Hj.
  pose proof (state_after_cycle_bounds instrs k) as [Hk _].
  destruct (loop_cond instrs (state_after instrs j)) eqn:Hc.
  - destruct (state_after_cycle instrs j) as [H|H]; [auto | congruence].
  - exfalso.
    rewrite (state_after_stable instrs j Hc k) in Hj by lia.
    pose proof (state_after_cycle_bounds instrs j) as [Hb _]. lia.
Qed.

(** ** The scoreboard *)


Lemma markBusy_wf sb reg instr_id ready :
  wf_scoreboard sb → wf_scoreboard (markBusy sb reg instr_id ready).
Proof.
  intros [Hn Hl]. unfold markBusy. destruct (_ && _); [|split; assumption].
  split; simpl; [exact Hn | rewrite length_insert; exact Hl].
Qed.

Lemma clearBusy_wf sb reg : wf_scoreboard sb → wf_scoreboard (clearBusy sb reg).
Proof.
  intros [Hn Hl]. unfold clearBusy. destruct (_ && _); [|split; assumption].
  destruct (regs_at sb reg); [|split; assumption].
  split; simpl; [exact Hn | rewrite length_insert; exact Hl].
Qed.

(** Behind the range guard every index is inside the vector. *)
Lemma regs_at_in_bounds sb reg :
  wf_scoreboard sb → 0 ≤ reg < num_registers sb → is_Some (regs_at sb reg).
Proof.
  intros [Hn Hl] Hr. unfold regs_at. apply lookup_lt_is_Some. lia.
Qed.





(** *** Registers outside the file *)

Lemma isBusy_invalid sb r c :
  num_registers sb = 32 → valid_register r = false → isBusy sb r c = false.
Proof.
  intros Hn Hr. unfold isBusy. rewrite Hn.
  unfold valid_register in Hr.
  destruct (r <? 0) eqn:E1; [reflexivity|].
  destruct (r >=? 32) eqn:E2; [reflexivity|]. lia.
Qed.

Lemma guard_invalid sb r :
  num_registers sb = 32 → valid_register r = false →
  (r >=? 0) && (r <? num_registers sb) = false.
Proof.
  intros Hn Hr. rewrite Hn. unfold valid_register in Hr.
  destruct (r >=? 0) eqn:E1; [|reflexivity].
  destruct (r <? 32) eqn:E2; [|reflexivity]. lia.
Qed.


Lemma clearBusy_invalid sb r :
  num_registers sb = 32 → valid_register r = false → clearBusy sb r = sb.
Proof. intros Hn Hr. unfold clearBusy. rewrite guard_invalid; auto. Qed.


Lemma valid_register_minus_one : valid_register (-1) = false.
Proof. reflexivity. Qed.






(** *** The simulation does not see operands outside the register file *)











(** ** Skipped lines *)

Lemma stringToOpcode_unknown str : is_mnemonic str = false → stringToOpcode str = NOP.
Proof.
  unfold is_mnemonic, mnemonics, stringToOpcode. simpl. intros H.
  repeat (apply orb_false_elim in H as [-> H]). reflexivity.
Qed.

Lemma parse_line_skipped_iff line id :
  parse_line line id = LineSkipped ↔ skipped_line line = true.
Proof.
  unfold parse_line, skipped_line.
  destruct (is_empty line || starts_with_hash line); simpl; [tauto|].
  destruct (extract line) as [tok rest]; simpl.
  destruct (is_empty tok); [tauto|].
  split; [|discriminate].
  destruct (stringToOpcode tok);
    repeat match goal with
           | |- context [extract ?x] => destruct (extract x)
           | |- context [stoi ?x] => destruct (stoi x)
           end; discriminate.
Qed.

Lemma load_from_skip line post :
  skipped_line line = true →
  ∀ pre id, load_from id (pre ++ line :: post) = load_from id (pre ++ post).
Proof.
  intros Hs pre. induction pre as [|l pre IH]; intros id; simpl.
  - rewrite (proj2 (parse_line_skipped_iff line id) Hs). reflexivity.
  - destruct (parse_line l id); rewrite ?IH; reflexivity.
Qed.

Lemma parse_line_unknown line id :
  skipped_line line = false → is_mnemonic (extract line).1 = false →
  parse_line line id =
    let iss := (extract line).2 in
    let dest_str := (extract iss).1 in
    let src1_str := (extract (extract iss).2).1 in
    let src2_str := (extract (extract (extract iss).2).2).1 in
    LineInstr (mkInstruction id NOP (parseRegister src1_str) (parseRegister src2_str)
                 (parseRegister dest_str) false 0 line).
Proof.
  unfold skipped_line, parse_line. intros Hs Hm.
  apply orb_false_elim in Hs as [Hs1 Hs2]. rewrite Hs1.
  destruct (extract line) as [tok rest]; simpl in *. rewrite Hs2.
  rewrite (stringToOpcode_unknown tok Hm).
  destruct (extract rest) as [t1 r1]; simpl.
  destruct (extract r1) as [t2 r2]; simpl.
  destruct (extract r2) as [t3 r3]; simpl. reflexivity.
Qed.

Lemma stoi_range s v : stoi s = Some v → in_int_range v.
Proof.
  unfold stoi, in_int_range.
  destruct (match skip_spaces s with
            | String "-" rest => (true, rest)
            | String "+" rest => (false, rest)
            | _ => (false, skip_spaces s)
            end) as [neg body].
  destruct (read_digits body None) as [d|]; [|discriminate].
  destruct ((INT_MIN <=? (if neg then - d else d))
            && ((if neg then - d else d) <=? INT_MAX)) eqn:E; [|discriminate].
  intros [= <-]. apply andb_true_iff in E as [E1 E2].
  apply Z.leb_le in E1, E2. lia.
Qed.

Lemma parseRegister_range s : in_int_range (parseRegister s).
Proof.
  assert (Hm1 : in_int_range (-1)) by (unfold in_int_range, INT_MIN, INT_MAX; lia).
  unfold parseRegister.
  destruct s as [|c rest]; [exact Hm1|].
  destruct (Ascii.eqb c "R") eqn:E.
  - apply Ascii.eqb_eq in E as ->.
    destruct (stoi rest) eqn:Hs; [eapply stoi_range; exact Hs | exact Hm1].
  - assert (Hc : c ≠ "R"%char) by (intros ->; rewrite Ascii.eqb_refl in E; discriminate).
    destruct c as [[] [] [] [] [] [] [] []]; try exact Hm1; congruence.
Qed.

Lemma parse_line_instr line idn i :
  parse_line line idn = LineInstr i →
  id i = idn ∧ original_string i = line ∧ skipped_line line = false
  ∧ opcode i = stringToOpcode (extract line).1
  ∧ operand_shape i
  ∧ in_int_range (src1 i) ∧ in_int_range (src2 i) ∧ in_int_range (dest i)
  ∧ in_int_range (branch_target i).
Proof.
  assert (Hm1 : in_int_range (-1)) by (unfold in_int_range, INT_MIN, INT_MAX; lia).
  assert (H0 : in_int_range 0) by (unfold in_int_range, INT_MIN, INT_MAX; lia).
  unfold parse_line, skipped_line, operand_shape.
  destruct (is_empty line || starts_with_hash line); [discriminate|].
  destruct (extract line) as [tok iss]; cbn [fst snd orb].
  destruct (is_empty tok); [discriminate|].
  destruct (stringToOpcode tok) eqn:Hop;
    repeat match goal with
           | |- context [extract ?x] => destruct (extract x)
           end;
    try match goal with
        | |- context [stoi ?x] => destruct (stoi x) eqn:Hstoi; [|discriminate]
        end;
    intros [= <-]; cbn [id original_string opcode src1 src2 dest is_branch branch_target];
    repeat match goal with |- _ ∧ _ => split end;
    first [reflexivity | exact Hm1 | exact H0 | apply parseRegister_range
          | eapply stoi_range; eassumption].
Qed.

Lemma parse_line_throws_iff line idn :
  parse_line line idn = LineThrows ↔ line_throws line = true.
Proof.
  unfold parse_line, line_throws, skipped_line, branch_target_token.
  destruct (is_empty line || starts_with_hash line); cbn [orb negb andb];
    [split; discriminate|].
  destruct (extract line) as [tok iss]; cbn [fst snd].
  destruct (is_empty tok); cbn [negb andb]; [split; discriminate|].
  destruct (stringToOpcode tok);
    repeat match goal with
           | |- context [extract ?x] => destruct (extract x); cbn [fst snd]
           end;
    try match goal with
        | |- context [stoi ?x] => destruct (stoi x) eqn:Hstoi
        end;
    split; intros H; try discriminate; try reflexivity;
    try (apply bool_decide_eq_true_2; reflexivity);
    try (apply bool_decide_eq_true in H; discriminate).
Qed.

(** ** The loop of the earlier variant *)

Lemma legacy_writeback_slot_moves c i st a :
  moves WRITEBACK COMPLETE st (Legacy.writeback_slot c i st a).1.
Proof.
  unfold Legacy.writeback_slot, moves. destruct a as [[sb eu] cmp].
  case_bool_decide; cbn [fst current_stage]; auto.
Qed.

Lemma legacy_issue_slot_moves c i st a :
  moves ISSUE EXECUTE st (Legacy.issue_slot c i st a).1.
Proof.
  unfold Legacy.issue_slot, moves. destruct a as [eu sb].
  case_bool_decide; cbn [fst]; auto.
  destruct (Legacy.allocate eu (getExecUnit (opcode i))).1; cbn [fst current_stage]; auto.
Qed.

Lemma legacy_detectHazards_stage i st sb eu c stats :
  current_stage (Legacy.detectHazards i st sb eu c stats).1.1.2 = current_stage st.
Proof.
  unfold Legacy.detectHazards.
  destruct (isBusy sb (src1 i) c); [|destruct (isBusy sb (src2 i) c)];
    try destruct (Legacy.isAvailable eu (getExecUnit (opcode i))).1; reflexivity.
Qed.

Lemma legacy_decode_slot_moves sb c i st a :
  moves DECODE ISSUE st (Legacy.decode_slot sb c i st a).1.
Proof.
  unfold Legacy.decode_slot, moves. case_bool_decide; cbn [fst]; auto.
  destruct (Legacy.detectHazards i st sb a.2 c a.1).1.1.1 eqn:Hd;
    cbn [fst set_stage current_stage]; auto.
  left. apply legacy_detectHazards_stage.
Qed.

Lemma legacy_cycle_body_length instrs s :
  length (states (Legacy.cycle_body instrs s)) = length (states s).
Proof.
  unfold Legacy.cycle_body. cbn [states].
  rewrite !sweep_length, !for_each_length, sweep_length, for_each_length.
  reflexivity.
Qed.

Lemma legacy_loop_enough_fuel instrs fuel :
  ∀ s, Legacy.MAX_CYCLES - cycle s ≤ Z.of_nat fuel →
       Legacy.loop_cond instrs (Legacy.simulation_loop fuel instrs s) = false.
Proof.
  induction fuel as [|fuel IH]; intros s Hf; simpl.
  - unfold Legacy.loop_cond.
    rewrite (proj2 (Z.ltb_ge (cycle s) Legacy.MAX_CYCLES)) by lia.
    apply andb_false_r.
  - destruct (Legacy.loop_cond instrs s) eqn:Hs; [|exact Hs].
    apply IH. change (cycle (Legacy.cycle_body instrs s)) with (cycle s + 1). lia.
Qed.

Lemma legacy_loop_cycle_bounds instrs fuel :
  ∀ s, 0 ≤ cycle s ≤ Legacy.MAX_CYCLES →
       cycle s ≤ cycle (Legacy.simulation_loop fuel instrs s) ≤ Legacy.MAX_CYCLES
       ∧ cycle (Legacy.simulation_loop fuel instrs s) ≤ cycle s + Z.of_nat fuel
       ∧ length (states (Legacy.simulation_loop fuel instrs s)) = length (states s)
       ∧ cycle_history (Legacy.simulation_loop fuel instrs s) = cycle_history s.
Proof.
  induction fuel as [|fuel IH]; intros s Hs; simpl.
  - repeat split; lia.
  - destruct (Legacy.loop_cond instrs s) eqn:Hc; [|repeat split; lia].
    unfold Legacy.loop_cond in Hc. apply andb_true_iff in Hc as [_ Hc].
    apply Z.ltb_lt in Hc.
    destruct (IH (Legacy.cycle_body instrs s)) as (H1 & H2 & H3 & H4).
    { change (cycle (Legacy.cycle_body instrs s)) with (cycle s + 1). lia. }
    change (cycle (Legacy.cycle_body instrs s)) with (cycle s + 1) in H1, H2.
    rewrite legacy_cycle_body_length in H3.
    split; [lia|]. split; [lia|]. split; [exact H3 | exact H4].
Qed.

Lemma legacy_loop_inv (P : Sim → Prop) instrs :
  (∀ s, P s → Legacy.loop_cond instrs s = true → P (Legacy.cycle_body instrs s)) →
  ∀ fuel s, P s → P (Legacy.simulation_loop fuel instrs s).
Proof.
  intros Hstep fuel. induction fuel as [|fuel IH]; intros s Hs; simpl; [exact Hs|].
  destruct (Legacy.loop_cond instrs s) eqn:Hc; [|exact Hs].
  apply IH, Hstep; assumption.
Qed.

(** Before the cycle in which the loop is left, it was running. *)
Lemma legacy_loop_running instrs fuel :
  ∀ s (j : nat),
    cycle s + Z.of_nat j < cycle (Legacy.simulation_loop fuel instrs s) →
    cycle (Legacy.simulation_loop j instrs s) = cycle s + Z.of_nat j
    ∧ Legacy.loop_cond instrs (Legacy.simulation_loop j instrs s) = true.
Proof.
  induction fuel as [|fuel IH]; intros s j Hj; simpl in Hj; [lia|].
  destruct (Legacy.loop_cond instrs s) eqn:Hc; [|lia].
  destruct j as [|j]; simpl.
  - split; [lia | exact Hc].
  - rewrite Hc.
    destruct (IH (Legacy.cycle_body instrs s) j) as [H1 H2].
    + change (cycle (Legacy.cycle_body instrs s)) with (cycle s + 1). lia.
    + change (cycle (Legacy.cycle_body instrs s)) with (cycle s + 1) in H1.
      split; [lia | exact H2].
Qed.

Lemma legacy_writeback_pass_completed c instrs :
  ∀ sts a,
    (for_each (Legacy.writeback_slot c) instrs sts a).2.2 + count_complete sts
    = a.2 + count_complete (for_each (Legacy.writeback_slot c) instrs sts a).1.
Proof.
  induction instrs as [|i instrs IH]; intros [|st sts] a; simpl; try lia.
  pose proof (IH sts (Legacy.writeback_slot c i st a).2) as H1.
  assert (H2 : (Legacy.writeback_slot c i st a).2.2 + cc1 st
               = a.2 + cc1 (Legacy.writeback_slot c i st a).1).
  { destruct a as [[sb eu] cmp]. unfold Legacy.writeback_slot.
    case_bool_decide as Hst; cbn [fst snd]; [|lia].
    unfold cc1. simpl. rewrite Hst. simpl. lia. }
  lia.
Qed.

Lemma legacy_cycle_body_completed instrs s :
  completed s = count_complete (states s) →
  completed (Legacy.cycle_body instrs s)
  = count_complete (states (Legacy.cycle_body instrs s)).
Proof.
  intros Hinv. unfold Legacy.cycle_body. cbn [states completed].
  set (c := cycle s + 1).
  set (wb := for_each (Legacy.writeback_slot c) instrs (states s) _).
  set (ex := sweep execute_slot instrs wb.1).
  set (iss := for_each (Legacy.issue_slot c) instrs ex _).
  set (dec := for_each (Legacy.decode_slot _ c) instrs iss.1 _).
  set (fe := sweep fetch_slot instrs dec.1).
  set (acc := sweep account_slot instrs fe).
  pose proof (legacy_writeback_pass_completed c instrs (states s)
                (scoreboard s, reset (exec_units s), completed s)) as Hwb.
  fold wb in Hwb. cbn [snd] in Hwb.
  assert (Hex : count_complete ex = count_complete wb.1).
  { apply count_complete_Forall2, sweep_Forall2; [reflexivity|].
    intros i st. eapply moves_cc1; [| |apply execute_slot_moves]; discriminate. }
  assert (His : count_complete iss.1 = count_complete ex).
  { apply count_complete_Forall2, for_each_Forall2; [reflexivity|].
    intros i st a. eapply moves_cc1; [| |apply legacy_issue_slot_moves]; discriminate. }
  assert (Hde : count_complete dec.1 = count_complete iss.1).
  { apply count_complete_Forall2, for_each_Forall2; [reflexivity|].
    intros i st a. eapply moves_cc1; [| |apply legacy_decode_slot_moves]; discriminate. }
  assert (Hfe : count_complete fe = count_complete dec.1).
  { apply count_complete_Forall2, sweep_Forall2; [reflexivity|].
    intros i st. apply fetch_moves_cc1, fetch_slot_moves. }
  assert (Hac : count_complete acc = count_complete fe).
  { apply count_complete_Forall2, sweep_Forall2; [reflexivity|].
    intros i st. apply same_stage_cc1, account_slot_stage. }
  lia.
Qed.

Lemma legacy_state_after_completed_le instrs k :
  0 ≤ completed (Legacy.state_after instrs k) ≤ Z.of_nat (length instrs).
Proof.
  assert (H : completed (Legacy.state_after instrs k)
              = count_complete (states (Legacy.state_after instrs k))
              ∧ length (states (Legacy.state_after instrs k)) = length instrs).
  { apply (legacy_loop_inv
             (λ s, completed s = count_complete (states s)
                   ∧ length (states s) = length instrs)).
    - intros s [H1 H2] _. split; [apply legacy_cycle_body_completed; exact H1|].
      rewrite legacy_cycle_body_length. exact H2.
    - simpl. rewrite count_complete_replicate_init, length_replicate. auto. }
  destruct H as [-> <-]. apply count_complete_bounds.
Qed.

Lemma legacy_detectHazards_slot i st sb eu c stats :
  ∃ b reason,
    (Legacy.detectHazards i st sb eu c stats).1.1.2 = set_stall st b reason.
Proof.
  unfold Legacy.detectHazards.
  destruct (isBusy sb (src1 i) c); [|destruct (isBusy sb (src2 i) c)];
    try destruct (Legacy.isAvailable eu (getExecUnit (opcode i))).1;
    cbn [fst snd]; eauto.
Qed.

Lemma legacy_decode_slot_ncy sb c i st a :
  not_completed_yet st → not_completed_yet (Legacy.decode_slot sb c i st a).1.
Proof.
  unfold Legacy.decode_slot, not_completed_yet.
  case_bool_decide as Hst; [|auto].
  intros H. destruct (legacy_detectHazards_slot i st sb a.2 c a.1) as (b & reason & Hd).
  destruct (Legacy.detectHazards i st sb a.2 c a.1).1.1.1; cbn [fst snd];
    rewrite Hd; simpl; intros _; apply H; rewrite Hst; discriminate.
Qed.

Lemma legacy_issue_slot_ncy c i st a :
  not_completed_yet st → not_completed_yet (Legacy.issue_slot c i st a).1.
Proof.
  destruct a as [eu sb]. unfold Legacy.issue_slot, not_completed_yet.
  case_bool_decide as Hst; [|auto].
  intros H. destruct (Legacy.allocate eu (getExecUnit (opcode i))).1; simpl; [|exact H].
  intros _. apply H. rewrite Hst. discriminate.
Qed.

Lemma legacy_writeback_slot_ncy c i st a :
  not_completed_yet st → not_completed_yet (Legacy.writeback_slot c i st a).1.
Proof.
  destruct a as [[sb eu] cmp]. unfold Legacy.writeback_slot, not_completed_yet.
  case_bool_decide; simpl; [congruence | auto].
Qed.

Lemma legacy_cycle_body_ncy instrs s :
  Forall not_completed_yet (states s) →
  Forall not_completed_yet (states (Legacy.cycle_body instrs s)).
Proof.
  intros H. unfold Legacy.cycle_body. cbn [states].
  apply sweep_Forall; [apply account_slot_ncy|].
  apply sweep_Forall; [apply fetch_slot_ncy|].
  apply for_each_Forall; [intros; apply legacy_decode_slot_ncy; assumption|].
  apply for_each_Forall; [intros; apply legacy_issue_slot_ncy; assumption|].
  apply sweep_Forall; [apply execute_slot_ncy|].
  apply for_each_Forall; [intros; apply legacy_writeback_slot_ncy; assumption|].
  exact H.
Qed.

(** * Main results *)

(** C1 -- the input program [NOP].  The source does not complete it: the
    unit of NOP is [ANY_UNIT], which is no key of the availability map, so
    [detectHazards] reports "Structural - ANY busy" in every cycle from the
    third on.  The slot is still in DECODE when the loop gives up at cycle
    500; nothing has completed and 498 structural hazards (and stalls) have
    been counted. *)
Theorem nop_stalls_in_decode :
  loadInstructionsFromString ["NOP"]
    = Some [mkInstruction 1 NOP (-1) (-1) (-1) false 0 "NOP"]
  ∧ states (simulate [mkInstruction 1 NOP (-1) (-1) (-1) false 0 "NOP"])
    = [mkPipelineState DECODE ANY_UNIT 0 500 true "Structural - ANY busy" (-1) (-1)]
  ∧ result_stats (main ["NOP"])
    = Some (mkStatistics 500 0 498 0 0 0 498 0 0%float).
Proof. vm_compute. repeat split; reflexivity. Qed.

(** X25 -- unit capacity in [pipeline_fixed.cpp].  At the end of every
    cycle of every program, the slots in EXECUTE or WRITEBACK that hold a
    unit of a kind never exceed that kind's capacity (ALU 2, FPU 1, MEM 1,
    BRANCH 1).  The pool is not reset in the loop: the capacity map is the
    initial one, and the free units of each kind are exactly the capacity
    minus the units held, so only [allocate] at issue and [release] at
    writeback change them. *)
Theorem unit_capacity_respected (instrs : list Instruction) (k : nat) :
  let s := state_after instrs k in
  occupancy ALU_UNIT (states s) ≤ 2
  ∧ occupancy FPU_UNIT (states s) ≤ 1
  ∧ occupancy MEM_UNIT (states s) ≤ 1
  ∧ occupancy BRANCH_UNIT (states s) ≤ 1
  ∧ capacity (exec_units s) = initial_capacity
  ∧ ∀ u, map_at (available (exec_units s)) u
         = map_at initial_capacity u - occupancy u (states s).
Proof.
  intros s. destruct (state_after_units instrs k) as [Hcap H]. fold s in Hcap, H.
  assert (Hle : ∀ u, occupancy u (states s) ≤ map_at initial_capacity u).
  { intros u. destruct (H u) as (_ & _ & Hav & Hsum). lia. }
  split; [apply (Hle ALU_UNIT)|]. split; [apply (Hle FPU_UNIT)|].
  split; [apply (Hle MEM_UNIT)|]. split; [apply (Hle BRANCH_UNIT)|].
  split; [exact Hcap|].
  intros u. destruct (H u) as (_ & _ & _ & Hsum). lia.
Qed.

(** C3, as stated, fails for the loop of [pipeline.cpp]: its cap is 100,
    not 500.  On the program [NOP] that loop is still running after 99
    cycles and is left after 100, with nothing completed and the cycle
    counter far from 500. *)
Lemma legacy_loop_stops_at_100 :
  let p := [mkInstruction 1 NOP (-1) (-1) (-1) false 0 "NOP"] in
  let l := Legacy.state_after p 100 in
  Legacy.loop_cond p (Legacy.state_after p 99) = true
  ∧ Legacy.loop_cond p l = false
  ∧ ¬ (completed l = Z.of_nat (length p) ∨ cycle l = 500).
Proof.
  intros p l.
  assert (Hc : cycle l = 100) by (vm_compute; reflexivity).
  assert (Hd : completed l = 0) by (vm_compute; reflexivity).
  split; [vm_compute; reflexivity|]. split; [vm_compute; reflexivity|].
  rewrite Hc, Hd. simpl. intros [H|H]; discriminate.
Qed.

(** C3 -- termination, amended.  For every program the loop terminates.
    In [pipeline_fixed.cpp] it is left in the state that [simulate]
    computes, with [completed] equal to the number of instructions or
    [cycle] equal to [MAX_CYCLES = 500], and not earlier: in each of the
    cycles before, fewer instructions had completed and the cycle counter
    was below the cap.  [main] prints the result built from that state, on
    a timeout as well: [totalCycles] is the cycle counter,
    [instructionsCompleted] is [completed].  The loop of [pipeline.cpp] is
    left in the same way, with the cap [MAX_CYCLES = 100].  In both, every
    slot that has not completed still has [complete_cycle == -1]. *)
Theorem simulation_loop_terminates (instrs : list Instruction) :
  let s := simulate instrs in
  let l := Legacy.state_after instrs (Z.to_nat Legacy.MAX_CYCLES) in
  let n := Z.of_nat (length instrs) in
  loop_exec instrs (initial instrs) s
  ∧ (completed s = n ∨ cycle s = MAX_CYCLES)
  ∧ MAX_CYCLES = 500
  ∧ s = state_after instrs (Z.to_nat (cycle s))
  ∧ (∀ j : nat, Z.of_nat j < cycle s →
       cycle (state_after instrs j) = Z.of_nat j
       ∧ completed (state_after instrs j) < n
       ∧ cycle (state_after instrs j) < MAX_CYCLES)
  ∧ stat_total_cycles (final_statistics s) = cycle s
  ∧ instructions_completed (final_statistics s) = completed s
  ∧ Forall (λ st, current_stage st ≠ COMPLETE → complete_cycle st = -1) (states s)
  ∧ (∀ lines, loadInstructionsFromString lines = Some instrs → instrs ≠ [] →
       main lines = ResultJson (final_statistics s) (cycle_history s))
  ∧ Legacy.loop_cond instrs l = false
  ∧ (completed l = n ∨ cycle l = Legacy.MAX_CYCLES)
  ∧ Legacy.MAX_CYCLES = 100
  ∧ (∀ fuel, Legacy.simulation_loop fuel instrs l = l)
  ∧ (∀ j : nat, Z.of_nat j < cycle l →
       cycle (Legacy.state_after instrs j) = Z.of_nat j
       ∧ completed (Legacy.state_after instrs j) < n
       ∧ cycle (Legacy.state_after instrs j) < Legacy.MAX_CYCLES)
  ∧ Forall (λ st, current_stage st ≠ COMPLETE → complete_cycle st = -1) (states l).
Proof.
  intros s l n.
  pose proof (simulate_leaves_loop instrs) as Hexit. fold s in Hexit.
  split; [apply simulation_loop_exec; exact Hexit|].
  split.
  { pose proof (state_after_completed_le instrs (Z.to_nat MAX_CYCLES)) as Hc.
    pose proof (state_after_cycle_bounds instrs (Z.to_nat MAX_CYCLES)) as [_ Hb].
    fold (simulate instrs) in Hc, Hb. fold s in Hc, Hb. fold n in Hc.
    unfold loop_cond in Hexit. fold n in Hexit.
    apply andb_false_iff in Hexit as [He|He]; apply Z.ltb_ge in He; [left|right]; lia. }
  split; [reflexivity|].
  split; [apply state_after_at_cycle|].
  split.
  { intros j Hj.
    destruct (state_after_running instrs (Z.to_nat MAX_CYCLES) j Hj) as [Hcy Hc].
    split; [exact Hcy|].
    unfold loop_cond in Hc. apply andb_true_iff in Hc as [H1 H2].
    apply Z.ltb_lt in H1, H2. split; assumption. }
  split; [reflexivity|]. split; [reflexivity|].
  split; [apply state_after_ncy|].
  split.
  { intros lines Hload Hne. unfold main. rewrite Hload.
    destruct instrs; [contradiction | reflexivity]. }
  assert (Hlexit : Legacy.loop_cond instrs l = false).
  { apply legacy_loop_enough_fuel. simpl. unfold Legacy.MAX_CYCLES. lia. }
  split; [exact Hlexit|].
  split.
  { pose proof (legacy_state_after_completed_le instrs (Z.to_nat Legacy.MAX_CYCLES))
      as Hc.
    destruct (legacy_loop_cycle_bounds instrs (Z.to_nat Legacy.MAX_CYCLES)
                (initial instrs)) as (Hb & _);
      [simpl; unfold Legacy.MAX_CYCLES; lia|].
    fold (Legacy.state_after instrs (Z.to_nat Legacy.MAX_CYCLES)) in Hb.
    fold l in Hc, Hb. fold n in Hc.
    unfold Legacy.loop_cond in Hlexit. fold n in Hlexit.
    apply andb_false_iff in Hlexit as [He|He]; apply Z.ltb_ge in He;
      [left|right]; lia. }
  split; [reflexivity|].
  split.
  { intros fuel. destruct fuel; simpl; rewrite ?Hlexit; reflexivity. }
  split.
  { intros j Hj.
    destruct (legacy_loop_running instrs (Z.to_nat Legacy.MAX_CYCLES)
                (initial instrs) j) as [Hcy Hc].
    { simpl. exact Hj. }
    fold (Legacy.state_after instrs j) in Hcy, Hc. simpl in Hcy.
    split; [exact Hcy|].
    unfold Legacy.loop_cond in Hc. apply andb_true_iff in Hc as [H1 H2].
    apply Z.ltb_lt in H1, H2. split; assumption. }
  apply (legacy_loop_inv (λ s, Forall not_completed_yet (states s))).
  - intros s' Hs' _. apply legacy_cycle_body_ncy. exact Hs'.
  - simpl. apply Forall_replicate. intros _. reflexivity.
Qed.

Lemma simulation_loop_terminates_witness :
  let nop := mkInstruction 1 NOP (-1) (-1) (-1) false 0 "NOP" in
  main ["NOP"]
    = ResultJson (final_statistics (simulate [nop])) (cycle_history (simulate [nop]))
  ∧ cycle (simulate [nop]) = 500 ∧ completed (simulate [nop]) = 0.
Proof.
  intros nop.
  destruct (simulation_loop_terminates [nop])
    as (_ & _ & _ & _ & _ & _ & _ & _ & Hmain & _).
  split.
  - apply Hmain; [reflexivity | discriminate].
  - split; vm_compute; reflexivity.
Defined.

(** C4 -- RAW order.  The source does not enforce it.  In the program
    [DIV R1 R2 R3; ADD R4 R1 R5] the second instruction reads R1, whose
    most recent writer is the first; both pass DECODE in cycle 3, before
    the first has marked R1 busy, and both are issued in cycle 4, although
    the DIV has latency 8.  Both complete, and no RAW hazard is counted. *)
Theorem raw_order_not_enforced :
  let I := mkInstruction 1 DIV 2 3 1 false 0 "DIV R1 R2 R3" in
  let J := mkInstruction 2 ADD 1 5 4 false 0 "ADD R4 R1 R5" in
  let s := simulate [I; J] in
  loadInstructionsFromString ["DIV R1 R2 R3"; "ADD R4 R1 R5"] = Some [I; J]
  ∧ src1 J = dest I
  ∧ map current_stage (states s) = [COMPLETE; COMPLETE]
  ∧ map issue_cycle (states s) = [4; 4]
  ∧ getLatency (opcode I) = 8
  ∧ raw_hazards (stats s) = 0
  ∧ ∀ sI sJ, states s = [sI; sJ] →
      issue_cycle sJ < issue_cycle sI + getLatency (opcode I).
Proof.
  vm_compute. repeat split; try reflexivity.
  intros sI sJ H. injection H as <- <-. reflexivity.
Qed.

(** C5, as the scenario states it, fails: the run does not take 5 cycles
    and the IPC is not 0.4. *)
Lemma two_alu_not_five_cycles :
  ¬ ∃ st, result_stats (main two_alu_program) = Some st
          ∧ instructions_completed st = 2
          ∧ raw_hazards st = 0
          ∧ structural_hazards st = 0
          ∧ stat_total_cycles st = 5
          ∧ ipc st = double_0_4.
Proof.
  intros (st & Hm & _ & _ & _ & H5 & _).
  assert (H6 : stat_total_cycles <$> result_stats (main two_alu_program) = Some 6)
    by (vm_compute; reflexivity).
  rewrite Hm in H6. simpl in H6. injection H6 as H6. lia.
Qed.

(** C5 -- two independent ALU operations, amended.  Both instructions
    complete without any hazard, in 6 cycles (FETCH, DECODE, ISSUE,
    EXECUTE, WRITEBACK each take a cycle and completion is recorded in the
    sixth); the IPC is the double 2/6, which differs from 0.4, and six
    snapshots are recorded. *)
Theorem two_alu_six_cycles :
  result_stats (main two_alu_program)
    = Some (mkStatistics 6 2 0 0 0 0 0 0 (2 / 6)%float)
  ∧ PrimFloat.eqb (2 / 6)%float double_0_4 = false
  ∧ length <$> result_cycles (main two_alu_program) = Some 6%nat
  ∧ map current_stage
      (states (simulate (default [] (loadInstructionsFromString two_alu_program))))
    = [COMPLETE; COMPLETE].
Proof. vm_compute. repeat split; reflexivity. Qed.

(** C6, as stated, fails: a line whose first token is no mnemonic is not
    skipped.  It yields a NOP record with the next id, shifts the ids of
    the lines after it, and changes the simulation (the NOP never
    completes, so the run lasts 500 cycles instead of 6). *)
Lemma unknown_mnemonic_not_skipped :
  is_mnemonic (extract "FOO R1 R2 R3").1 = false
  ∧ loadInstructionsFromString ["FOO R1 R2 R3"; "ADD R1 R2 R3"]
    = Some [mkInstruction 1 NOP 2 3 1 false 0 "FOO R1 R2 R3";
            mkInstruction 2 ADD 2 3 1 false 0 "ADD R1 R2 R3"]
  ∧ loadInstructionsFromString ["ADD R1 R2 R3"]
    = Some [mkInstruction 1 ADD 2 3 1 false 0 "ADD R1 R2 R3"]
  ∧ stat_total_cycles <$> result_stats (main ["FOO R1 R2 R3"; "ADD R1 R2 R3"])
    = Some 500
  ∧ stat_total_cycles <$> result_stats (main ["ADD R1 R2 R3"]) = Some 6.
Proof. vm_compute. repeat split; reflexivity. Qed.

(** C6 -- skipped lines, amended.  The loader skips a line when it is
    empty, starts with [#] or holds no token: such a line yields no record,
    uses no id and leaves the loaded program as it is without the line.
    A line whose first token is not a mnemonic is not among them: it is
    loaded, with the next id, as a NOP whose [dest], [src1] and [src2] are
    the three tokens that follow, read by [parseRegister].  Nor is any
    other line: whatever its operands are, a line that is not skipped
    yields one record with the next id and the opcode of its first token,
    unless it is a BEQ, BNE or JMP whose target [stoi] rejects. *)
Theorem skipped_lines_and_unknown_mnemonics (line : string) :
  (skipped_line line = true →
     (∀ id, parse_line line id = LineSkipped)
     ∧ ∀ pre post, loadInstructionsFromString (pre ++ line :: post)
                   = loadInstructionsFromString (pre ++ post)
                   ∧ main (pre ++ line :: post) = main (pre ++ post))
  ∧ (skipped_line line = false → is_mnemonic (extract line).1 = false →
     ∀ idn, ∃ i, parse_line line idn = LineInstr i
                 ∧ id i = idn ∧ opcode i = NOP ∧ original_string i = line
                 ∧ dest i = parseRegister (extract (extract line).2).1
                 ∧ src1 i = parseRegister (extract (extract (extract line).2).2).1
                 ∧ src2 i
                   = parseRegister
                       (extract (extract (extract (extract line).2).2).2).1
                 ∧ is_branch i = false ∧ branch_target i = 0
                 ∧ ∀ rest, load_from idn (line :: rest)
                           = cons i <$> load_from (idn + 1) rest)
  ∧ (skipped_line line = false → line_throws line = false →
     ∀ idn, ∃ i, parse_line line idn = LineInstr i
                 ∧ id i = idn ∧ original_string i = line
                 ∧ opcode i = stringToOpcode (extract line).1
                 ∧ ∀ rest, load_from idn (line :: rest)
                           = cons i <$> load_from (idn + 1) rest).
Proof.
  split; [|split].
  - intros Hs. split.
    + intros idn. apply parse_line_skipped_iff. exact Hs.
    + intros pre post.
      assert (Hl : loadInstructionsFromString (pre ++ line :: post)
                   = loadInstructionsFromString (pre ++ post))
        by (apply load_from_skip; exact Hs).
      split; [exact Hl|]. unfold main. rewrite Hl. reflexivity.
  - intros Hs Hm idn. eexists. split; [apply parse_line_unknown; assumption|].
    cbn zeta. cbn [id opcode original_string dest src1 src2 is_branch branch_target].
    repeat match goal with |- _ ∧ _ => split end; try reflexivity.
    intros rest. simpl. rewrite parse_line_unknown by assumption. cbn zeta.
    destruct (load_from (idn + 1) rest); reflexivity.
  - intros Hs Ht idn.
    destruct (parse_line line idn) as [|i|] eqn:Hp.
    + apply parse_line_skipped_iff in Hp. congruence.
    + exists i. split; [reflexivity|].
      destruct (parse_line_instr line idn i Hp) as (Hid & Ho & _ & Hop & _).
      split; [exact Hid|]. split; [exact Ho|]. split; [exact Hop|].
      intros rest. simpl. rewrite Hp.
      destruct (load_from (idn + 1) rest); reflexivity.
    + apply parse_line_throws_iff in Hp. congruence.
Qed.

Lemma skipped_lines_and_unknown_mnemonics_witness :
  loadInstructionsFromString (["ADD R1 R2 R3"] ++ "   " :: ["SUB R4 R5 R6"])
    = loadInstructionsFromString (["ADD R1 R2 R3"] ++ ["SUB R4 R5 R6"])
  ∧ (∃ i, parse_line "FOO R1 R2 R3" 7 = LineInstr i ∧ id i = 7 ∧ opcode i = NOP
          ∧ dest i = 1 ∧ src1 i = 2 ∧ src2 i = 3)
  ∧ (∃ i, parse_line "ADD R1" 7 = LineInstr i ∧ id i = 7 ∧ opcode i = ADD).
Proof.
  split; [|split].
  - apply (proj1 (skipped_lines_and_unknown_mnemonics "   ")). reflexivity.
  - destruct (proj1 (proj2 (skipped_lines_and_unknown_mnemonics "FOO R1 R2 R3"))
                eq_refl eq_refl 7) as (i & Hp & Hi & Ho & _ & Hd & H1 & H2 & _).
    exists i. repeat match goal with |- _ ∧ _ => split end;
      [exact Hp | exact Hi | exact Ho | rewrite Hd | rewrite H1 | rewrite H2];
      reflexivity.
  - destruct (proj2 (proj2 (skipped_lines_and_unknown_mnemonics "ADD R1"))
                eq_refl eq_refl 7) as (i & Hp & Hi & _ & Ho & _).
    exists i. repeat match goal with |- _ ∧ _ => split end;
      [exact Hp | exact Hi | rewrite Ho; reflexivity].
Defined.

(** C7 -- hazard detection for a slot in DECODE.  RAW on [src1] is looked
    at first, RAW on [src2] only without a hazard on [src1], the unit only
    without any RAW hazard.  The detector returns false exactly when one of
    them fired; then the slot is stalled with the reason of that hazard
    ("RAW on R<src> (writer: I<id>)" or "Structural - <UNIT> busy"), the
    counter of that hazard and [total_stalls] are incremented, the other
    counters and the other fields of the slot stay, and the slot stays in
    DECODE.  Without a hazard the stall flag and the reason are cleared, no
    counter changes, and the decode pass moves the slot to ISSUE.  The
    increment is [++] on an [int]: plus one below [INT_MAX]. *)
Theorem detectHazards_in_decode (i : Instruction) (st : PipelineState)
    (sb : RegisterScoreboard) (eu : ExecutionUnits) (c : Z) (stats : Statistics)
    (Hst : current_stage st = DECODE) :
  let r := detectHazards i st sb eu c stats in
  let d := decode_slot sb eu c i st stats in
  let required := getExecUnit (opcode i) in
  let raw1 := isBusy sb (src1 i) c in
  let raw2 := negb raw1 && isBusy sb (src2 i) c in
  let structural := negb raw1 && negb raw2 && negb (isAvailable eu required) in
  r.1.1 = negb (raw1 || raw2 || structural)
  ∧ (r.1.1 = false ↔
     isBusy sb (src1 i) c = true ∨ isBusy sb (src2 i) c = true
     ∨ isAvailable eu required = false)
  ∧ r.1.2
    = mkPipelineState DECODE (assigned_unit st) (cycles_in_stage st)
        (total_cycles st) (negb r.1.1)
        (if raw1
         then "RAW on R" +:+ to_string (src1 i) +:+ " (writer: I"
              +:+ to_string (getWriter sb (src1 i)) +:+ ")"
         else if raw2
         then "RAW on R" +:+ to_string (src2 i) +:+ " (writer: I"
              +:+ to_string (getWriter sb (src2 i)) +:+ ")"
         else if structural
         then match required with
              | ALU_UNIT => "Structural - ALU busy"
              | FPU_UNIT => "Structural - FPU busy"
              | MEM_UNIT => "Structural - MEM busy"
              | BRANCH_UNIT => "Structural - BRANCH busy"
              | ANY_UNIT => "Structural - ANY busy"
              end
         else "")
        (issue_cycle st) (complete_cycle st)
  ∧ r.2
    = mkStatistics (stat_total_cycles stats) (instructions_completed stats)
        (if r.1.1 then total_stalls stats else int_incr (total_stalls stats))
        (if raw1 || raw2 then int_incr (raw_hazards stats) else raw_hazards stats)
        (war_hazards stats) (waw_hazords stats)
        (if structural then int_incr (structural_hazards stats)
         else structural_hazards stats)
        (branch_mispredictions stats) (ipc stats)
  ∧ (∀ n, INT_MIN ≤ n < INT_MAX → int_incr n = n + 1)
  ∧ int_incr INT_MAX = INT_MIN
  ∧ d = (if r.1.1 then set_stage r.1.2 ISSUE else r.1.2, r.2)
  ∧ current_stage d.1 = (if r.1.1 then ISSUE else DECODE)
  ∧ stalled d.1 = negb r.1.1
  ∧ stall_reason d.1 = stall_reason r.1.2.
Proof.
  intros r d required raw1 raw2 structural.
  subst r d raw1 raw2 structural. unfold decode_slot.
  rewrite Hst, bool_decide_eq_true_2 by reflexivity.
  unfold detectHazards. fold required.
  assert (Hreason : structural_reason required
                    = match required with
                      | ALU_UNIT => "Structural - ALU busy"
                      | FPU_UNIT => "Structural - FPU busy"
                      | MEM_UNIT => "Structural - MEM busy"
                      | BRANCH_UNIT => "Structural - BRANCH busy"
                      | ANY_UNIT => "Structural - ANY busy"
                      end) by (destruct required; reflexivity).
  destruct st as [stage unit cis total stl reason ic cc].
  destruct stats as [tc done ts raw war waw str bm ip].
  cbn [current_stage] in Hst. subst stage.
  destruct (isBusy sb (src1 i) c) eqn:H1;
    [|destruct (isBusy sb (src2 i) c) eqn:H2];
    cbn [negb andb orb fst snd];
    try destruct (isAvailable eu required) eqn:H3;
    cbn [negb andb orb fst snd set_stall set_stage current_stage stalled
         stall_reason assigned_unit cycles_in_stage total_cycles issue_cycle
         complete_cycle total_stalls raw_hazards structural_hazards
         war_hazards waw_hazords branch_mispredictions stat_total_cycles
         instructions_completed ipc bump_stalls bump_raw bump_structural];
    rewrite ?Hreason;
    repeat match goal with |- _ ∧ _ => split end;
    try reflexivity;
    try (intros n Hn; apply int_incr_small; exact Hn);
    try (split; [auto | intros [?|[?|?]]; congruence]);
    try (split; [discriminate | intros [?|[?|?]]; congruence]).
Qed.

Lemma detectHazards_in_decode_witness :
  let i := mkInstruction 2 ADD 1 5 4 false 0 "ADD R4 R1 R5" in
  let st := mkPipelineState DECODE ANY_UNIT 0 2 false "" (-1) (-1) in
  let sb := markBusy (RegisterScoreboard_new 32) 1 1 12 in
  let d := decode_slot sb ExecutionUnits_new 4 i st Statistics_init in
  (detectHazards i st sb ExecutionUnits_new 4 Statistics_init).1.1 = false
  ∧ d.1 = mkPipelineState DECODE ANY_UNIT 0 2 true "RAW on R1 (writer: I1)" (-1) (-1)
  ∧ d.2 = mkStatistics 0 0 1 1 0 0 0 0 0%float.
Proof.
  intros i st sb d. subst d.
  destruct (detectHazards_in_decode i st sb ExecutionUnits_new 4 Statistics_init
              eq_refl) as (H1 & _ & Hs & Hc & _ & _ & Hd & _).
  cbv zeta in Hd. rewrite H1 in Hs, Hc, Hd.
  split; [exact H1|]. rewrite Hd. cbn [fst snd]. split.
  - rewrite Hs. reflexivity.
  - rewrite Hc. reflexivity.
Defined.

(** C8 -- [isBusy].  On the scoreboard of the simulation (32 entries),
    [isBusy(r, c)] is true exactly when [r] is in [0, 32), the entry of [r]
    is busy and its [ready_cycle] is greater than [c].  An entry whose
    [ready_cycle] equals [c] is reported available; a negative [r] and an
    [r] of 32 or more are reported not busy, with writer [-1]. *)
Theorem isBusy_spec (sb : RegisterScoreboard) (r c : Z) (Hwf : wf_scoreboard sb) :
  (isBusy sb r c = true ↔
     0 ≤ r < 32
     ∧ ∃ e, regs_at sb r = Some e ∧ busy e = true ∧ ready_cycle e > c)
  ∧ (∀ e, regs_at sb r = Some e → ready_cycle e = c → isBusy sb r c = false)
  ∧ (r < 0 ∨ 32 ≤ r → isBusy sb r c = false ∧ getWriter sb r = -1).
Proof.
  destruct Hwf as [Hn Hl]. unfold isBusy, getWriter. rewrite Hn.
  split; [|split].
  - destruct (r <? 0) eqn:E1; [simpl; split; [discriminate | lia]|].
    destruct (r >=? 32) eqn:E2; [simpl; split; [discriminate | lia]|].
    simpl. apply Z.ltb_ge in E1.
    assert (r < 32) by lia.
    destruct (regs_at sb r) as [e|] eqn:He.
    + split.
      * intros Hb. apply andb_true_iff in Hb as [Hb Hr].
        split; [lia|]. exists e. split; [reflexivity|]. split; [exact Hb | lia].
      * intros (_ & e' & He' & Hb & Hr). injection He' as <-.
        rewrite Hb. simpl. lia.
    + split; [discriminate|]. intros (_ & e' & He' & _). discriminate.
  - intros e He Hr. destruct ((r <? 0) || (r >=? 32)); [reflexivity|].
    rewrite He, Hr.
    replace (c >? c) with false by (symmetry; lia). apply andb_false_r.
  - intros Hr. split.
    + replace ((r <? 0) || (r >=? 32)) with true; [reflexivity|].
      symmetry. apply orb_true_iff. lia.
    + replace ((r >=? 0) && (r <? 32)) with false; [reflexivity|].
      symmetry. apply andb_false_iff. lia.
Qed.

Lemma isBusy_spec_witness :
  let sb := markBusy (RegisterScoreboard_new 32) 1 1 12 in
  isBusy sb 1 5 = true ∧ isBusy sb 1 12 = false
  ∧ isBusy sb 40 5 = false ∧ getWriter sb (-1) = -1.
Proof.
  intros sb.
  assert (Hwf : wf_scoreboard sb) by (split; reflexivity).
  split; [|split; [|split]].
  - apply (proj1 (isBusy_spec sb 1 5 Hwf)).
    split; [lia|]. exists (mkRegInfo true 1 12). repeat split.
  - apply (proj1 (proj2 (isBusy_spec sb 1 12 Hwf)) (mkRegInfo true 1 12));
      reflexivity.
  - apply (proj2 (proj2 (isBusy_spec sb 40 5 Hwf))). lia.
  - apply (proj2 (proj2 (isBusy_spec sb (-1) 0 Hwf))). lia.
Defined.

(** C9 -- one stage per cycle.  In one execution of the loop body, on
    vectors of equal size, no slot moves back and none moves more than one
    stage.  A slot that is in FETCH when the cycle starts enters DECODE and
    is in DECODE when the cycle ends (not in ISSUE or beyond); a slot that
    is IDLE enters FETCH and is in FETCH when the cycle ends, so it reaches
    DECODE in the next cycle at the earliest.  This is so because the
    passes run in the order WRITEBACK, EXECUTE, ISSUE, DECODE, FETCH. *)
Theorem one_stage_per_cycle_in_loop (instrs : list Instruction) (s : Sim)
    (Hlen : length (states s) = length instrs) :
  Forall2 (λ st st',
      stage_index (current_stage st) ≤ stage_index (current_stage st')
        ≤ stage_index (current_stage st) + 1
      ∧ (current_stage st = FETCH → current_stage st' = DECODE)
      ∧ (current_stage st = IDLE → current_stage st' = FETCH))
    (states s) (states (cycle_body instrs s)).
Proof.
  unfold cycle_body. cbn [states].
  set (c := cycle s + 1).
  set (wb := for_each (writeback_slot c) instrs (states s) _).
  set (ex := sweep execute_slot instrs wb.1).
  set (iss := for_each (issue_slot c) instrs ex _).
  set (dec := for_each (decode_slot _ _ c) instrs iss.1 _).
  set (fe := sweep fetch_slot instrs dec.1).
  set (acc := sweep account_slot instrs fe).
  assert (Hwb : Forall2 (moves WRITEBACK COMPLETE) (states s) wb.1).
  { apply for_each_Forall2; [apply moves_refl | apply writeback_slot_moves]. }
  assert (Hex : Forall2 (moves EXECUTE WRITEBACK) wb.1 ex).
  { apply sweep_Forall2; [apply moves_refl | apply execute_slot_moves]. }
  assert (His : Forall2 (moves ISSUE EXECUTE) ex iss.1).
  { apply for_each_Forall2; [apply moves_refl | apply issue_slot_moves]. }
  assert (Hde : Forall2 (moves DECODE ISSUE) iss.1 dec.1).
  { apply for_each_Forall2; [apply moves_refl | apply decode_slot_moves]. }
  assert (Hfe : Forall2 fetch_moves dec.1 fe).
  { apply for_each_Forall2_len; [intros i st a; apply fetch_slot_moves|].
    unfold dec, iss, ex, wb. rewrite !for_each_length, sweep_length, for_each_length.
    symmetry. exact Hlen. }
  assert (Hac : Forall2 same_stage fe acc).
  { apply sweep_Forall2; [reflexivity | apply account_slot_stage]. }
  apply Forall2_same_length_lookup_2.
  - unfold acc, fe, dec, iss, ex, wb.
    rewrite !sweep_length, !for_each_length, sweep_length, for_each_length.
    reflexivity.
  - intros k s0 s6 H0 H6.
    destruct (Forall2_lookup_l _ _ _ _ _ Hwb H0) as (s1 & L1 & R1).
    destruct (Forall2_lookup_l _ _ _ _ _ Hex L1) as (s2 & L2 & R2).
    destruct (Forall2_lookup_l _ _ _ _ _ His L2) as (s3 & L3 & R3).
    destruct (Forall2_lookup_l _ _ _ _ _ Hde L3) as (s4 & L4 & R4).
    destruct (Forall2_lookup_l _ _ _ _ _ Hfe L4) as (s5 & L5 & R5).
    destruct (Forall2_lookup_l _ _ _ _ _ Hac L5) as (s6' & L6 & R6).
    rewrite H6 in L6. injection L6 as <-.
    exact (passes_one_stage s0 s1 s2 s3 s4 s5 s6 R1 R2 R3 R4 R5 R6).
Qed.

Lemma one_stage_per_cycle_in_loop_witness :
  let instrs := [mkInstruction 1 ADD 2 3 1 false 0 "ADD R1 R2 R3";
                 mkInstruction 2 SUB 5 6 4 false 0 "SUB R4 R5 R6"] in
  Forall2 (λ st st',
      stage_index (current_stage st) ≤ stage_index (current_stage st')
        ≤ stage_index (current_stage st) + 1
      ∧ (current_stage st = FETCH → current_stage st' = DECODE)
      ∧ (current_stage st = IDLE → current_stage st' = FETCH))
    (states (initial instrs)) (states (cycle_body instrs (initial instrs))).
Proof.
  intros instrs. apply (one_stage_per_cycle_in_loop instrs (initial instrs)).
  reflexivity.
Defined.



(** C2 -- unit capacity: the loop of [pipeline.cpp] breaks it.  That loop
    calls [exec_units.reset()] at the top of every cycle, so units held by
    slots that still execute are handed out again.  On three DIV
    instructions (its loader reads a line as [loadInstructionsFromString]
    does) the two ALUs are taken in cycle 4 (none is free after it);
    in cycle 5 the pool is full again and the third DIV is issued while the
    first two still execute: three slots hold an ALU, one more than the
    capacity, and one ALU is reported free beside them.  The loop of
    [pipeline_fixed.cpp] has no reset: there the third DIV waits until
    cycle 13. *)
Theorem legacy_reset_breaks_capacity :
  let s4 := Legacy.state_after three_divs 4 in
  let s5 := Legacy.state_after three_divs 5 in
  loadInstructionsFromString ["DIV R1 R2 R3"; "DIV R4 R5 R6"; "DIV R7 R8 R9"]
    = Some three_divs
  ∧ map (λ st, (current_stage st, assigned_unit st)) (states s5)
    = [(EXECUTE, ALU_UNIT); (EXECUTE, ALU_UNIT); (EXECUTE, ALU_UNIT)]
  ∧ occupancy ALU_UNIT (states s5) = 3
  ∧ map_at (capacity (exec_units s5)) ALU_UNIT = 2
  ∧ ¬ occupancy ALU_UNIT (states s5) ≤ map_at (capacity (exec_units s5)) ALU_UNIT
  ∧ map issue_cycle (states s5) = [4; 4; 5]
  ∧ map_at (available (exec_units s4)) ALU_UNIT = 0
  ∧ map_at (available (reset (exec_units s4))) ALU_UNIT = 2
  ∧ map_at (available (exec_units s5)) ALU_UNIT = 1
  ∧ occupancy ALU_UNIT (states (state_after three_divs 5)) = 2
  ∧ map issue_cycle (states (simulate three_divs)) = [4; 4; 13].
Proof.
  vm_compute. repeat split; try reflexivity. intros H. apply H. reflexivity.
Qed.

(** * Further results *)

(** ** Slot by slot through a cycle *)

(** The slot at index [k] after a loop is the body's result on the slot at
    index [k] before, for the objects the loop held at that point. *)
Lemma for_each_lookup {A : Type}
    (body : Instruction → PipelineState → A → PipelineState * A) instrs :
  ∀ sts a k i st,
    instrs !! k = Some i → sts !! k = Some st →
    ∃ a', (for_each body instrs sts a).1 !! k = Some (body i st a').1.
Proof.
  induction instrs as [|i0 instrs IH]; intros [|st0 sts] a k i st Hi Hs;
    try discriminate.
  destruct k as [|k]; simpl in *.
  - injection Hi as <-. injection Hs as <-. exists a. reflexivity.
  - apply IH; assumption.
Qed.

Lemma sweep_lookup body instrs sts k i st :
  instrs !! k = Some i → sts !! k = Some st →
  sweep body instrs sts !! k = Some (body i st).
Proof.
  intros Hi Hs. unfold sweep.
  destruct (for_each_lookup (λ i st (_ : unit), (body i st, tt))
              instrs sts tt k i st Hi Hs) as [a' H].
  exact H.
Qed.

Lemma cycle_body_slot instrs s k i st :
  instrs !! k = Some i → states s !! k = Some st →
  ∃ a_wb a_is stats',
    states (cycle_body instrs s) !! k =
    Some (step_slot (cycle s + 1) i st a_wb a_is
            (scoreboard (cycle_body instrs s)) (exec_units (cycle_body instrs s))
            stats').
Proof.
  intros Hi Hs. unfold cycle_body. cbn [states scoreboard exec_units].
  set (c := cycle s + 1).
  set (wb := for_each (writeback_slot c) instrs (states s) _).
  set (ex := sweep execute_slot instrs wb.1).
  set (iss := for_each (issue_slot c) instrs ex _).
  set (dec := for_each (decode_slot _ _ c) instrs iss.1 _).
  destruct (for_each_lookup (writeback_slot c) instrs (states s)
              (scoreboard s, exec_units s, completed s) k i st Hi Hs)
    as [a_wb H1].
  fold wb in H1.
  pose proof (sweep_lookup execute_slot instrs wb.1 k i _ Hi H1) as H2.
  fold ex in H2.
  destruct (for_each_lookup (issue_slot c) instrs ex (wb.2.1.2, wb.2.1.1)
              k i _ Hi H2) as [a_is H3].
  fold iss in H3.
  destruct (for_each_lookup (decode_slot iss.2.2 iss.2.1 c) instrs iss.1 (stats s)
              k i _ Hi H3) as [stats' H4].
  fold dec in H4.
  pose proof (sweep_lookup fetch_slot instrs dec.1 k i _ Hi H4) as H5.
  pose proof (sweep_lookup account_slot instrs _ k i _ Hi H5) as H6.
  exists a_wb, a_is, stats'. exact H6.
Qed.

Lemma getLatency_pos op : 1 ≤ getLatency op ≤ 12.
Proof. destruct op; simpl; lia. Qed.

Lemma fetch_slot_FETCH i st :
  current_stage st = FETCH →
  fetch_slot i st = set_cycles_in_stage (set_stage st DECODE) 0.
Proof.
  intros H. unfold fetch_slot. rewrite bool_decide_eq_true_2 by exact H.
  reflexivity.
Qed.

Lemma fetch_slot_IDLE i st :
  current_stage st = IDLE → fetch_slot i st = set_stage st FETCH.
Proof.
  intros H. unfold fetch_slot.
  rewrite bool_decide_eq_false_2 by (rewrite H; discriminate).
  rewrite bool_decide_eq_true_2 by exact H. reflexivity.
Qed.

Lemma fetch_slot_skip i st :
  current_stage st ≠ FETCH → current_stage st ≠ IDLE → fetch_slot i st = st.
Proof.
  intros H1 H2. unfold fetch_slot.
  rewrite (bool_decide_eq_false_2 _ H1), (bool_decide_eq_false_2 _ H2).
  reflexivity.
Qed.

Lemma account_slot_active i st :
  current_stage st ≠ IDLE → current_stage st ≠ COMPLETE →
  account_slot i st =
  mkPipelineState (current_stage st) (assigned_unit st) (cycles_in_stage st)
    (total_cycles st + 1) (stalled st) (stall_reason st) (issue_cycle st)
    (complete_cycle st).
Proof.
  intros H1 H2. unfold account_slot.
  rewrite (bool_decide_eq_false_2 _ H1), (bool_decide_eq_false_2 _ H2).
  reflexivity.
Qed.

Lemma account_slot_COMPLETE i st :
  current_stage st = COMPLETE → account_slot i st = st.
Proof.
  intros H. unfold account_slot.
  rewrite (bool_decide_eq_true_2 (current_stage st = COMPLETE)) by exact H.
  rewrite andb_false_r. reflexivity.
Qed.

Lemma writeback_slot_skip c i st a :
  current_stage st ≠ WRITEBACK → writeback_slot c i st a = (st, a).
Proof.
  intros H. destruct a as [[sb eu] cmp]. unfold writeback_slot.
  rewrite bool_decide_eq_false_2 by exact H. reflexivity.
Qed.

Lemma execute_slot_skip i st :
  current_stage st ≠ EXECUTE → execute_slot i st = st.
Proof.
  intros H. unfold execute_slot. rewrite bool_decide_eq_false_2 by exact H.
  reflexivity.
Qed.

Lemma issue_slot_skip c i st a :
  current_stage st ≠ ISSUE → issue_slot c i st a = (st, a).
Proof.
  intros H. destruct a as [eu sb]. unfold issue_slot.
  rewrite bool_decide_eq_false_2 by exact H. reflexivity.
Qed.

Lemma decode_slot_skip sb eu c i st stats :
  current_stage st ≠ DECODE → decode_slot sb eu c i st stats = (st, stats).
Proof.
  intros H. unfold decode_slot. rewrite bool_decide_eq_false_2 by exact H.
  reflexivity.
Qed.

Lemma raw_reason_nonempty sb r : raw_reason sb r ≠ "".
Proof. unfold raw_reason. cbn [append]. discriminate. Qed.

Lemma structural_reason_nonempty u : structural_reason u ≠ "".
Proof. unfold structural_reason. cbn [append]. discriminate. Qed.

Lemma detectHazards_result i st sb eu c stats :
  ∃ reason,
    reason ≠ ""
    ∧ (detectHazards i st sb eu c stats).1.2 =
      if (detectHazards i st sb eu c stats).1.1
      then set_stall st false "" else set_stall st true reason.
Proof.
  unfold detectHazards.
  destruct (isBusy sb (src1 i) c); [|destruct (isBusy sb (src2 i) c)]; simpl;
    try destruct (isAvailable eu (getExecUnit (opcode i))); simpl;
    try (exists "-"; split; [discriminate | reflexivity]);
    eexists; (split; [|reflexivity]);
    first [apply raw_reason_nonempty | apply structural_reason_nonempty].
Qed.

(** *** The cycle of one slot, stage by stage *)

Section step_slot_cases.
Variables (c : Z) (i : Instruction) (st : PipelineState).
Variables (a_wb : RegisterScoreboard * ExecutionUnits * Z).
Variables (a_is : ExecutionUnits * RegisterScoreboard).
Variables (sb : RegisterScoreboard) (eu : ExecutionUnits) (stats : Statistics).

Lemma step_slot_IDLE :
  current_stage st = IDLE →
  step_slot c i st a_wb a_is sb eu stats =
  mkPipelineState FETCH (assigned_unit st) (cycles_in_stage st)
    (total_cycles st + 1) (stalled st) (stall_reason st) (issue_cycle st)
    (complete_cycle st).
Proof.
  intros H. unfold step_slot.
  rewrite writeback_slot_skip by (rewrite H; discriminate). cbn [fst].
  rewrite execute_slot_skip by (rewrite H; discriminate).
  rewrite issue_slot_skip by (rewrite H; discriminate). cbn [fst].
  rewrite decode_slot_skip by (rewrite H; discriminate). cbn [fst].
  rewrite fetch_slot_IDLE by exact H.
  rewrite account_slot_active by (cbn; discriminate). reflexivity.
Qed.

Lemma step_slot_FETCH :
  current_stage st = FETCH →
  step_slot c i st a_wb a_is sb eu stats =
  mkPipelineState DECODE (assigned_unit st) 0
    (total_cycles st + 1) (stalled st) (stall_reason st) (issue_cycle st)
    (complete_cycle st).
Proof.
  intros H. unfold step_slot.
  rewrite writeback_slot_skip by (rewrite H; discriminate). cbn [fst].
  rewrite execute_slot_skip by (rewrite H; discriminate).
  rewrite issue_slot_skip by (rewrite H; discriminate). cbn [fst].
  rewrite decode_slot_skip by (rewrite H; discriminate). cbn [fst].
  rewrite fetch_slot_FETCH by exact H.
  rewrite account_slot_active by (cbn; discriminate). reflexivity.
Qed.

Lemma step_slot_DECODE_reason :
  current_stage st = DECODE →
  ∃ reason,
    reason ≠ "" ∧
    step_slot c i st a_wb a_is sb eu stats =
    if (detectHazards i st sb eu c stats).1.1
    then mkPipelineState ISSUE (assigned_unit st) (cycles_in_stage st)
           (total_cycles st + 1) false "" (issue_cycle st) (complete_cycle st)
    else mkPipelineState DECODE (assigned_unit st) (cycles_in_stage st)
           (total_cycles st + 1) true reason (issue_cycle st) (complete_cycle st).
Proof.
  intros H. unfold step_slot.
  rewrite writeback_slot_skip by (rewrite H; discriminate). cbn [fst].
  rewrite execute_slot_skip by (rewrite H; discriminate).
  rewrite issue_slot_skip by (rewrite H; discriminate). cbn [fst].
  unfold decode_slot. rewrite bool_decide_eq_true_2 by exact H.
  destruct (detectHazards_result i st sb eu c stats) as (reason & Hne & Hd).
  exists reason. split; [exact Hne|]. revert Hd.
  destruct (detectHazards i st sb eu c stats).1.1; intros Hd; cbn [fst snd];
    rewrite Hd;
    (rewrite fetch_slot_skip by (cbn; rewrite ?H; discriminate));
    (rewrite account_slot_active by (cbn; rewrite ?H; discriminate));
    cbn; rewrite ?H; reflexivity.
Qed.

Lemma step_slot_DECODE :
  current_stage st = DECODE →
  ∃ reason,
    step_slot c i st a_wb a_is sb eu stats =
    if (detectHazards i st sb eu c stats).1.1
    then mkPipelineState ISSUE (assigned_unit st) (cycles_in_stage st)
           (total_cycles st + 1) false "" (issue_cycle st) (complete_cycle st)
    else mkPipelineState DECODE (assigned_unit st) (cycles_in_stage st)
           (total_cycles st + 1) true reason (issue_cycle st) (complete_cycle st).
Proof.
  intros H. destruct (step_slot_DECODE_reason H) as (reason & _ & E).
  exists reason. exact E.
Qed.

Lemma step_slot_ISSUE :
  current_stage st = ISSUE →
  step_slot c i st a_wb a_is sb eu stats =
  if (allocate a_is.1 (getExecUnit (opcode i))).1
  then mkPipelineState EXECUTE (getExecUnit (opcode i)) 0 (total_cycles st + 1)
         (stalled st) (stall_reason st) c (complete_cycle st)
  else mkPipelineState ISSUE (assigned_unit st) (cycles_in_stage st)
         (total_cycles st + 1) (stalled st) (stall_reason st) (issue_cycle st)
         (complete_cycle st).
Proof.
  intros H. unfold step_slot. destruct a_is as [eu1 sb1].
  rewrite writeback_slot_skip by (rewrite H; discriminate). cbn [fst].
  rewrite execute_slot_skip by (rewrite H; discriminate).
  unfold issue_slot. rewrite bool_decide_eq_true_2 by exact H.
  destruct (allocate eu1 (getExecUnit (opcode i))).1; cbn [fst snd].
  - rewrite decode_slot_skip by (cbn; discriminate). cbn [fst].
    rewrite fetch_slot_skip by (cbn; discriminate).
    rewrite account_slot_active by (cbn; discriminate). reflexivity.
  - rewrite decode_slot_skip by (rewrite H; discriminate). cbn [fst].
    rewrite fetch_slot_skip by (rewrite H; discriminate).
    rewrite account_slot_active by (rewrite H; discriminate).
    rewrite H. reflexivity.
Qed.

Lemma step_slot_EXECUTE :
  current_stage st = EXECUTE →
  step_slot c i st a_wb a_is sb eu stats =
  if cycles_in_stage st + 1 >=? getLatency (opcode i)
  then mkPipelineState WRITEBACK (assigned_unit st) 0 (total_cycles st + 1)
         (stalled st) (stall_reason st) (issue_cycle st) (complete_cycle st)
  else mkPipelineState EXECUTE (assigned_unit st) (cycles_in_stage st + 1)
         (total_cycles st + 1) (stalled st) (stall_reason st) (issue_cycle st)
         (complete_cycle st).
Proof.
  intros H. unfold step_slot.
  rewrite writeback_slot_skip by (rewrite H; discriminate). cbn [fst].
  unfold execute_slot. rewrite bool_decide_eq_true_2 by exact H.
  cbn [set_cycles_in_stage cycles_in_stage].
  destruct (cycles_in_stage st + 1 >=? getLatency (opcode i)).
  - rewrite issue_slot_skip by (cbn; discriminate). cbn [fst].
    rewrite decode_slot_skip by (cbn; discriminate). cbn [fst].
    rewrite fetch_slot_skip by (cbn; discriminate).
    rewrite account_slot_active by (cbn; discriminate). reflexivity.
  - rewrite issue_slot_skip by (cbn; rewrite H; discriminate). cbn [fst].
    rewrite decode_slot_skip by (cbn; rewrite H; discriminate). cbn [fst].
    rewrite fetch_slot_skip by (cbn; rewrite H; discriminate).
    rewrite account_slot_active by (cbn; rewrite H; discriminate).
    cbn. rewrite H. reflexivity.
Qed.

Lemma step_slot_WRITEBACK :
  current_stage st = WRITEBACK →
  step_slot c i st a_wb a_is sb eu stats =
  mkPipelineState COMPLETE (assigned_unit st) (cycles_in_stage st)
    (total_cycles st) (stalled st) (stall_reason st) (issue_cycle st) c.
Proof.
  intros H. unfold step_slot. destruct a_wb as [[sb0 eu0] cmp].
  unfold writeback_slot. rewrite bool_decide_eq_true_2 by exact H. cbn [fst].
  rewrite execute_slot_skip by (cbn; discriminate).
  rewrite issue_slot_skip by (cbn; discriminate). cbn [fst].
  rewrite decode_slot_skip by (cbn; discriminate). cbn [fst].
  rewrite fetch_slot_skip by (cbn; discriminate).
  rewrite account_slot_COMPLETE by reflexivity. reflexivity.
Qed.

Lemma step_slot_COMPLETE :
  current_stage st = COMPLETE →
  step_slot c i st a_wb a_is sb eu stats = st.
Proof.
  intros H. unfold step_slot.
  rewrite writeback_slot_skip by (rewrite H; discriminate). cbn [fst].
  rewrite execute_slot_skip by (rewrite H; discriminate).
  rewrite issue_slot_skip by (rewrite H; discriminate). cbn [fst].
  rewrite decode_slot_skip by (rewrite H; discriminate). cbn [fst].
  rewrite fetch_slot_skip by (rewrite H; discriminate).
  rewrite account_slot_COMPLETE by exact H. reflexivity.
Qed.

End step_slot_cases.

Lemma step_slot_timing c i st a_wb a_is sb eu stats :
  slot_timing c i st →
  slot_timing (c + 1) i (step_slot (c + 1) i st a_wb a_is sb eu stats).
Proof.
  pose proof (getLatency_pos (opcode i)) as Hlat.
  unfold slot_timing at 1.
  destruct (current_stage st) eqn:Hst; intros H.
  - rewrite step_slot_IDLE by exact Hst. unfold slot_timing. cbn.
    intuition (try lia; congruence).
  - rewrite step_slot_FETCH by exact Hst. unfold slot_timing. cbn.
    intuition (try lia; congruence).
  - destruct (step_slot_DECODE (c + 1) i st a_wb a_is sb eu stats Hst)
      as [reason ->].
    destruct (detectHazards i st sb eu (c + 1) stats).1.1;
      unfold slot_timing; cbn; intuition (try lia; congruence).
  - rewrite step_slot_ISSUE by exact Hst.
    destruct (allocate a_is.1 (getExecUnit (opcode i))).1;
      unfold slot_timing; cbn; intuition (try lia; congruence).
  - rewrite step_slot_EXECUTE by exact Hst.
    destruct (cycles_in_stage st + 1 >=? getLatency (opcode i)) eqn:Hge;
      unfold slot_timing; cbn; intuition (try lia; congruence).
  - rewrite step_slot_WRITEBACK by exact Hst. unfold slot_timing. cbn.
    intuition (try lia; congruence).
  - rewrite step_slot_COMPLETE by exact Hst. unfold slot_timing. rewrite Hst.
    intuition (try lia; congruence).
Qed.

(** ** Timing of every slot *)

Lemma cycle_body_timing instrs s :
  Forall2 (slot_timing (cycle s)) instrs (states s) →
  Forall2 (slot_timing (cycle s + 1)) instrs (states (cycle_body instrs s)).
Proof.
  intros H. apply Forall2_same_length_lookup_2.
  - rewrite cycle_body_length. eapply Forall2_length, H.
  - intros k i st' Hi Hs'.
    destruct (Forall2_lookup_l _ _ _ _ _ H Hi) as (st & Hs & Ht).
    destruct (cycle_body_slot instrs s k i st Hi Hs) as (a_wb & a_is & stats' & Hk).
    rewrite Hk in Hs'. injection Hs' as <-.
    apply step_slot_timing. exact Ht.
Qed.

Lemma initial_timing instrs :
  Forall2 (slot_timing 0) instrs (states (initial instrs)).
Proof.
  simpl. induction instrs as [|i instrs IH]; simpl; constructor; [|exact IH].
  unfold slot_timing. simpl. auto.
Qed.

Lemma state_after_timing instrs k :
  Forall2 (slot_timing (cycle (state_after instrs k))) instrs
    (states (state_after instrs k)).
Proof.
  apply (state_after_inv (λ s, Forall2 (slot_timing (cycle s)) instrs (states s))).
  - apply initial_timing.
  - intros s Hs _. rewrite cycle_body_cycle. apply cycle_body_timing. exact Hs.
Qed.

(** X1 -- latency and lifetime of a slot.  In every state the loop reaches,
    a slot that has been issued was issued in cycle 4 or later to the unit
    of its opcode; a slot in EXECUTE has been there for fewer cycles than
    its latency; a slot in COMPLETE completed exactly [latency + 1] cycles
    after its issue, and its lifetime counter is one less than its
    completion cycle.  A slot that has not been issued has no unit and
    [issue_cycle == -1]. *)
Theorem slot_latency_and_lifetime (instrs : list Instruction) (k n : nat)
    (i : Instruction) (st : PipelineState)
    (Hi : instrs !! n = Some i)
    (Hs : states (state_after instrs k) !! n = Some st) :
  let c := cycle (state_after instrs k) in
  (current_stage st = COMPLETE →
     complete_cycle st = issue_cycle st + getLatency (opcode i) + 1
     ∧ 4 ≤ issue_cycle st ∧ 6 ≤ complete_cycle st ≤ c
     ∧ total_cycles st = complete_cycle st - 1)
  ∧ (current_stage st = WRITEBACK →
     c = issue_cycle st + getLatency (opcode i) ∧ 4 ≤ issue_cycle st)
  ∧ (current_stage st = EXECUTE →
     c = issue_cycle st + cycles_in_stage st ∧ 4 ≤ issue_cycle st
     ∧ 0 ≤ cycles_in_stage st < getLatency (opcode i))
  ∧ (4 ≤ stage_index (current_stage st) →
     assigned_unit st = getExecUnit (opcode i))
  ∧ (stage_index (current_stage st) < 4 →
     assigned_unit st = ANY_UNIT ∧ issue_cycle st = -1)
  ∧ (current_stage st ≠ IDLE → current_stage st ≠ COMPLETE → total_cycles st = c)
  ∧ (current_stage st = IDLE → c = 0)
  ∧ (current_stage st = FETCH → c = 1).
Proof.
  intros c.
  pose proof (state_after_timing instrs k) as H.
  destruct (Forall2_lookup_l _ _ _ _ _ H Hi) as (st' & Hs' & Ht).
  rewrite Hs in Hs'. injection Hs' as <-.
  pose proof (getLatency_pos (opcode i)) as Hlat.
  unfold slot_timing in Ht. fold c in Ht.
  destruct (current_stage st) eqn:Hst; simpl;
    repeat split; intros; try discriminate; try congruence; try lia; tauto.
Qed.

Lemma slot_latency_and_lifetime_witness :
  let instrs := [mkInstruction 1 DIV 2 3 1 false 0 "DIV R1 R2 R3"] in
  let st := mkPipelineState COMPLETE ALU_UNIT 0 12 false "" 4 13 in
  complete_cycle st = issue_cycle st + 8 + 1.
Proof.
  intros instrs st.
  assert (Hs : states (state_after instrs 13) !! 0%nat = Some st)
    by (vm_compute; reflexivity).
  apply (proj1 (slot_latency_and_lifetime instrs 13 0 _ st eq_refl Hs)).
  reflexivity.
Defined.

(** ** Instructions without a unit *)

Lemma getExecUnit_ANY op : getExecUnit op = ANY_UNIT ↔ op = NOP.
Proof. destruct op; simpl; split; congruence. Qed.

Lemma detectHazards_no_unit i st sb eu c stats :
  available eu !! getExecUnit (opcode i) = None →
  (detectHazards i st sb eu c stats).1.1 = false.
Proof.
  intros Hav. unfold detectHazards, isAvailable. rewrite Hav.
  destruct (isBusy sb (src1 i) c); [|destruct (isBusy sb (src2 i) c)]; reflexivity.
Qed.

Lemma step_slot_no_unit c i st a_wb a_is sb eu stats :
  available eu !! getExecUnit (opcode i) = None →
  stage_index (current_stage st) ≤ 2 →
  stage_index (current_stage (step_slot c i st a_wb a_is sb eu stats)) ≤ 2.
Proof.
  intros Hav Hst.
  destruct (current_stage st) eqn:E; simpl in Hst; try lia.
  - rewrite step_slot_IDLE by exact E. simpl. lia.
  - rewrite step_slot_FETCH by exact E. simpl. lia.
  - destruct (step_slot_DECODE c i st a_wb a_is sb eu stats E) as [reason ->].
    rewrite (detectHazards_no_unit i st sb eu c stats Hav). simpl. lia.
Qed.

Lemma cycle_body_no_unit_waits instrs s :
  no_unit_waits instrs s → no_unit_waits instrs (cycle_body instrs s).
Proof.
  intros [Hu Hf]. split; [apply cycle_body_units; exact Hu|].
  pose proof (cycle_body_units instrs s Hu) as [_ Hu'].
  apply Forall2_same_length_lookup_2.
  - rewrite cycle_body_length. eapply Forall2_length, Hf.
  - intros k i st' Hi Hs' Hany.
    destruct (Forall2_lookup_l _ _ _ _ _ Hf Hi) as (st & Hs & Ht).
    destruct (cycle_body_slot instrs s k i st Hi Hs) as (a_wb & a_is & stats' & Hk).
    rewrite Hk in Hs'. injection Hs' as <-.
    apply step_slot_no_unit; [|apply Ht; exact Hany].
    rewrite Hany. apply (Hu' ANY_UNIT). reflexivity.
Qed.

Lemma state_after_no_unit_waits instrs k :
  no_unit_waits instrs (state_after instrs k).
Proof.
  apply (state_after_inv (no_unit_waits instrs)).
  - split; [apply initial_units|].
    simpl. induction instrs as [|i instrs IH]; simpl; constructor; [|exact IH].
    intros _. simpl. lia.
  - intros s Hs _. apply cycle_body_no_unit_waits. exact Hs.
Qed.

Lemma count_complete_lt sts n st :
  sts !! n = Some st → current_stage st ≠ COMPLETE →
  count_complete sts < Z.of_nat (length sts).
Proof.
  revert n. induction sts as [|st0 sts IH]; intros [|n] Hl Hst; try discriminate;
    simpl in *.
  - injection Hl as ->. pose proof (count_complete_bounds sts).
    unfold cc1. rewrite bool_decide_eq_false_2 by exact Hst. lia.
  - pose proof (IH n Hl Hst). unfold cc1. case_bool_decide; lia.
Qed.

(** X2 -- an instruction with the opcode NOP.  In every program and every
    cycle its slot is in IDLE, FETCH or DECODE and has [complete_cycle ==
    -1]: the hazard detector refuses it in every decode pass, because no
    unit of kind ANY exists.  A program that contains such an instruction
    therefore never completes: the loop is left at cycle 500 with fewer
    completed instructions than the program has. *)
Theorem nop_never_issues (instrs : list Instruction) (n : nat) (i : Instruction)
    (Hi : instrs !! n = Some i) (Hop : opcode i = NOP) :
  (∀ k st, states (state_after instrs k) !! n = Some st →
     (current_stage st = IDLE ∨ current_stage st = FETCH ∨ current_stage st = DECODE)
     ∧ complete_cycle st = -1 ∧ issue_cycle st = -1)
  ∧ cycle (simulate instrs) = MAX_CYCLES
  ∧ completed (simulate instrs) < Z.of_nat (length instrs).
Proof.
  assert (Hany : getExecUnit (opcode i) = ANY_UNIT) by (rewrite Hop; reflexivity).
  assert (Hstage : ∀ k st, states (state_after instrs k) !! n = Some st →
            stage_index (current_stage st) ≤ 2).
  { intros k st Hs. destruct (state_after_no_unit_waits instrs k) as [_ Hf].
    destruct (Forall2_lookup_l _ _ _ _ _ Hf Hi) as (st' & Hs' & Ht).
    rewrite Hs in Hs'. injection Hs' as <-. apply Ht, Hany. }
  split; [|].
  - intros k st Hs. pose proof (Hstage k st Hs) as H2.
    pose proof (state_after_ncy instrs k) as Hn.
    pose proof (state_after_timing instrs k) as Ht.
    destruct (Forall2_lookup_l _ _ _ _ _ Ht Hi) as (st' & Hs' & Hti).
    rewrite Hs in Hs'. injection Hs' as <-.
    apply (proj1 (Forall_lookup _ _) Hn n st) in Hs as Hc.
    unfold not_completed_yet in Hc. unfold slot_timing in Hti.
    destruct (current_stage st) eqn:E; simpl in H2; try lia;
      (split; [tauto|]; split; [apply Hc; discriminate | tauto]).
  - assert (Hlt : completed (simulate instrs) < Z.of_nat (length instrs)).
    { unfold simulate. rewrite state_after_completed.
      rewrite <- (state_after_length instrs (Z.to_nat MAX_CYCLES)).
      destruct (lookup_lt_is_Some_2 (states (state_after instrs (Z.to_nat MAX_CYCLES))) n)
        as [st Hs].
      { rewrite state_after_length. eapply lookup_lt_Some, Hi. }
      apply (count_complete_lt _ n st Hs).
      intros E. pose proof (Hstage _ st Hs) as H2. rewrite E in H2. simpl in H2. lia. }
    split; [|exact Hlt].
    pose proof (simulate_leaves_loop instrs) as Hexit.
    pose proof (state_after_cycle_bounds instrs (Z.to_nat MAX_CYCLES)) as [_ Hb].
    fold (simulate instrs) in Hb.
    unfold loop_cond in Hexit.
    apply andb_false_iff in Hexit as [He|He]; apply Z.ltb_ge in He; lia.
Qed.

Lemma nop_never_issues_witness :
  let instrs := [mkInstruction 1 ADD 2 3 1 false 0 "ADD R1 R2 R3";
                 mkInstruction 2 NOP 2 3 1 false 0 "FOO R1 R2 R3"] in
  cycle (simulate instrs) = MAX_CYCLES.
Proof.
  intros instrs.
  apply (proj1 (proj2 (nop_never_issues instrs 1 _ eq_refl eq_refl))).
Defined.

(** ** Programs without NOP *)

Lemma for_each_skip {A : Type}
    (body : Instruction → PipelineState → A → PipelineState * A)
    (P : PipelineState → Prop) :
  (∀ i st a, P st → body i st a = (st, a)) →
  ∀ instrs sts a, Forall P sts → for_each body instrs sts a = (sts, a).
Proof.
  intros Hskip instrs.
  induction instrs as [|i instrs IH]; intros [|st sts] a Hall; simpl; auto.
  inversion Hall; subst. rewrite Hskip by assumption. cbn [fst snd].
  rewrite IH by assumption. reflexivity.
Qed.

Lemma sweep_skip body (P : PipelineState → Prop) :
  (∀ i st, P st → body i st = st) →
  ∀ instrs sts, Forall P sts → sweep body instrs sts = sts.
Proof.
  intros Hskip instrs sts Hall. unfold sweep.
  rewrite (for_each_skip _ P); [reflexivity| |exact Hall].
  intros i st [] Hp. rewrite Hskip by exact Hp. reflexivity.
Qed.

(** The threaded objects keep a property when the body keeps it on every
    slot that satisfies what is known of the slots. *)
Lemma for_each_state_inv_pre {A : Type}
    (body : Instruction → PipelineState → A → PipelineState * A)
    (Q : Instruction → PipelineState → Prop) (P : A → Prop) :
  (∀ i st a, Q i st → P a → P (body i st a).2) →
  ∀ instrs sts a, Forall2 Q instrs sts → P a → P (for_each body instrs sts a).2.
Proof.
  intros Hbody instrs.
  induction instrs as [|i instrs IH]; intros [|st sts] a HQ Ha; simpl; auto.
  inversion HQ; subst. apply IH; [assumption|]. apply Hbody; assumption.
Qed.

Lemma slot_timing_early c i st :
  slot_timing c i st → c ≤ 2 → stage_index (current_stage st) ≤ 2.
Proof.
  pose proof (getLatency_pos (opcode i)).
  unfold slot_timing. destruct (current_stage st); simpl; lia.
Qed.

(** Up to cycle 3 nothing is written back or issued: the scoreboard and
    the pool stay as they are, and the decode pass sees the slots of the
    previous cycle. *)
Lemma cycle_body_early instrs s :
  cycle s ≤ 2 → Forall2 (slot_timing (cycle s)) instrs (states s) →
  scoreboard (cycle_body instrs s) = scoreboard s
  ∧ exec_units (cycle_body instrs s) = exec_units s
  ∧ completed (cycle_body instrs s) = completed s
  ∧ stats (cycle_body instrs s)
    = (for_each (decode_slot (scoreboard s) (exec_units s) (cycle s + 1))
         instrs (states s) (stats s)).2.
Proof.
  intros Hc Ht.
  assert (Hearly : Forall (λ st, stage_index (current_stage st) ≤ 2) (states s)).
  { apply Forall_lookup. intros k st Hs.
    destruct (Forall2_lookup_r _ _ _ _ _ Ht Hs) as (i & _ & Hi).
    eapply slot_timing_early; eassumption. }
  unfold cycle_body. cbn [scoreboard exec_units completed stats].
  set (c := cycle s + 1).
  rewrite (for_each_skip (writeback_slot c)
             (λ st, stage_index (current_stage st) ≤ 2)); [|  |exact Hearly].
  2:{ intros i st a H. apply writeback_slot_skip. intros E. rewrite E in H.
      simpl in H. lia. }
  cbn [fst snd].
  rewrite (sweep_skip execute_slot (λ st, stage_index (current_stage st) ≤ 2));
    [| |exact Hearly].
  2:{ intros i st H. apply execute_slot_skip. intros E. rewrite E in H.
      simpl in H. lia. }
  rewrite (for_each_skip (issue_slot c)
             (λ st, stage_index (current_stage st) ≤ 2)); [| |exact Hearly].
  2:{ intros i st a H. apply issue_slot_skip. intros E. rewrite E in H.
      simpl in H. lia. }
  cbn [fst snd]. auto.
Qed.

Lemma isBusy_new reg c : isBusy (RegisterScoreboard_new 32) reg c = false.
Proof.
  unfold isBusy. destruct (_ || _); [reflexivity|].
  unfold regs_at, RegisterScoreboard_new. cbn [regs].
  destruct (replicate (Z.to_nat 32) (mkRegInfo false (-1) (-1)) !! Z.to_nat reg)
    as [e|] eqn:He; [|reflexivity].
  apply lookup_replicate in He as [-> _]. reflexivity.
Qed.

Lemma detectHazards_fresh i st c stats :
  opcode i ≠ NOP →
  detectHazards i st (RegisterScoreboard_new 32) ExecutionUnits_new c stats
  = (true, set_stall st false "", stats).
Proof.
  intros Hop. unfold detectHazards. rewrite !isBusy_new.
  assert (Hav : isAvailable ExecutionUnits_new (getExecUnit (opcode i)) = true)
    by (destruct (opcode i); try reflexivity; congruence).
  rewrite Hav. reflexivity.
Qed.

Lemma step_slot_unstalled c i st a_wb a_is sb eu stats :
  opcode i ≠ NOP → slot_timing c i st →
  (current_stage st = DECODE → c = 2) →
  stalled st = false → stall_reason st = "" →
  (c = 2 → sb = RegisterScoreboard_new 32 ∧ eu = ExecutionUnits_new) →
  let st' := step_slot (c + 1) i st a_wb a_is sb eu stats in
  (current_stage st' = DECODE → c + 1 = 2)
  ∧ stalled st' = false ∧ stall_reason st' = "".
Proof.
  intros Hop Ht Hd Hs Hr Hfresh. cbv zeta.
  unfold slot_timing in Ht.
  destruct (current_stage st) eqn:Hst.
  - rewrite step_slot_IDLE by exact Hst. cbn.
    split; [discriminate | split; assumption].
  - rewrite step_slot_FETCH by exact Hst. cbn.
    split; [intros _; lia | split; assumption].
  - destruct (Hfresh (Hd eq_refl)) as [-> ->].
    destruct (step_slot_DECODE (c + 1) i st a_wb a_is
                (RegisterScoreboard_new 32) ExecutionUnits_new stats Hst)
      as [reason ->].
    rewrite (detectHazards_fresh i st (c + 1) stats Hop). cbn.
    split; [discriminate | split; reflexivity].
  - rewrite step_slot_ISSUE by exact Hst.
    destruct (allocate a_is.1 (getExecUnit (opcode i))).1; cbn;
      (split; [discriminate | split; assumption]).
  - rewrite step_slot_EXECUTE by exact Hst.
    destruct (cycles_in_stage st + 1 >=? getLatency (opcode i)); cbn;
      (split; [discriminate | split; assumption]).
  - rewrite step_slot_WRITEBACK by exact Hst. cbn.
    split; [discriminate | split; assumption].
  - rewrite step_slot_COMPLETE by exact Hst. rewrite Hst.
    split; [discriminate | split; assumption].
Qed.

Lemma not_decode_before_decode_pass instrs s :
  Forall (λ st, current_stage st ≠ DECODE) (states s) →
  stats (cycle_body instrs s) = stats s.
Proof.
  intros H. unfold cycle_body. cbn [stats].
  set (c := cycle s + 1).
  set (wb := for_each (writeback_slot c) instrs (states s) _).
  set (ex := sweep execute_slot instrs wb.1).
  set (iss := for_each (issue_slot c) instrs ex _).
  assert (Hiss : Forall (λ st, current_stage st ≠ DECODE) iss.1).
  { apply for_each_Forall.
    { intros i st a Hn. destruct (issue_slot_moves c i st a) as [E|[_ E]];
        rewrite E; [exact Hn | discriminate]. }
    apply sweep_Forall.
    { intros i st Hn. destruct (execute_slot_moves i st) as [E|[_ E]];
        rewrite E; [exact Hn | discriminate]. }
    apply for_each_Forall; [|exact H].
    intros i st a Hn. destruct (writeback_slot_moves c i st a) as [E|[_ E]];
      rewrite E; [exact Hn | discriminate]. }
  rewrite (for_each_skip (decode_slot iss.2.2 iss.2.1 c)
             (λ st, current_stage st ≠ DECODE)); [reflexivity| |exact Hiss].
  intros i st a Hn. apply decode_slot_skip. exact Hn.
Qed.

Lemma cycle_body_unstalled instrs s :
  no_nop instrs → unstalled instrs s → unstalled instrs (cycle_body instrs s).
Proof.
  intros Hnop (Hstats & Hfresh & Ht & Hall).
  assert (Hcases : cycle s ≤ 2 ∨ 3 ≤ cycle s) by lia.
  assert (Hsb : cycle s = 2 →
            scoreboard (cycle_body instrs s) = RegisterScoreboard_new 32
            ∧ exec_units (cycle_body instrs s) = ExecutionUnits_new).
  { intros Hc. destruct (cycle_body_early instrs s) as (E1 & E2 & _); [lia|exact Ht|].
    rewrite E1, E2. apply Hfresh. lia. }
  split; [|split; [|split]].
  - (* no hazard is counted *)
    destruct Hcases as [Hc|Hc].
    + destruct (cycle_body_early instrs s Hc Ht) as (_ & _ & _ & ->).
      destruct (Hfresh Hc) as [-> ->].
      apply (for_each_state_inv_pre _ (λ i st, opcode i ≠ NOP)
               (λ a, a = Statistics_init)); [| |exact Hstats].
      * intros i st a Hop ->. unfold decode_slot.
        case_bool_decide; [|reflexivity].
        rewrite (detectHazards_fresh i st _ _ Hop). reflexivity.
      * apply Forall2_same_length_lookup_2; [eapply Forall2_length, Ht|].
        intros k i st Hi _. apply (proj1 (Forall_lookup _ _) Hnop k i Hi).
    + rewrite not_decode_before_decode_pass; [exact Hstats|].
      eapply Forall_impl; [exact Hall|]. intros st (Hd & _) E.
      specialize (Hd E). lia.
  - (* the scoreboard and the pool up to cycle 2 *)
    rewrite cycle_body_cycle. intros Hc.
    destruct (cycle_body_early instrs s) as (E1 & E2 & _); [lia|exact Ht|].
    rewrite E1, E2. apply Hfresh. lia.
  - rewrite cycle_body_cycle. apply cycle_body_timing. exact Ht.
  - rewrite cycle_body_cycle. apply Forall_lookup. intros k st' Hs'.
    assert (Hk : (k < length instrs)%nat).
    { apply lookup_lt_Some in Hs'. rewrite cycle_body_length in Hs'.
      rewrite (Forall2_length _ _ _ Ht). exact Hs'. }
    destruct (lookup_lt_is_Some_2 instrs k Hk) as [i Hi].
    destruct (Forall2_lookup_l _ _ _ _ _ Ht Hi) as (st & Hs & Hti).
    destruct (cycle_body_slot instrs s k i st Hi Hs) as (a_wb & a_is & stats' & Hk').
    rewrite Hk' in Hs'. injection Hs' as <-.
    destruct (proj1 (Forall_lookup _ _) Hall k st Hs) as (Hd & Hst & Hr).
    apply step_slot_unstalled; auto.
    apply (proj1 (Forall_lookup _ _) Hnop k i Hi).
Qed.

Lemma state_after_unstalled instrs k :
  no_nop instrs → unstalled instrs (state_after instrs k).
Proof.
  intros Hnop. apply (state_after_inv (unstalled instrs)).
  - split; [reflexivity|]. split; [intros _; split; reflexivity|].
    split; [apply initial_timing|].
    simpl. apply Forall_replicate. repeat split; discriminate.
  - intros s Hs _. apply cycle_body_unstalled; assumption.
Qed.

(** X3 -- programs without NOP never stall.  When no instruction has the
    opcode NOP, the hazard detector never reports anything, whatever the
    registers of the program are: in every cycle the three hazard counters
    and [total_stalls] are 0 and no slot is stalled.  Every slot has left
    DECODE for ISSUE by the end of cycle 3, so from then on the issue pass
    alone decides when an instruction starts. *)
Theorem no_nop_never_stalls (instrs : list Instruction) (k : nat)
    (Hnop : Forall (λ i, opcode i ≠ NOP) instrs) :
  let s := state_after instrs k in
  stats s = Statistics_init
  ∧ total_stalls (final_statistics s) = 0
  ∧ raw_hazards (final_statistics s) = 0
  ∧ structural_hazards (final_statistics s) = 0
  ∧ Forall (λ st, stalled st = false ∧ stall_reason st = "") (states s)
  ∧ (3 ≤ cycle s → Forall (λ st, 3 ≤ stage_index (current_stage st)) (states s)).
Proof.
  intros s.
  destruct (state_after_unstalled instrs k Hnop) as (Hstats & _ & Ht & Hall).
  fold s in Hstats, Ht, Hall.
  split; [exact Hstats|].
  unfold final_statistics. rewrite Hstats. cbn.
  split; [reflexivity|]. split; [reflexivity|]. split; [reflexivity|].
  split.
  - eapply Forall_impl; [exact Hall|]. intros st (_ & H1 & H2). auto.
  - intros Hc. apply Forall_lookup. intros n st Hs.
    destruct (Forall2_lookup_r _ _ _ _ _ Ht Hs) as (i & _ & Hti).
    destruct (proj1 (Forall_lookup _ _) Hall n st Hs) as (Hd & _).
    unfold slot_timing in Hti.
    destruct (current_stage st) eqn:E; simpl; try lia.
    specialize (Hd eq_refl). lia.
Qed.

Lemma no_nop_never_stalls_witness :
  let instrs := [mkInstruction 1 DIV 2 3 1 false 0 "DIV R1 R2 R3";
                 mkInstruction 2 ADD 1 5 4 false 0 "ADD R4 R1 R5"] in
  raw_hazards (final_statistics (state_after instrs 7)) = 0.
Proof.
  intros instrs.
  assert (Hnop : Forall (λ i, opcode i ≠ NOP) instrs)
    by (repeat constructor; discriminate).
  apply (no_nop_never_stalls instrs 7 Hnop).
Defined.

(** ** Depth of the pipeline *)

Lemma count_complete_all sts :
  count_complete sts = Z.of_nat (length sts) →
  Forall (λ st, current_stage st = COMPLETE) sts.
Proof.
  intros H. apply Forall_lookup. intros n st Hs.
  destruct (decide (current_stage st = COMPLETE)) as [E|E]; [exact E|].
  pose proof (count_complete_lt sts n st Hs E). lia.
Qed.

(** X4 -- depth.  A program that is not empty takes at least 6 cycles (one
    each in FETCH, DECODE, ISSUE, at least one in EXECUTE, one in
    WRITEBACK, and the cycle that records completion) and at most 500.
    When the loop is left before cycle 500, every slot is in COMPLETE. *)
Theorem at_least_six_cycles (instrs : list Instruction) (Hne : instrs ≠ []) :
  6 ≤ cycle (simulate instrs) ≤ MAX_CYCLES
  ∧ stat_total_cycles (final_statistics (simulate instrs)) = cycle (simulate instrs)
  ∧ (cycle (simulate instrs) < MAX_CYCLES →
     Forall (λ st, current_stage st = COMPLETE) (states (simulate instrs))
     ∧ completed (simulate instrs) = Z.of_nat (length instrs)).
Proof.
  pose proof (simulate_leaves_loop instrs) as Hexit.
  pose proof (state_after_cycle_bounds instrs (Z.to_nat MAX_CYCLES)) as [_ Hb].
  pose proof (state_after_completed_le instrs (Z.to_nat MAX_CYCLES)) as Hc.
  pose proof (state_after_completed instrs (Z.to_nat MAX_CYCLES)) as Hcc.
  pose proof (state_after_length instrs (Z.to_nat MAX_CYCLES)) as Hlen.
  pose proof (state_after_timing instrs (Z.to_nat MAX_CYCLES)) as Ht.
  fold (simulate instrs) in Hb, Hc, Hcc, Hlen, Ht.
  assert (Hall : completed (simulate instrs) = Z.of_nat (length instrs) →
            Forall (λ st, current_stage st = COMPLETE) (states (simulate instrs))).
  { intros E. apply count_complete_all. rewrite Hlen. congruence. }
  assert (Hdone : cycle (simulate instrs) < MAX_CYCLES →
            completed (simulate instrs) = Z.of_nat (length instrs)).
  { intros Hlt. unfold loop_cond in Hexit.
    apply andb_false_iff in Hexit as [He|He]; apply Z.ltb_ge in He; lia. }
  split; [|split; [reflexivity|]].
  - split; [|exact Hb].
    destruct (Z_lt_le_dec (cycle (simulate instrs)) MAX_CYCLES) as [Hlt|Hge];
      [|unfold MAX_CYCLES in *; lia].
    pose proof (Hall (Hdone Hlt)) as Hf.
    destruct instrs as [|i instrs]; [congruence|].
    inversion Ht as [|? st ? sts Hti Htl]; subst.
    match goal with H : _ :: _ = states _ |- _ => rewrite <- H in Hf end.
    inversion Hf as [|? ? Hst _]; subst.
    pose proof (getLatency_pos (opcode i)).
    unfold slot_timing in Hti. rewrite Hst in Hti. lia.
  - intros Hlt. split; [apply Hall|]; apply Hdone; exact Hlt.
Qed.

Lemma at_least_six_cycles_witness :
  6 ≤ cycle (simulate [mkInstruction 1 ADD 2 3 1 false 0 "ADD R1 R2 R3"]).
Proof.
  assert (Hne : [mkInstruction 1 ADD 2 3 1 false 0 "ADD R1 R2 R3"] ≠ [])
    by discriminate.
  apply (at_least_six_cycles _ Hne).
Defined.

(** ** The hazard counters *)

Lemma stats_consistent_mono b b' stats :
  b ≤ b' → stats_consistent b stats → stats_consistent b' stats.
Proof.
  intros Hb (raw & str & H0 & H1 & H2 & H). exists raw, str.
  split; [exact H0|]. split; [exact H1|]. split; [lia | exact H].
Qed.

Lemma detectHazards_consistent b i st sb eu c stats :
  stats_consistent b stats →
  stats_consistent (b + 1) (detectHazards i st sb eu c stats).2.
Proof.
  intros (raw & str & H0 & H1 & H2 & Hr & Hs & Ht & Ha & Hb & Hc & Hd & He).
  assert (Hraw : stats_consistent (b + 1) (bump_stalls (bump_raw stats))).
  { exists (raw + 1), str.
    cbn [total_stalls raw_hazards structural_hazards war_hazards waw_hazords
         branch_mispredictions stat_total_cycles instructions_completed
         bump_stalls bump_raw].
    unfold int_incr. rewrite Hr, Hs, Ht, !int_wrap_add.
    split; [lia|]. split; [lia|]. split; [lia|].
    split; [apply int_wrap_eq; lia|]. split; [apply int_wrap_eq; lia|].
    split; [apply int_wrap_eq; lia|]. auto. }
  assert (Hstr : stats_consistent (b + 1) (bump_stalls (bump_structural stats))).
  { exists raw, (str + 1).
    cbn [total_stalls raw_hazards structural_hazards war_hazards waw_hazords
         branch_mispredictions stat_total_cycles instructions_completed
         bump_stalls bump_structural].
    unfold int_incr. rewrite Hr, Hs, Ht, !int_wrap_add.
    split; [lia|]. split; [lia|]. split; [lia|].
    split; [apply int_wrap_eq; lia|]. split; [apply int_wrap_eq; lia|].
    split; [apply int_wrap_eq; lia|]. auto. }
  assert (Hsame : stats_consistent (b + 1) stats).
  { exists raw, str.
    split; [lia|]. split; [lia|]. split; [lia|]. auto 10. }
  unfold detectHazards.
  destruct (isBusy sb (src1 i) c); [|destruct (isBusy sb (src2 i) c)];
    cbn [negb andb];
    try destruct (isAvailable eu (getExecUnit (opcode i)));
    cbn [negb andb fst snd]; assumption.
Qed.

Lemma decode_pass_consistent sb eu c instrs :
  ∀ sts stats b,
    stats_consistent b stats →
    stats_consistent (b + Z.of_nat (length instrs))
      (for_each (decode_slot sb eu c) instrs sts stats).2.
Proof.
  induction instrs as [|i instrs IH]; intros [|st sts] stats b Hb;
    cbn [for_each snd length].
  - apply (stats_consistent_mono b); [lia | exact Hb].
  - apply (stats_consistent_mono b); [lia | exact Hb].
  - apply (stats_consistent_mono b); [lia | exact Hb].
  - apply (stats_consistent_mono (b + 1 + Z.of_nat (length instrs))); [lia|].
    apply IH. unfold decode_slot. case_bool_decide.
    + destruct (detectHazards i st sb eu c stats).1.1; cbn [snd];
        apply detectHazards_consistent; exact Hb.
    + apply (stats_consistent_mono b); [lia | exact Hb].
Qed.

Lemma slot_timing_DECODE c i st :
  slot_timing c i st → current_stage st = DECODE → 2 ≤ c.
Proof.
  unfold slot_timing. intros Ht Hs. rewrite Hs in Ht. apply Ht.
Qed.

Lemma cycle_body_stats_consistent instrs s :
  0 ≤ cycle s →
  Forall2 (slot_timing (cycle s)) instrs (states s) →
  stats_consistent (max_stalls (Z.of_nat (length instrs)) (cycle s)) (stats s) →
  stats_consistent (max_stalls (Z.of_nat (length instrs)) (cycle s + 1))
    (stats (cycle_body instrs s)).
Proof.
  intros Hc Ht H. unfold max_stalls in *.
  destruct (Z_le_gt_dec (cycle s) 1) as [Hearly | Hlate].
  - rewrite not_decode_before_decode_pass.
    + apply (stats_consistent_mono
               (Z.of_nat (length instrs) * Z.max 0 (cycle s - 2))); [|exact H].
      rewrite !Z.max_l by lia. lia.
    + apply Forall_lookup. intros k st Hs Hd.
      destruct (Forall2_lookup_r _ _ _ _ _ Ht Hs) as (i & _ & Hi).
      pose proof (slot_timing_DECODE _ _ _ Hi Hd). lia.
  - unfold cycle_body. cbn [stats].
    replace (Z.of_nat (length instrs) * Z.max 0 (cycle s + 1 - 2))
      with (Z.of_nat (length instrs) * Z.max 0 (cycle s - 2)
            + Z.of_nat (length instrs))
      by (rewrite !Z.max_r by lia; ring).
    apply decode_pass_consistent. exact H.
Qed.

Lemma state_after_stats_consistent instrs k :
  stats_consistent
    (max_stalls (Z.of_nat (length instrs)) (cycle (state_after instrs k)))
    (stats (state_after instrs k)).
Proof.
  apply (state_after_inv
           (λ s, (0 ≤ cycle s ∧ Forall2 (slot_timing (cycle s)) instrs (states s))
                 ∧ stats_consistent (max_stalls (Z.of_nat (length instrs)) (cycle s))
                     (stats s))).
  - split; [split; [simpl; lia | apply initial_timing]|].
    exists 0, 0. unfold max_stalls. simpl.
    repeat match goal with |- _ ∧ _ => split end; try reflexivity; lia.
  - intros s [[Hc Ht] Hs] _. rewrite cycle_body_cycle.
    split; [split; [lia | apply cycle_body_timing; exact Ht]|].
    apply cycle_body_stats_consistent; assumption.
Qed.

(** X5 -- the counters of the result.  In every state the loop reaches,
    the three counters that are written are [int] values, [total_stalls]
    is the sum of [raw_hazards] and [structural_hazards] as an [int] holds
    it, and the WAR, WAW and branch-misprediction counters are 0; the final
    statistics carry the same values beside the cycle count and the number
    of completed instructions.  A program of [n] instructions counts at
    most [n] stalls in each cycle from the third on, 498 [n] in all: when
    that fits an [int], no counter overflows, [total_stalls] is the exact
    sum and no counter is negative. *)
Theorem hazard_counters_add_up (instrs : list Instruction) (k : nat) :
  let s := state_after instrs k in
  let f := final_statistics s in
  let n := Z.of_nat (length instrs) in
  total_stalls f = int_wrap (raw_hazards f + structural_hazards f)
  ∧ INT_MIN ≤ raw_hazards f ≤ INT_MAX
  ∧ INT_MIN ≤ structural_hazards f ≤ INT_MAX
  ∧ INT_MIN ≤ total_stalls f ≤ INT_MAX
  ∧ (498 * n ≤ INT_MAX →
     total_stalls f = raw_hazards f + structural_hazards f
     ∧ 0 ≤ raw_hazards f ∧ 0 ≤ structural_hazards f
     ∧ total_stalls f ≤ n * Z.max 0 (cycle s - 2) ≤ 498 * n)
  ∧ war_hazards f = 0 ∧ waw_hazords f = 0 ∧ branch_mispredictions f = 0
  ∧ stat_total_cycles f = cycle s ∧ instructions_completed f = completed s
  ∧ 0 ≤ instructions_completed f ≤ n
  ∧ 0 ≤ stat_total_cycles f ≤ MAX_CYCLES.
Proof.
  intros s f n.
  destruct (state_after_stats_consistent instrs k)
    as (raw & str & H0 & H1 & H2 & Hr & Hs & Ht & Hwar & Hwaw & Hbm & _).
  fold s in H2, Hr, Hs, Ht, Hwar, Hwaw, Hbm. fold n in H2.
  unfold max_stalls in H2.
  pose proof (state_after_completed_le instrs k) as Hc.
  pose proof (state_after_cycle_bounds instrs k) as [[Hc0 _] Hc1].
  fold s in Hc, Hc0, Hc1. fold n in Hc. unfold MAX_CYCLES in Hc1.
  assert (Hn : 0 ≤ n) by (unfold n; lia).
  assert (Hb : n * Z.max 0 (cycle s - 2) ≤ 498 * n) by nia.
  subst f. unfold final_statistics, calculate.
  cbn [total_stalls raw_hazards structural_hazards war_hazards waw_hazords
       branch_mispredictions stat_total_cycles instructions_completed].
  rewrite Hr, Hs, Ht.
  split.
  { rewrite int_wrap_add, (Z.add_comm raw (int_wrap str)), int_wrap_add.
    apply int_wrap_eq. lia. }
  split; [apply int_wrap_range|]. split; [apply int_wrap_range|].
  split; [apply int_wrap_range|].
  split.
  { intros Hfit.
    rewrite !int_wrap_id by (unfold INT_MIN, INT_MAX in *; lia).
    repeat match goal with |- _ ∧ _ => split end; lia. }
  unfold MAX_CYCLES.
  repeat match goal with |- _ ∧ _ => split end; try assumption; try reflexivity; lia.
Qed.

Lemma hazard_counters_add_up_witness :
  let f := final_statistics
             (state_after [mkInstruction 1 NOP (-1) (-1) (-1) false 0 "NOP"] 500) in
  total_stalls f = raw_hazards f + structural_hazards f
  ∧ 0 ≤ raw_hazards f ∧ 0 ≤ structural_hazards f ∧ total_stalls f ≤ 498.
Proof.
  intros f.
  destruct (hazard_counters_add_up
              [mkInstruction 1 NOP (-1) (-1) (-1) false 0 "NOP"] 500)
    as (_ & _ & _ & _ & H & _).
  destruct H as (H1 & H2 & H3 & _ & H4).
  - unfold INT_MAX. simpl. lia.
  - fold f in H1, H2, H3. split; [exact H1|]. split; [exact H2|].
    split; [exact H3|].
    assert (E : total_stalls f = 498) by (vm_compute; reflexivity).
    rewrite E. lia.
Defined.

(** ** Snapshots *)

Lemma stageToString_inj s1 s2 : stageToString s1 = stageToString s2 → s1 = s2.
Proof. destruct s1, s2; intros H; try reflexivity; discriminate H. Qed.

Lemma in_flight_b_spec stage : in_flight_b stage = true ↔ in_flight stage.
Proof.
  unfold in_flight. destruct stage; simpl; split;
    try discriminate; try (intros [H1 H2]; congruence);
    intros _; split; discriminate.
Qed.

Lemma in_flight_cond stage :
  negb (bool_decide (stage = IDLE)) && negb (bool_decide (stage = COMPLETE))
  = in_flight_b stage.
Proof. destruct stage; reflexivity. Qed.

Lemma capture_loop_spec instrs :
  ∀ sts m stalls,
    (capture_loop instrs sts m stalls).2 = (stalls ++ stalled_pairs instrs sts)%list
    ∧ (∀ stage l, in_flight stage → m !! stageToString stage = Some l →
         (capture_loop instrs sts m stalls).1 !! stageToString stage
         = Some (l ++ stage_origins stage instrs sts)%list)
    ∧ (∀ key, (∀ stage, in_flight stage → key ≠ stageToString stage) →
         (capture_loop instrs sts m stalls).1 !! key = m !! key).
Proof.
  induction instrs as [|i instrs IH]; intros [|st sts] m stalls;
    try (simpl; repeat split; intros; rewrite ?app_nil_r; auto; fail).
  cbn [capture_loop stalled_pairs stage_origins].
  rewrite in_flight_cond.
  set (m1 := if in_flight_b (current_stage st) then _ else m).
  set (stalls1 := if stalled st then _ else stalls).
  destruct (IH sts m1 stalls1) as (H1 & H2 & H3).
  split; [|split].
  - rewrite H1. unfold stalls1. destruct (stalled st); [|reflexivity].
    rewrite <- app_assoc. reflexivity.
  - intros stage l Hfl Hm.
    destruct (decide (current_stage st = stage)) as [E|E].
    + rewrite (bool_decide_eq_true_2 _ E).
      assert (Hm1 : m1 !! stageToString stage
                    = Some (l ++ [original_string i])%list).
      { unfold m1. rewrite E. rewrite (proj2 (in_flight_b_spec stage) Hfl).
        rewrite Hm. cbn [default]. apply lookup_insert_eq. }
      rewrite (H2 stage _ Hfl Hm1). rewrite <- app_assoc. reflexivity.
    + rewrite (bool_decide_eq_false_2 _ E).
      apply H2; [exact Hfl|].
      unfold m1. destruct (in_flight_b (current_stage st)); [|exact Hm].
      rewrite lookup_insert_ne; [exact Hm|].
      intros Heq. apply stageToString_inj in Heq. contradiction.
  - intros key Hkey. rewrite H3 by exact Hkey.
    unfold m1. destruct (in_flight_b (current_stage st)) eqn:Hb; [|reflexivity].
    apply in_flight_b_spec in Hb.
    apply lookup_insert_ne. intros Heq. exact (Hkey _ Hb (eq_sym Heq)).
Qed.

(** X6 -- what a snapshot holds.  [captureCycleState] records the cycle
    number; under the name of each of the five stages FETCH to WRITEBACK
    the original strings of the slots in that stage, in slot order (an
    empty list when there is none); no other key; and the stalled slots
    with their reasons, in slot order.  Slots in IDLE or COMPLETE appear
    in no stage list. *)
Theorem captureCycleState_lists (c : Z) (instrs : list Instruction)
    (sts : list PipelineState) :
  let snap := captureCycleState c instrs sts in
  snap_cycle snap = c
  ∧ (∀ stage, stage ≠ IDLE → stage ≠ COMPLETE →
       snap_stages snap !! stageToString stage
       = Some (stage_origins stage instrs sts))
  ∧ (∀ key, key ∉ ["FETCH"; "DECODE"; "ISSUE"; "EXECUTE"; "WRITEBACK"] →
       snap_stages snap !! key = None)
  ∧ snap_stalls snap = stalled_pairs instrs sts.
Proof.
  intros snap. subst snap. unfold captureCycleState. cbn [snap_cycle snap_stages snap_stalls].
  destruct (capture_loop_spec instrs sts empty_stage_map []) as (H1 & H2 & H3).
  split; [reflexivity|]. split; [|split].
  - intros stage Hi Hc.
    rewrite (H2 stage [] (conj Hi Hc)); [reflexivity|].
    destruct stage; try congruence; reflexivity.
  - intros key Hkey. rewrite H3.
    + unfold empty_stage_map.
      rewrite !lookup_insert_ne; [apply lookup_empty|..];
        intros <-; apply Hkey; set_solver.
    + intros stage [Hi Hc] ->. apply Hkey.
      destruct stage; try congruence; simpl; set_solver.
  - rewrite H1. reflexivity.
Qed.

Lemma cycle_body_history instrs s :
  cycle_history (cycle_body instrs s) =
  (cycle_history s
     ++ [captureCycleState (cycle s + 1) instrs (states (cycle_body instrs s))])%list.
Proof. reflexivity. Qed.

Lemma state_after_history instrs k :
  length (cycle_history (state_after instrs k))
  = Z.to_nat (cycle (state_after instrs k))
  ∧ ∀ j cd, cycle_history (state_after instrs k) !! j = Some cd →
      cd = captureCycleState (Z.of_nat j + 1) instrs
             (states (state_after instrs (S j))).
Proof.
  induction k as [|k [IHl IHc]]; [split; [reflexivity | intros j cd H; discriminate]|].
  rewrite state_after_S. unfold loop_iteration.
  destruct (loop_cond instrs (state_after instrs k)) eqn:Hc; [|split; assumption].
  destruct (state_after_cycle instrs k) as [Hk|Hk]; [|congruence].
  assert (Hlen : length (cycle_history (state_after instrs k)) = k)
    by (rewrite IHl, Hk; lia).
  rewrite cycle_body_history, cycle_body_cycle. split.
  - rewrite length_app, Hlen, Hk. simpl. lia.
  - intros j cd Hj.
    destruct (decide (j < k)%nat) as [Hlt|Hge].
    + rewrite lookup_app_l in Hj by lia. apply IHc. exact Hj.
    + rewrite lookup_app_r in Hj by lia. rewrite Hlen in Hj.
      apply list_lookup_singleton_Some in Hj as [Hd <-].
      assert (j = k) as -> by lia.
      rewrite state_after_S. unfold loop_iteration. rewrite Hc, <- Hk.
      reflexivity.
Qed.

(** X7 -- one snapshot per cycle.  In every state the loop reaches, the
    history holds as many snapshots as cycles have run; the snapshot at
    position [j] carries the cycle number [j + 1] and is the capture of the
    slots at the end of that cycle.  The result of [main] therefore has
    [totalCycles] snapshots. *)
Theorem one_snapshot_per_cycle (instrs : list Instruction) (k : nat) :
  let s := state_after instrs k in
  Z.of_nat (length (cycle_history s)) = cycle s
  ∧ Z.of_nat (length (cycle_history (simulate instrs)))
    = stat_total_cycles (final_statistics (simulate instrs))
  ∧ ∀ j cd, cycle_history s !! j = Some cd →
      snap_cycle cd = Z.of_nat j + 1
      ∧ cd = captureCycleState (Z.of_nat j + 1) instrs
               (states (state_after instrs (S j))).
Proof.
  intros s. destruct (state_after_history instrs k) as [Hl Hc]. fold s in Hl, Hc.
  pose proof (state_after_cycle_bounds instrs k) as [[H0 _] _]. fold s in H0.
  split; [lia|]. split.
  - destruct (state_after_history instrs (Z.to_nat MAX_CYCLES)) as [Hl' _].
    pose proof (state_after_cycle_bounds instrs (Z.to_nat MAX_CYCLES)) as [[H0' _] _].
    fold (simulate instrs) in Hl', H0'.
    change (stat_total_cycles (final_statistics (simulate instrs)))
      with (cycle (simulate instrs)). lia.
  - intros j cd Hj. pose proof (Hc j cd Hj) as ->.
    split; reflexivity.
Qed.

(** ** Stalled slots *)

Lemma step_slot_stall_flag c i st a_wb a_is sb eu stats :
  stall_flag_ok st → stall_flag_ok (step_slot c i st a_wb a_is sb eu stats).
Proof.
  unfold stall_flag_ok. intros [H1 H2].
  destruct (current_stage st) eqn:Hst.
  - rewrite step_slot_IDLE by exact Hst. cbn.
    split; [intros E; destruct (H1 E); congruence | exact H2].
  - rewrite step_slot_FETCH by exact Hst. cbn.
    split; [intros E; destruct (H1 E); congruence | exact H2].
  - destruct (step_slot_DECODE_reason c i st a_wb a_is sb eu stats Hst)
      as (reason & Hne & ->).
    destruct (detectHazards i st sb eu c stats).1.1; cbn;
      (split; [intros E; try discriminate; auto | intros E; try discriminate; auto]).
  - rewrite step_slot_ISSUE by exact Hst.
    destruct (allocate a_is.1 (getExecUnit (opcode i))).1; cbn;
      (split; [intros E; destruct (H1 E); congruence | exact H2]).
  - rewrite step_slot_EXECUTE by exact Hst.
    destruct (cycles_in_stage st + 1 >=? getLatency (opcode i)); cbn;
      (split; [intros E; destruct (H1 E); congruence | exact H2]).
  - rewrite step_slot_WRITEBACK by exact Hst. cbn.
    split; [intros E; destruct (H1 E); congruence | exact H2].
  - rewrite step_slot_COMPLETE by exact Hst.
    split; [intros E; destruct (H1 E); congruence | exact H2].
Qed.

Lemma state_after_stall_flag instrs k :
  Forall stall_flag_ok (states (state_after instrs k)).
Proof.
  apply (state_after_inv (λ s, length (states s) = length instrs
                               ∧ Forall stall_flag_ok (states s))).
  - split; [simpl; apply length_replicate|].
    simpl. apply Forall_replicate. split; [discriminate | reflexivity].
  - intros s [Hlen Hs] _. split; [rewrite cycle_body_length; exact Hlen|].
    apply Forall_lookup. intros n st' Hs'.
    assert (Hn : (n < length instrs)%nat).
    { apply lookup_lt_Some in Hs'. rewrite cycle_body_length in Hs'. lia. }
    destruct (lookup_lt_is_Some_2 instrs n Hn) as [i Hi].
    destruct (lookup_lt_is_Some_2 (states s) n) as [st Hst]; [lia|].
    destruct (cycle_body_slot instrs s n i st Hi Hst) as (a_wb & a_is & stats' & Hk).
    rewrite Hk in Hs'. injection Hs' as <-.
    apply step_slot_stall_flag. apply (proj1 (Forall_lookup _ _) Hs n st Hst).
Qed.

Lemma stalled_pairs_sublist instrs :
  ∀ sts, Forall stall_flag_ok sts →
    sublist (stalled_pairs instrs sts).*1 (stage_origins DECODE instrs sts).
Proof.
  induction instrs as [|i instrs IH]; intros [|st sts] Hall; simpl;
    try apply sublist_nil.
  inversion Hall as [|? ? [H1 H2] Hrest]; subst.
  destruct (stalled st) eqn:Es.
  - destruct (H1 eq_refl) as [Ed _]. rewrite (bool_decide_eq_true_2 _ Ed).
    simpl. apply sublist_skip, IH, Hrest.
  - case_bool_decide; [apply sublist_cons|]; apply IH, Hrest.
Qed.

(** X8 -- stalled slots.  In every state the loop reaches, a slot with the
    stall flag set is in DECODE and has a reason that is not empty, and a
    slot without the flag has the empty reason.  So the stall list of a
    snapshot names only instructions that the same snapshot lists under
    DECODE, in the same order. *)
Theorem stalled_slots_are_in_decode (instrs : list Instruction) (k : nat) :
  let s := state_after instrs k in
  Forall (λ st, (stalled st = true →
                 current_stage st = DECODE ∧ stall_reason st ≠ "")
                ∧ (stalled st = false → stall_reason st = "")) (states s)
  ∧ sublist (snap_stalls (captureCycleState (cycle s) instrs (states s))).*1
      (stage_origins DECODE instrs (states s)).
Proof.
  intros s. pose proof (state_after_stall_flag instrs k) as H. fold s in H.
  split; [exact H|].
  destruct (capture_loop_spec instrs (states s) empty_stage_map []) as (H1 & _).
  unfold captureCycleState. cbn [snap_stalls]. rewrite H1. simpl.
  apply stalled_pairs_sublist. exact H.
Qed.

(** ** Scoreboard operations *)

Lemma regs_at_insert_eq sb r e :
  wf_scoreboard sb → 0 ≤ r < 32 →
  regs_at (mkRegisterScoreboard (<[Z.to_nat r := e]> (regs sb)) (num_registers sb)) r
  = Some e.
Proof.
  intros [Hn Hl] Hr. unfold regs_at. cbn [regs].
  apply list_lookup_insert_eq. lia.
Qed.

Lemma regs_at_insert_ne sb r r' e :
  0 ≤ r → 0 ≤ r' → r ≠ r' →
  regs_at (mkRegisterScoreboard (<[Z.to_nat r := e]> (regs sb)) (num_registers sb)) r'
  = regs_at sb r'.
Proof.
  intros H0 H0' Hne. unfold regs_at. cbn [regs].
  apply list_lookup_insert_ne. lia.
Qed.

Lemma guard_valid sb r :
  num_registers sb = 32 → 0 ≤ r < 32 → (r >=? 0) && (r <? num_registers sb) = true.
Proof.
  intros -> Hr. apply andb_true_iff. split; [apply Z.geb_le | apply Z.ltb_lt]; lia.
Qed.

Lemma isBusy_guard_valid sb r :
  num_registers sb = 32 → 0 ≤ r < 32 → (r <? 0) || (r >=? num_registers sb) = false.
Proof.
  intros -> Hr. apply orb_false_iff.
  split; [apply Z.ltb_ge; lia | rewrite Z.geb_leb; apply Z.leb_gt; lia].
Qed.

(** X9 -- [markBusy] and the two queries.  On a scoreboard of 32 entries
    and a register in R0-R31, after [markBusy(r, id, ready)] the writer of
    [r] is [id] and [r] is busy in exactly the cycles before [ready]; no
    other register changes; a second [markBusy] on [r] replaces the first
    (the entry keeps no trace of the earlier writer). *)
Theorem markBusy_then_query (sb : RegisterScoreboard) (r instr_id ready : Z)
    (Hwf : wf_scoreboard sb) (Hr : 0 ≤ r < 32) :
  let sb' := markBusy sb r instr_id ready in
  wf_scoreboard sb'
  ∧ getWriter sb' r = instr_id
  ∧ (∀ c, isBusy sb' r c = (ready >? c))
  ∧ (∀ r', r' ≠ r → getWriter sb' r' = getWriter sb r'
                    ∧ ∀ c, isBusy sb' r' c = isBusy sb r' c)
  ∧ (∀ id2 ready2, markBusy sb' r id2 ready2 = markBusy sb r id2 ready2).
Proof.
  intros sb'. pose proof Hwf as [Hn Hl].
  assert (Hsb' : sb' = mkRegisterScoreboard
                         (<[Z.to_nat r := mkRegInfo true instr_id ready]> (regs sb))
                         (num_registers sb)).
  { unfold sb', markBusy. rewrite guard_valid by assumption. reflexivity. }
  split; [apply markBusy_wf; exact Hwf|].
  split.
  { rewrite Hsb'. unfold getWriter. cbn [num_registers].
    rewrite guard_valid by assumption.
    rewrite regs_at_insert_eq by assumption. reflexivity. }
  split.
  { intros c. rewrite Hsb'. unfold isBusy. cbn [num_registers].
    rewrite isBusy_guard_valid by assumption.
    rewrite regs_at_insert_eq by assumption. reflexivity. }
  split.
  { intros r' Hne. rewrite Hsb'. unfold getWriter, isBusy. cbn [num_registers].
    split.
    - destruct ((r' >=? 0) && (r' <? num_registers sb)) eqn:Hg; [|reflexivity].
      apply andb_true_iff in Hg as [Hg _]. apply Z.geb_le in Hg.
      rewrite regs_at_insert_ne by lia. reflexivity.
    - intros c. destruct (r' <? 0) eqn:Hg; [reflexivity|]. cbn [orb].
      apply Z.ltb_ge in Hg.
      rewrite regs_at_insert_ne by lia. reflexivity. }
  intros id2 ready2. rewrite Hsb'. unfold markBusy. cbn [num_registers regs].
  rewrite guard_valid by assumption.
  rewrite list_insert_insert_eq. reflexivity.
Qed.

Lemma markBusy_then_query_witness :
  getWriter (markBusy (RegisterScoreboard_new 32) 7 3 12) 7 = 3.
Proof.
  assert (Hr : 0 ≤ 7 < 32) by lia.
  assert (Hwf : wf_scoreboard (RegisterScoreboard_new 32)) by (split; reflexivity).
  apply (markBusy_then_query (RegisterScoreboard_new 32) 7 3 12 Hwf Hr).
Defined.

(** X10 -- [clearBusy].  On a scoreboard of 32 entries, after [clearBusy(r)]
    the register [r] is not busy in any cycle, while [getWriter(r)] still
    returns the last writer (only the busy flag is reset); no other
    register changes, and clearing twice is clearing once. *)
Theorem clearBusy_then_query (sb : RegisterScoreboard) (r : Z)
    (Hwf : wf_scoreboard sb) :
  let sb' := clearBusy sb r in
  wf_scoreboard sb'
  ∧ (∀ c, isBusy sb' r c = false)
  ∧ getWriter sb' r = getWriter sb r
  ∧ (∀ r', r' ≠ r → getWriter sb' r' = getWriter sb r'
                    ∧ ∀ c, isBusy sb' r' c = isBusy sb r' c)
  ∧ clearBusy sb' r = sb'.
Proof.
  intros sb'. pose proof Hwf as [Hn Hl].
  split; [apply clearBusy_wf; exact Hwf|].
  destruct (valid_register r) eqn:Hv.
  - assert (Hr : 0 ≤ r < 32).
    { unfold valid_register in Hv. apply andb_true_iff in Hv as [H1 H2].
      apply Z.leb_le in H1. apply Z.ltb_lt in H2. lia. }
    destruct (regs_at_in_bounds sb r Hwf) as [e He]; [lia|].
    assert (Hsb' : sb' = mkRegisterScoreboard
              (<[Z.to_nat r := mkRegInfo false (writer_id e) (ready_cycle e)]> (regs sb))
              (num_registers sb)).
    { unfold sb', clearBusy. rewrite guard_valid by assumption. rewrite He.
      reflexivity. }
    split.
    { intros c. rewrite Hsb'. unfold isBusy. cbn [num_registers].
      rewrite isBusy_guard_valid by assumption.
      rewrite regs_at_insert_eq by assumption. reflexivity. }
    split.
    { rewrite Hsb'. unfold getWriter. cbn [num_registers].
      rewrite guard_valid by assumption.
      rewrite regs_at_insert_eq by assumption. rewrite He. reflexivity. }
    split.
    { intros r' Hne. rewrite Hsb'. unfold getWriter, isBusy. cbn [num_registers].
      split.
      - destruct ((r' >=? 0) && (r' <? num_registers sb)) eqn:Hg; [|reflexivity].
        apply andb_true_iff in Hg as [Hg _]. apply Z.geb_le in Hg.
        rewrite regs_at_insert_ne by lia. reflexivity.
      - intros c. destruct (r' <? 0) eqn:Hg; [reflexivity|]. cbn [orb].
        apply Z.ltb_ge in Hg.
        rewrite regs_at_insert_ne by lia. reflexivity. }
    rewrite Hsb'. unfold clearBusy. cbn [num_registers regs].
    rewrite guard_valid by assumption.
    rewrite regs_at_insert_eq by assumption. cbn [writer_id ready_cycle].
    rewrite list_insert_insert_eq. reflexivity.
  - assert (Hsb' : sb' = sb) by (apply clearBusy_invalid; assumption).
    rewrite Hsb'.
    split; [intros c; apply isBusy_invalid; assumption|].
    split; [reflexivity|]. split; [intros; split; reflexivity|].
    apply clearBusy_invalid; assumption.
Qed.

Lemma clearBusy_then_query_witness :
  let sb := markBusy (RegisterScoreboard_new 32) 7 3 12 in
  isBusy (clearBusy sb 7) 7 5 = false ∧ getWriter (clearBusy sb 7) 7 = 3.
Proof.
  intros sb.
  assert (Hwf : wf_scoreboard sb) by (split; reflexivity).
  destruct (clearBusy_then_query sb 7 Hwf) as (_ & Hb & Hw & _).
  split; [apply Hb | rewrite Hw; reflexivity].
Defined.

(** ** Pool operations *)

Lemma pool_wf_new : pool_wf ExecutionUnits_new.
Proof.
  split; [reflexivity|]. intros u. split; [reflexivity|].
  destruct u; vm_compute; split; congruence.
Qed.

Lemma map_touch_present (m : gmap ExecUnit Z) u a :
  m !! u = Some a → map_touch m u = m.
Proof. intros H. unfold map_touch. rewrite H. reflexivity. Qed.

Lemma pool_wf_lookup eu u :
  pool_wf eu → is_Some (available eu !! u) → is_Some (capacity eu !! u).
Proof.
  intros [Hcap H] [a Ha]. rewrite Hcap.
  destruct (initial_capacity !! u) eqn:E; [eauto|].
  apply (H u) in E. congruence.
Qed.

(** X11 -- [allocate].  On a well-formed pool, [allocate(u)] succeeds exactly
    when a unit of kind [u] is free; then it takes one unit of that kind
    and nothing else, and a [release(u)] gives the pool back as it was.
    When it fails the pool is unchanged.  Either way the pool stays
    well-formed: the free units never go below 0. *)
Theorem allocate_then_release (eu : ExecutionUnits) (u : ExecUnit)
    (Hwf : pool_wf eu) :
  let r := allocate eu u in
  pool_wf r.2
  ∧ (r.1 = true ↔ 0 < map_at (available eu) u)
  ∧ (r.1 = true →
       map_at (available r.2) u = map_at (available eu) u - 1
       ∧ (∀ u', u' ≠ u → available r.2 !! u' = available eu !! u')
       ∧ release r.2 u = eu)
  ∧ (r.1 = false → r.2 = eu).
Proof.
  intros r. subst r. pose proof Hwf as [Hcap H].
  unfold allocate, isAvailable.
  destruct (available eu !! u) as [a|] eqn:Ha.
  - assert (Hma : map_at (available eu) u = a) by (unfold map_at; rewrite Ha; reflexivity).
    destruct (H u) as [Hdom Hb]. rewrite Hma in Hb.
    destruct (a >? 0) eqn:Hpos; cbn [fst snd].
    + apply Z.gtb_lt in Hpos. rewrite Hma.
      split.
      { split; [exact Hcap|]. intros u'. cbn [available].
        destruct (decide (u = u')) as [<-|Hne].
        - rewrite lookup_insert_eq, map_at_insert_eq.
          split; [|lia]. split; intros E; [discriminate|].
          apply Hdom in E. congruence.
        - rewrite lookup_insert_ne, map_at_insert_ne by exact Hne. apply H. }
      split; [split; [intros _; exact Hpos | reflexivity]|].
      split; [|discriminate].
      intros _. cbn [available]. rewrite map_at_insert_eq.
      split; [reflexivity|].
      split; [intros u' Hne; apply lookup_insert_ne; congruence|].
      unfold release. cbn [available capacity]. rewrite lookup_insert_eq.
      destruct (pool_wf_lookup eu u Hwf) as [cp Hcp]; [eauto|].
      assert (Hlt : (a - 1 <? map_at (capacity eu) u) = true).
      { apply Z.ltb_lt. rewrite Hcap. lia. }
      rewrite Hlt, (map_touch_present _ _ _ Hcp), insert_insert_eq.
      replace (a - 1 + 1) with a by lia.
      rewrite (insert_id _ _ _ Ha). destruct eu; reflexivity.
    + split; [exact Hwf|].
      rewrite Z.gtb_ltb in Hpos. apply Z.ltb_ge in Hpos.
      split; [split; [discriminate | lia]|].
      split; [discriminate | reflexivity].
  - cbn [fst snd]. split; [exact Hwf|].
    assert (Hma : map_at (available eu) u = 0) by (unfold map_at; rewrite Ha; reflexivity).
    split; [split; [discriminate | lia]|].
    split; [discriminate | reflexivity].
Qed.

Lemma allocate_then_release_witness :
  release (allocate ExecutionUnits_new ALU_UNIT).2 ALU_UNIT = ExecutionUnits_new.
Proof.
  assert (Hwf : pool_wf ExecutionUnits_new).
  { split; [reflexivity|]. intros u. split; [reflexivity|].
    destruct u; vm_compute; split; congruence. }
  apply (allocate_then_release ExecutionUnits_new ALU_UNIT Hwf).
  reflexivity.
Defined.

(** X12 -- [release] and [reset].  On a well-formed pool, [release(u)] gives
    back one unit of kind [u] when fewer than the capacity are free and
    does nothing otherwise, so a release without a matching allocation
    cannot raise the free units above the capacity; a kind the pool does
    not have (ANY) is neither allocated nor released.  [reset] restores
    the pool of the constructor. *)
Theorem release_is_guarded (eu : ExecutionUnits) (u : ExecUnit)
    (Hwf : pool_wf eu) :
  pool_wf (release eu u)
  ∧ (map_at (available eu) u < map_at initial_capacity u →
       map_at (available (release eu u)) u = map_at (available eu) u + 1
       ∧ ∀ u', u' ≠ u → available (release eu u) !! u' = available eu !! u')
  ∧ (map_at (available eu) u = map_at initial_capacity u → release eu u = eu)
  ∧ release eu ANY_UNIT = eu
  ∧ allocate eu ANY_UNIT = (false, eu)
  ∧ reset eu = ExecutionUnits_new.
Proof.
  pose proof Hwf as [Hcap H].
  assert (Hany : available eu !! ANY_UNIT = None).
  { apply (H ANY_UNIT). reflexivity. }
  assert (Hrel : ∀ a, available eu !! u = Some a →
            release eu u =
            if a <? map_at initial_capacity u
            then mkExecutionUnits (<[u := a + 1]> (available eu)) (capacity eu)
            else eu).
  { intros a Ha. unfold release. rewrite Ha, Hcap.
    destruct (pool_wf_lookup eu u Hwf) as [cp Hcp]; [eauto|].
    rewrite Hcap in Hcp. rewrite (map_touch_present _ _ _ Hcp).
    destruct (a <? map_at initial_capacity u); [reflexivity|].
    rewrite <- Hcap. destruct eu; reflexivity. }
  split; [|split; [|split; [|split; [|split]]]].
  - destruct (available eu !! u) as [a|] eqn:Ha.
    + rewrite (Hrel a eq_refl).
      assert (Hma : map_at (available eu) u = a)
        by (unfold map_at; rewrite Ha; reflexivity).
      destruct (a <? map_at initial_capacity u) eqn:Hlt; [|exact Hwf].
      apply Z.ltb_lt in Hlt.
      split; [exact Hcap|]. intros u'. cbn [available].
      destruct (decide (u = u')) as [<-|Hne].
      * rewrite lookup_insert_eq, map_at_insert_eq.
        destruct (H u) as [Hdom Hb]. rewrite Hma in Hb.
        split; [|lia]. split; intros E; [discriminate|].
        apply Hdom in E. congruence.
      * rewrite lookup_insert_ne, map_at_insert_ne by exact Hne. apply H.
    + unfold release. rewrite Ha. exact Hwf.
  - intros Hlt.
    destruct (available eu !! u) as [a|] eqn:Ha.
    + rewrite (Hrel a eq_refl).
      assert (Hma : map_at (available eu) u = a)
        by (unfold map_at; rewrite Ha; reflexivity).
      rewrite Hma in *. rewrite (proj2 (Z.ltb_lt _ _) Hlt). cbn [available].
      rewrite map_at_insert_eq. split; [reflexivity|].
      intros u' Hne. apply lookup_insert_ne. congruence.
    + exfalso. apply (H u) in Ha as Hc.
      unfold map_at in Hlt. rewrite Ha, Hc in Hlt. simpl in Hlt. lia.
  - intros Heq.
    destruct (available eu !! u) as [a|] eqn:Ha.
    + rewrite (Hrel a eq_refl).
      assert (Hma : map_at (available eu) u = a)
        by (unfold map_at; rewrite Ha; reflexivity).
      rewrite Hma in Heq. rewrite (proj2 (Z.ltb_ge _ _)) by lia. reflexivity.
    + unfold release. rewrite Ha. reflexivity.
  - unfold release. rewrite Hany. reflexivity.
  - unfold allocate, isAvailable. rewrite Hany. reflexivity.
  - unfold reset. rewrite Hcap. reflexivity.
Qed.

Lemma release_is_guarded_witness :
  release ExecutionUnits_new FPU_UNIT = ExecutionUnits_new.
Proof.
  assert (Hwf : pool_wf ExecutionUnits_new).
  { split; [reflexivity|]. intros u. split; [reflexivity|].
    destruct u; vm_compute; split; congruence. }
  destruct (release_is_guarded ExecutionUnits_new FPU_UNIT Hwf)
    as (_ & _ & H & _).
  apply H. reflexivity.
Defined.

(** The pool of every state the loop reaches is well-formed. *)
Lemma state_after_pool_wf instrs k : pool_wf (exec_units (state_after instrs k)).
Proof.
  destruct (state_after_units instrs k) as [Hcap H].
  split; [exact Hcap|]. intros u. destruct (H u) as (_ & Hdom & Hav & Hsum).
  pose proof (occupancy_nonneg u (states (state_after instrs k))).
  split; [exact Hdom | lia].
Qed.

(** ** The loader *)

Lemma load_from_ids lines :
  ∀ idn instrs, load_from idn lines = Some instrs →
    map id instrs = seqZ idn (Z.of_nat (length instrs))
    ∧ map original_string instrs = filter (λ l, skipped_line l = false) lines
    ∧ Forall (λ i, operand_shape i
                   ∧ opcode i = stringToOpcode (extract (original_string i)).1
                   ∧ in_int_range (src1 i) ∧ in_int_range (src2 i)
                   ∧ in_int_range (dest i) ∧ in_int_range (branch_target i)) instrs.
Proof.
  induction lines as [|line lines IH]; intros idn instrs Hl; simpl in Hl.
  - injection Hl as <-. repeat split; constructor.
  - destruct (parse_line line idn) as [|i|] eqn:Hp; [| |discriminate].
    + apply parse_line_skipped_iff in Hp.
      destruct (IH idn instrs Hl) as (H1 & H2 & H3).
      split; [exact H1|]. split; [|exact H3].
      rewrite filter_cons_False by congruence. exact H2.
    + destruct (load_from (idn + 1) lines) as [l|] eqn:Hrest; [|discriminate].
      injection Hl as <-.
      destruct (parse_line_instr line idn i Hp)
        as (Hid & Horig & Hsk & Hop & Hshape & Hr1 & Hr2 & Hr3 & Hr4).
      destruct (IH (idn + 1) l Hrest) as (H1 & H2 & H3).
      split; [|split].
      * cbn [map length]. rewrite seqZ_cons by lia. rewrite Hid, H1.
        f_equal. f_equal; lia.
      * cbn [map]. rewrite filter_cons_True by exact Hsk.
        rewrite Horig, H2. reflexivity.
      * constructor; [|exact H3]. rewrite Horig. auto 10.
Qed.

(** X13 -- ids and order of the loaded program.  When the loader returns,
    the instructions carry the ids 1, 2, ..., n in input order, and their
    original strings are exactly the input lines that are not skipped, in
    input order: every such line yields one instruction. *)
Theorem loaded_ids_are_dense (lines : list string) (instrs : list Instruction)
    (Hload : loadInstructionsFromString lines = Some instrs) :
  map id instrs = seqZ 1 (Z.of_nat (length instrs))
  ∧ map original_string instrs = filter (λ l, skipped_line l = false) lines
  ∧ (length instrs ≤ length lines)%nat
  ∧ ∀ n i, instrs !! n = Some i → id i = Z.of_nat n + 1.
Proof.
  destruct (load_from_ids lines 1 instrs Hload) as (H1 & H2 & _).
  split; [exact H1|]. split; [exact H2|]. split.
  - rewrite <- (length_map original_string), H2. apply length_filter.
  - intros n i Hi.
    assert (Hn : map id instrs !! n = Some (id i))
      by (rewrite list_lookup_fmap, Hi; reflexivity).
    rewrite H1 in Hn. apply lookup_seqZ in Hn as [-> _]. lia.
Qed.

Lemma loaded_ids_are_dense_witness :
  map id [mkInstruction 1 ADD 2 3 1 false 0 "ADD R1 R2 R3";
          mkInstruction 2 JMP (-1) (-1) (-1) true 7 "JMP 7"]
  = seqZ 1 2.
Proof.
  assert (Hload : loadInstructionsFromString ["ADD R1 R2 R3"; "# note"; "JMP 7"]
                  = Some [mkInstruction 1 ADD 2 3 1 false 0 "ADD R1 R2 R3";
                          mkInstruction 2 JMP (-1) (-1) (-1) true 7 "JMP 7"])
    by (vm_compute; reflexivity).
  apply (loaded_ids_are_dense _ _ Hload).
Defined.

(** X14 -- operands of the loaded program.  Every loaded instruction has the
    opcode of the first token of its line and the operands of that
    opcode's format: LOAD and STORE have no second source; BEQ and BNE
    have no destination and are branches; JMP has no register at all and
    is a branch; the others are no branches and have target 0.  Every
    register index and branch target lies in the range of [int]. *)
Theorem loaded_operands_fit_opcode (lines : list string)
    (instrs : list Instruction) (i : Instruction)
    (Hload : loadInstructionsFromString lines = Some instrs)
    (Hi : i ∈ instrs) :
  opcode i = stringToOpcode (extract (original_string i)).1
  ∧ match opcode i with
    | LOAD | STORE => src2 i = -1 ∧ is_branch i = false ∧ branch_target i = 0
    | BEQ | BNE => dest i = -1 ∧ is_branch i = true
    | JMP => src1 i = -1 ∧ src2 i = -1 ∧ dest i = -1 ∧ is_branch i = true
    | _ => is_branch i = false ∧ branch_target i = 0
    end
  ∧ (is_branch i = true ↔ getExecUnit (opcode i) = BRANCH_UNIT)
  ∧ INT_MIN ≤ src1 i ≤ INT_MAX ∧ INT_MIN ≤ src2 i ≤ INT_MAX
  ∧ INT_MIN ≤ dest i ≤ INT_MAX ∧ INT_MIN ≤ branch_target i ≤ INT_MAX.
Proof.
  destruct (load_from_ids lines 1 instrs Hload) as (_ & _ & H).
  apply (proj1 (Forall_forall _ _) H) in Hi
    as (Hshape & Hop & Hr1 & Hr2 & Hr3 & Hr4).
  split; [exact Hop|]. split; [exact Hshape|].
  split; [|unfold in_int_range in *; auto].
  unfold operand_shape in Hshape.
  destruct (opcode i); simpl; intuition congruence.
Qed.

Lemma loaded_operands_fit_opcode_witness :
  src2 (mkInstruction 1 LOAD 2 (-1) 1 false 0 "LOAD R1 R2") = -1.
Proof.
  assert (Hload : loadInstructionsFromString ["LOAD R1 R2"]
                  = Some [mkInstruction 1 LOAD 2 (-1) 1 false 0 "LOAD R1 R2"])
    by (vm_compute; reflexivity).
  assert (Hi : mkInstruction 1 LOAD 2 (-1) 1 false 0 "LOAD R1 R2"
               ∈ [mkInstruction 1 LOAD 2 (-1) 1 false 0 "LOAD R1 R2"])
    by (apply list_elem_of_here).
  apply (loaded_operands_fit_opcode _ _ _ Hload Hi).
Defined.

Lemma load_from_None_iff lines :
  ∀ idn, load_from idn lines = None ↔ Exists (λ l, line_throws l = true) lines.
Proof.
  induction lines as [|line lines IH]; intros idn; simpl.
  - split; [discriminate | intros H; inversion H].
  - destruct (parse_line line idn) as [|i|] eqn:Hp.
    + rewrite IH. split; [intros H; right; exact H|].
      intros H. inversion H as [? ? Ht|? ? Ht]; subst; [|exact Ht].
      apply (parse_line_throws_iff line idn) in Ht. congruence.
    + destruct (load_from (idn + 1) lines) as [l|] eqn:Hrest.
      * split; [discriminate|].
        intros H. inversion H as [? ? Ht|? ? Ht]; subst.
        -- apply (parse_line_throws_iff line idn) in Ht. congruence.
        -- apply (IH (idn + 1)) in Ht. congruence.
      * split; [intros _; right; apply (IH (idn + 1)); exact Hrest | reflexivity].
    + split; [intros _; left; apply (parse_line_throws_iff line idn); exact Hp
             | reflexivity].
Qed.

Lemma load_from_nil_iff lines :
  ∀ idn, load_from idn lines = Some [] ↔ Forall (λ l, skipped_line l = true) lines.
Proof.
  induction lines as [|line lines IH]; intros idn; simpl.
  - split; [constructor | reflexivity].
  - destruct (parse_line line idn) as [|i|] eqn:Hp.
    + rewrite IH. apply parse_line_skipped_iff in Hp.
      split; [intros H; constructor; assumption | intros H; inversion H; assumption].
    + assert (Hns : skipped_line line ≠ true).
      { intros Hs. apply (parse_line_skipped_iff line idn) in Hs. congruence. }
      split.
      * destruct (load_from (idn + 1) lines); discriminate.
      * intros H. inversion H; subst. contradiction.
    + assert (Hns : skipped_line line ≠ true).
      { intros Hs. apply (parse_line_skipped_iff line idn) in Hs. congruence. }
      split; [discriminate|]. intros H. inversion H; subst. contradiction.
Qed.

(** X15 -- the three outcomes of [main].  The process ends in an uncaught
    exception exactly when some line that is not skipped has a BEQ, BNE or
    JMP whose target [stoi] rejects.  It prints the error object "No
    instructions loaded" exactly when every line is skipped, in particular
    for the empty input.  Otherwise it prints the result of simulating the
    loaded program, which is not empty. *)
Theorem main_outcomes (lines : list string) :
  (main lines = Terminated ↔ Exists (λ l, line_throws l = true) lines)
  ∧ (main lines = ErrorJson "No instructions loaded from input."
     ↔ Forall (λ l, skipped_line l = true) lines)
  ∧ main [] = ErrorJson "No instructions loaded from input."
  ∧ (∀ st cycles, main lines = ResultJson st cycles →
       ∃ instrs, instrs ≠ []
                 ∧ loadInstructionsFromString lines = Some instrs
                 ∧ st = final_statistics (simulate instrs)
                 ∧ cycles = cycle_history (simulate instrs)).
Proof.
  unfold main, loadInstructionsFromString.
  pose proof (load_from_None_iff lines 1) as HN.
  pose proof (load_from_nil_iff lines 1) as HE.
  destruct (load_from 1 lines) as [[|i instrs]|] eqn:Hl.
  - split; [split; [discriminate | intros H; apply HN in H; discriminate]|].
    split; [split; [intros _; apply HE; reflexivity | reflexivity]|].
    split; [reflexivity | discriminate].
  - split; [split; [discriminate | intros H; apply HN in H; discriminate]|].
    split; [split; [discriminate | intros H; apply HE in H; discriminate]|].
    split; [reflexivity|].
    intros st cycles [= <- <-]. exists (i :: instrs).
    split; [discriminate | auto].
  - split; [split; [intros _; apply HN; reflexivity | reflexivity]|].
    split; [split; [discriminate | intros H; apply HE in H; discriminate]|].
    split; [reflexivity | discriminate].
Qed.

(** ** Names and numbers *)

(** X16 -- opcode names.  [stringToOpcode] undoes [opcodeToString] for all
    thirteen opcodes; a string that [stringToOpcode] maps to an opcode
    other than NOP is that opcode's name; and a string is one of the
    thirteen names exactly when printing what it parses to gives it back.
    Every other string, the empty one included, parses to NOP. *)
Theorem opcode_names_round_trip :
  (∀ op, stringToOpcode (opcodeToString op) = op)
  ∧ (∀ str op, stringToOpcode str = op → op ≠ NOP → opcodeToString op = str)
  ∧ (∀ str, is_mnemonic str = true ↔ opcodeToString (stringToOpcode str) = str)
  ∧ (∀ str, is_mnemonic str = false → stringToOpcode str = NOP)
  ∧ (∀ op1 op2, opcodeToString op1 = opcodeToString op2 → op1 = op2).
Proof.
  assert (H1 : ∀ op, stringToOpcode (opcodeToString op) = op)
    by (intros []; reflexivity).
  assert (H2 : ∀ str op, stringToOpcode str = op → op ≠ NOP →
            opcodeToString op = str).
  { intros str op <- Hn. revert Hn. unfold stringToOpcode.
    repeat match goal with
           | |- context [String.eqb str ?s] =>
               destruct (String.eqb str s) eqn:E;
               [apply String.eqb_eq in E; subst str; reflexivity | clear E]
           end.
    congruence. }
  split; [exact H1|]. split; [exact H2|]. split; [|split].
  - intros str. split.
    + unfold is_mnemonic, mnemonics. simpl. intros H.
      repeat match type of H with
             | (String.eqb str ?s || _) = true =>
                 apply orb_true_iff in H as [H|H];
                 [apply String.eqb_eq in H; subst str; reflexivity|]
             end.
      discriminate.
    + intros <-. destruct (stringToOpcode str); reflexivity.
  - apply stringToOpcode_unknown.
  - intros op1 op2 H. rewrite <- (H1 op1), <- (H1 op2), H. reflexivity.
Qed.

Lemma digit_value_pretty d :
  (d < 10)%N → digit_value (pretty_N_char d) = Some (Z.of_N d).
Proof.
  intros H.
  assert (d = 0 ∨ d = 1 ∨ d = 2 ∨ d = 3 ∨ d = 4 ∨ d = 5 ∨ d = 6 ∨ d = 7
          ∨ d = 8 ∨ d = 9)%N as Hd by lia.
  repeat (destruct Hd as [->|Hd]; [reflexivity|]). subst. reflexivity.
Qed.

(** Reading the digits that [pretty_N_go] puts in front of [s] multiplies
    the value read so far by a power of ten and adds the number. *)
Lemma read_digits_pretty_N_go x :
  (0 < x)%N →
  ∃ p, ∀ s acc,
    read_digits (pretty_N_go x s) acc
    = read_digits s (Some (default 0 acc * p + Z.of_N x)).
Proof.
  induction (N.lt_wf_0 x) as [x _ IH]. intros Hx.
  assert (Hdiv : (x `div` 10 < x)%N) by (apply N.div_lt; lia).
  assert (Hmod : (x `mod` 10 < 10)%N) by (apply N.mod_lt; lia).
  assert (HZ : Z.of_N x = 10 * Z.of_N (x `div` 10) + Z.of_N (x `mod` 10)).
  { rewrite (N.div_mod x 10) at 1 by lia.
    rewrite N2Z.inj_add, N2Z.inj_mul. reflexivity. }
  destruct (decide (x `div` 10 = 0)%N) as [Hz|Hnz].
  - exists 10. intros s acc.
    rewrite pretty_N_go_step by exact Hx. rewrite Hz, pretty_N_go_0.
    cbn [read_digits]. rewrite digit_value_pretty by exact Hmod.
    rewrite Hz in HZ. f_equal. f_equal. lia.
  - destruct (IH (x `div` 10)%N Hdiv) as [p Hp]; [lia|].
    exists (10 * p). intros s acc.
    rewrite pretty_N_go_step by exact Hx. rewrite Hp.
    cbn [read_digits]. rewrite digit_value_pretty by exact Hmod.
    change (default 0 (Some (default 0 acc * p + Z.of_N (x `div` 10))))
      with (default 0 acc * p + Z.of_N (x `div` 10)).
    f_equal. f_equal. lia.
Qed.

Lemma pretty_N_go_head x s :
  (0 < x)%N → ∃ d rest, (d < 10)%N ∧ pretty_N_go x s = String (pretty_N_char d) rest.
Proof.
  revert s. induction (N.lt_wf_0 x) as [x _ IH]. intros s Hx.
  rewrite pretty_N_go_step by exact Hx.
  destruct (decide (x `div` 10 = 0)%N) as [Hz|Hnz].
  - rewrite Hz, pretty_N_go_0. exists (x `mod` 10)%N, s.
    split; [apply N.mod_lt; lia | reflexivity].
  - apply IH; [apply N.div_lt; lia | apply N.neq_0_lt_0; exact Hnz].
Qed.

Lemma stoi_digits_first d rest :
  (d < 10)%N →
  stoi (String (pretty_N_char d) rest)
  = match read_digits (String (pretty_N_char d) rest) None with
    | Some v => if (INT_MIN <=? v) && (v <=? INT_MAX) then Some v else None
    | None => None
    end.
Proof.
  intros H.
  assert (d = 0 ∨ d = 1 ∨ d = 2 ∨ d = 3 ∨ d = 4 ∨ d = 5 ∨ d = 6 ∨ d = 7
          ∨ d = 8 ∨ d = 9)%N as Hd by lia.
  repeat (destruct Hd as [->|Hd]; [reflexivity|]). subst. reflexivity.
Qed.

Lemma stoi_pretty_pos (x : positive) :
  Z.pos x ≤ INT_MAX → stoi (pretty (N.pos x)) = Some (Z.pos x).
Proof.
  intros Hmax. unfold pretty, pretty_N.
  rewrite decide_False by discriminate.
  destruct (pretty_N_go_head (N.pos x) "") as (d & rest & Hd & Hhead); [lia|].
  destruct (read_digits_pretty_N_go (N.pos x)) as [p Hp]; [lia|].
  rewrite Hhead, stoi_digits_first by exact Hd. rewrite <- Hhead, Hp.
  cbn [read_digits]. change (default 0 None) with 0.
  rewrite Z.mul_0_l, Z.add_0_l.
  change (Z.of_N (N.pos x)) with (Z.pos x).
  rewrite (proj2 (andb_true_iff _ _)); [reflexivity|].
  split; apply Z.leb_le; [unfold INT_MIN|]; lia.
Qed.

Lemma stoi_pretty_neg (x : positive) :
  INT_MIN ≤ Z.neg x → stoi ("-" +:+ pretty (N.pos x)) = Some (Z.neg x).
Proof.
  intros Hmin. unfold pretty, pretty_N.
  rewrite decide_False by discriminate.
  destruct (read_digits_pretty_N_go (N.pos x)) as [p Hp]; [lia|].
  unfold stoi. cbn [append skip_spaces isspace]. 
  change (skip_spaces ("-" +:+ pretty_N_go (N.pos x) ""))
    with (String "-" (pretty_N_go (N.pos x) "")).
  cbv beta iota. rewrite Hp. cbn [read_digits]. change (default 0 None) with 0.
  rewrite Z.mul_0_l, Z.add_0_l.
  change (Z.of_N (N.pos x)) with (Z.pos x).
  change (- Z.pos x) with (Z.neg x).
  rewrite (proj2 (andb_true_iff _ _)); [reflexivity|].
  split; apply Z.leb_le; [|unfold INT_MAX]; lia.
Qed.

(** X17 -- numbers printed and read.  For every [int] value [n],
    [std::stoi] reads back what [std::to_string] prints, so a register
    name built as "R" followed by the printed index parses to that index:
    the register named in a stall reason is the operand that caused it;
    [parseRegister] accepts negative indices and indices beyond R31 like
    any other.  A string that does not start with [R] parses to -1. *)
Theorem printed_numbers_parse_back (n : Z)
    (Hn : INT_MIN ≤ n ≤ INT_MAX) :
  stoi (to_string n) = Some n
  ∧ parseRegister ("R" +:+ to_string n) = n
  ∧ (∀ s, parseRegister ("X" +:+ s) = -1)
  ∧ parseRegister "" = -1
  ∧ parseRegister "R" = -1.
Proof.
  assert (Hs : stoi (to_string n) = Some n).
  { unfold to_string, pretty, pretty_Z. destruct n as [|x|x].
    - reflexivity.
    - apply stoi_pretty_pos. lia.
    - apply stoi_pretty_neg. lia. }
  split; [exact Hs|]. split; [|repeat split].
  change ("R" +:+ to_string n) with (String "R" (to_string n)).
  unfold parseRegister. cbv beta iota. rewrite Hs. reflexivity.
Qed.

Lemma printed_numbers_parse_back_witness :
  parseRegister ("R" +:+ to_string 31) = 31.
Proof.
  assert (Hn : INT_MIN ≤ 31 ≤ INT_MAX) by (unfold INT_MIN, INT_MAX; lia).
  apply (printed_numbers_parse_back 31 Hn).
Defined.

(** ** The earlier variant *)

(** X18 -- the two pools.  On a pool that holds the kind [u], the pool
    operations of [pipeline.cpp] are those of [pipeline_fixed.cpp].  On a
    kind the pool lacks they differ: the earlier [isAvailable] and
    [allocate] answer false as well, but [operator[]] adds the kind with 0
    free units, where the later version leaves the maps alone. *)
Theorem legacy_pool_agrees_on_present_keys (eu : ExecutionUnits) (u : ExecUnit) :
  (is_Some (available eu !! u) →
     Legacy.isAvailable eu u = (isAvailable eu u, eu)
     ∧ Legacy.allocate eu u = allocate eu u
     ∧ Legacy.release eu u = release eu u)
  ∧ (available eu !! u = None →
     Legacy.isAvailable eu u
       = (false, mkExecutionUnits (<[u := 0]> (available eu)) (capacity eu))
     ∧ Legacy.allocate eu u
       = (false, mkExecutionUnits (<[u := 0]> (available eu)) (capacity eu))
     ∧ isAvailable eu u = false
     ∧ allocate eu u = (false, eu)
     ∧ release eu u = eu).
Proof.
  split.
  - intros [a Ha].
    assert (Hm : map_at (available eu) u = a)
      by (unfold map_at; rewrite Ha; reflexivity).
    assert (Ht : map_touch (available eu) u = available eu)
      by (apply (map_touch_present _ _ a); exact Ha).
    assert (Heta : mkExecutionUnits (available eu) (capacity eu) = eu)
      by (destruct eu; reflexivity).
    assert (Hav : isAvailable eu u = (a >? 0))
      by (unfold isAvailable; rewrite Ha; reflexivity).
    split; [|split].
    + unfold Legacy.isAvailable. rewrite Hm, Ht, Heta, Hav. reflexivity.
    + unfold Legacy.allocate, allocate. rewrite Hav, Hm, Ht, Heta. reflexivity.
    + unfold Legacy.release, release. rewrite Ha, Hm, Ht. reflexivity.
  - intros Ha.
    assert (Hm : map_at (available eu) u = 0)
      by (unfold map_at; rewrite Ha; reflexivity).
    assert (Ht : map_touch (available eu) u = <[u := 0]> (available eu))
      by (unfold map_touch; rewrite Ha; reflexivity).
    assert (Hav : isAvailable eu u = false)
      by (unfold isAvailable; rewrite Ha; reflexivity).
    split; [|split; [|split; [|split]]].
    + unfold Legacy.isAvailable. rewrite Hm, Ht. reflexivity.
    + unfold Legacy.allocate. rewrite Hm, Ht. reflexivity.
    + exact Hav.
    + unfold allocate. rewrite Hav. reflexivity.
    + unfold release. rewrite Ha. reflexivity.
Qed.

Lemma legacy_pool_agrees_on_present_keys_witness :
  Legacy.allocate ExecutionUnits_new ALU_UNIT = allocate ExecutionUnits_new ALU_UNIT.
Proof.
  apply (proj1 (legacy_pool_agrees_on_present_keys ExecutionUnits_new ALU_UNIT)).
  exists 2. reflexivity.
Defined.

(** X19 -- one stage per cycle in [pipeline.cpp].  The loop of the earlier
    program, with its reset of the pool at the top of each cycle, moves
    every slot by at most one stage in a cycle as well, never backwards;
    a slot in FETCH goes to DECODE and a slot in IDLE goes to FETCH. *)
Theorem legacy_one_stage_per_cycle (instrs : list Instruction) (s : Sim)
    (Hlen : length (states s) = length instrs) :
  Forall2 (λ st st',
      stage_index (current_stage st) ≤ stage_index (current_stage st')
        ≤ stage_index (current_stage st) + 1
      ∧ (current_stage st = FETCH → current_stage st' = DECODE)
      ∧ (current_stage st = IDLE → current_stage st' = FETCH))
    (states s) (states (Legacy.cycle_body instrs s)).
Proof.
  unfold Legacy.cycle_body. cbn [states].
  set (c := cycle s + 1).
  set (wb := for_each (Legacy.writeback_slot c) instrs (states s) _).
  set (ex := sweep execute_slot instrs wb.1).
  set (iss := for_each (Legacy.issue_slot c) instrs ex _).
  set (dec := for_each (Legacy.decode_slot _ c) instrs iss.1 _).
  set (fe := sweep fetch_slot instrs dec.1).
  set (acc := sweep account_slot instrs fe).
  assert (Hwb : Forall2 (moves WRITEBACK COMPLETE) (states s) wb.1).
  { apply for_each_Forall2; [apply moves_refl | apply legacy_writeback_slot_moves]. }
  assert (Hex : Forall2 (moves EXECUTE WRITEBACK) wb.1 ex).
  { apply sweep_Forall2; [apply moves_refl | apply execute_slot_moves]. }
  assert (His : Forall2 (moves ISSUE EXECUTE) ex iss.1).
  { apply for_each_Forall2; [apply moves_refl | apply legacy_issue_slot_moves]. }
  assert (Hde : Forall2 (moves DECODE ISSUE) iss.1 dec.1).
  { apply for_each_Forall2; [apply moves_refl | apply legacy_decode_slot_moves]. }
  assert (Hfe : Forall2 fetch_moves dec.1 fe).
  { apply for_each_Forall2_len; [intros i st a; apply fetch_slot_moves|].
    unfold dec, iss, ex, wb. rewrite !for_each_length, sweep_length, for_each_length.
    symmetry. exact Hlen. }
  assert (Hac : Forall2 same_stage fe acc).
  { apply sweep_Forall2; [reflexivity | apply account_slot_stage]. }
  apply Forall2_same_length_lookup_2.
  - unfold acc, fe, dec, iss, ex, wb.
    rewrite !sweep_length, !for_each_length, sweep_length, for_each_length.
    reflexivity.
  - intros k s0 s6 H0 H6.
    destruct (Forall2_lookup_l _ _ _ _ _ Hwb H0) as (s1 & L1 & R1).
    destruct (Forall2_lookup_l _ _ _ _ _ Hex L1) as (s2 & L2 & R2).
    destruct (Forall2_lookup_l _ _ _ _ _ His L2) as (s3 & L3 & R3).
    destruct (Forall2_lookup_l _ _ _ _ _ Hde L3) as (s4 & L4 & R4).
    destruct (Forall2_lookup_l _ _ _ _ _ Hfe L4) as (s5 & L5 & R5).
    destruct (Forall2_lookup_l _ _ _ _ _ Hac L5) as (s6' & L6 & R6).
    rewrite H6 in L6. injection L6 as <-.
    exact (passes_one_stage s0 s1 s2 s3 s4 s5 s6 R1 R2 R3 R4 R5 R6).
Qed.

Lemma legacy_one_stage_per_cycle_witness :
  Forall2 (λ st st',
      stage_index (current_stage st) ≤ stage_index (current_stage st')
        ≤ stage_index (current_stage st) + 1
      ∧ (current_stage st = FETCH → current_stage st' = DECODE)
      ∧ (current_stage st = IDLE → current_stage st' = FETCH))
    (states (initial three_divs))
    (states (Legacy.cycle_body three_divs (initial three_divs))).
Proof.
  apply (legacy_one_stage_per_cycle three_divs (initial three_divs)).
  reflexivity.
Defined.

(** X20 -- termination of [pipeline.cpp]'s loop.  For every program the
    earlier loop is left after at most 100 cycles, with all instructions
    completed or with the cycle counter at [MAX_CYCLES = 100]; more fuel
    changes nothing.  It keeps the number of slots and records no
    snapshot. *)
Theorem legacy_loop_terminates (instrs : list Instruction) (fuel : nat) :
  let s := Legacy.state_after instrs 100 in
  Legacy.loop_cond instrs s = false
  ∧ 0 ≤ cycle s ≤ 100
  ∧ (Z.of_nat (length instrs) ≤ completed s ∨ cycle s = 100)
  ∧ Legacy.state_after instrs (100 + fuel) = s
  ∧ length (states s) = length instrs
  ∧ cycle_history s = [].
Proof.
  intros s.
  assert (Hexit : Legacy.loop_cond instrs s = false).
  { apply legacy_loop_enough_fuel. simpl. unfold Legacy.MAX_CYCLES. lia. }
  destruct (legacy_loop_cycle_bounds instrs 100 (initial instrs))
    as (H1 & _ & H3 & H4); [simpl; unfold Legacy.MAX_CYCLES; lia|].
  fold (Legacy.state_after instrs 100) in H1, H3, H4. fold s in H1, H3, H4.
  simpl in H1. unfold Legacy.MAX_CYCLES in H1.
  split; [exact Hexit|]. split; [lia|]. split.
  { unfold Legacy.loop_cond in Hexit.
    apply andb_false_iff in Hexit as [He|He]; apply Z.ltb_ge in He;
      [left | right; unfold Legacy.MAX_CYCLES in He]; lia. }
  split.
  { unfold Legacy.state_after.
    assert (Hsplit : ∀ a b st,
              Legacy.simulation_loop (a + b) instrs st
              = Legacy.simulation_loop b instrs (Legacy.simulation_loop a instrs st)).
    { induction a as [|a IHa]; intros b st; [reflexivity|]. simpl.
      destruct (Legacy.loop_cond instrs st) eqn:E; [apply IHa|].
      destruct b; simpl; rewrite ?E; reflexivity. }
    rewrite Hsplit. fold (Legacy.state_after instrs 100). fold s.
    destruct fuel; simpl; rewrite ?Hexit; reflexivity. }
  split; [|exact H4].
  rewrite H3. simpl. apply length_replicate.
Qed.

(** ** Tokens *)

Lemma skip_spaces_blank s : blank s = true ↔ skip_spaces s = "".
Proof.
  induction s as [|c s IH]; [simpl; tauto|].
  cbn [blank skip_spaces]. destruct (isspace c); cbn [andb]; [exact IH|].
  split; discriminate.
Qed.

Lemma skip_spaces_head s c rest :
  skip_spaces s = String c rest → isspace c = false.
Proof.
  induction s as [|c0 s IH]; [discriminate|].
  cbn [skip_spaces]. destruct (isspace c0) eqn:E; [exact IH|].
  intros [= <- _]. exact E.
Qed.

Lemma read_token_no_space s : no_space (read_token s).1 = true.
Proof.
  induction s as [|c s IH]; [reflexivity|].
  cbn [read_token]. destruct (isspace c) eqn:E; [reflexivity|].
  destruct (read_token s) as [tok rest]. cbn [fst no_space] in *.
  rewrite E, IH. reflexivity.
Qed.

Lemma read_token_rest s :
  (read_token s).2 = "" ∨ ∃ c rest, (read_token s).2 = String c rest ∧ isspace c = true.
Proof.
  induction s as [|c s IH]; [left; reflexivity|].
  cbn [read_token]. destruct (isspace c) eqn:E; [right; eauto|].
  destruct (read_token s) as [tok rest]. exact IH.
Qed.

(** X21 -- which lines are skipped, and what a token is.  The loader skips
    exactly the lines that start with [#] and the lines that consist of
    white space only (the empty line among them); a [#] after leading
    white space does not make a comment.  A token never contains white
    space, it is empty only at the end of the line, and what follows it is
    the end of the line or white space. *)
Theorem skipped_iff_comment_or_blank (line : string) :
  (skipped_line line = true ↔ starts_with_hash line = true ∨ blank line = true)
  ∧ no_space (extract line).1 = true
  ∧ ((extract line).1 = "" ↔ blank line = true)
  ∧ ((extract line).2 = ""
     ∨ ∃ c rest, (extract line).2 = String c rest ∧ isspace c = true)
  ∧ skipped_line (String " " (String "#" line)) = false.
Proof.
  assert (Htok : (extract line).1 = "" ↔ blank line = true).
  { unfold extract. rewrite skip_spaces_blank.
    destruct (skip_spaces line) as [|c rest] eqn:E; [simpl; tauto|].
    pose proof (skip_spaces_head line c rest E) as Hc.
    cbn [read_token]. rewrite Hc. destruct (read_token rest).
    split; discriminate. }
  split; [|split; [|split; [|split]]].
  - unfold skipped_line.
    assert (He : is_empty (extract line).1 = true ↔ (extract line).1 = "").
    { destruct (extract line).1; simpl; split; congruence. }
    assert (Hl : is_empty line = true → blank line = true).
    { destruct line; [reflexivity | discriminate]. }
    rewrite !orb_true_iff, He, Htok. tauto.
  - unfold extract. apply read_token_no_space.
  - exact Htok.
  - unfold extract. apply read_token_rest.
  - unfold skipped_line, extract. simpl.
    destruct (read_token line). reflexivity.
Qed.

(** ** The counter of completed instructions *)

Lemma count_complete_mono sts sts' :
  Forall2 (λ st st', cc1 st ≤ cc1 st') sts sts' →
  count_complete sts ≤ count_complete sts'.
Proof. induction 1; simpl; lia. Qed.

Lemma count_complete_Forall sts :
  Forall (λ st, current_stage st = COMPLETE) sts →
  count_complete sts = Z.of_nat (length sts).
Proof.
  induction 1 as [|st sts Hst _ IH]; [reflexivity|].
  cbn [count_complete length]. unfold cc1.
  rewrite (bool_decide_eq_true_2 _ Hst). lia.
Qed.

(** X22 -- [completed] counts slots.  In every state the loop reaches the
    two vectors have the same size, [completed] is the number of slots in
    COMPLETE, and this number never decreases from one cycle to the next;
    so [instructionsCompleted] in the result is the number of slots that
    reached COMPLETE. *)
Theorem completed_counts_complete_slots (instrs : list Instruction) (k : nat) :
  let s := state_after instrs k in
  length (states s) = length instrs
  ∧ completed s = count_complete (states s)
  ∧ instructions_completed (final_statistics s) = count_complete (states s)
  ∧ completed s ≤ completed (state_after instrs (S k))
  ∧ (completed s = Z.of_nat (length instrs) ↔
     Forall (λ st, current_stage st = COMPLETE) (states s)).
Proof.
  intros s.
  pose proof (state_after_length instrs k) as Hlen.
  pose proof (state_after_completed instrs k) as Hc.
  fold s in Hlen, Hc.
  split; [exact Hlen|]. split; [exact Hc|]. split; [exact Hc|]. split.
  - rewrite state_after_S. unfold loop_iteration. fold s.
    destruct (loop_cond instrs s); [|lia].
    unfold cycle_body. cbn [completed].
    pose proof (writeback_pass_completed (cycle s + 1) instrs (states s)
                  (scoreboard s, exec_units s, completed s)) as Hwb.
    cbn [snd] in Hwb.
    assert (Hmono : count_complete (states s)
                    ≤ count_complete
                        (for_each (writeback_slot (cycle s + 1)) instrs (states s)
                           (scoreboard s, exec_units s, completed s)).1).
    { assert (HF : Forall2 (λ st st', cc1 st ≤ cc1 st') (states s)
                     (for_each (writeback_slot (cycle s + 1)) instrs (states s)
                        (scoreboard s, exec_units s, completed s)).1).
      { apply for_each_Forall2; [intros; lia|].
        intros i st a. destruct (writeback_slot_moves (cycle s + 1) i st a)
          as [E|[E1 E2]]; unfold cc1; rewrite ?E, ?E1, ?E2; [lia|].
        rewrite (bool_decide_eq_false_2 (WRITEBACK = COMPLETE)) by discriminate.
        rewrite bool_decide_eq_true_2 by reflexivity. lia. }
      apply count_complete_mono. exact HF. }
    lia.
  - rewrite Hc, <- Hlen. split; [apply count_complete_all|].
    apply count_complete_Forall.
Qed.

(** ** Order of issue *)

Lemma issue_slot_blocked c u i st a :
  isAvailable a.1 u = false → isAvailable (issue_slot c i st a).2.1 u = false.
Proof.
  destruct a as [eu sb]. cbn [fst]. intros Hb. unfold issue_slot.
  case_bool_decide; [|exact Hb].
  unfold allocate.
  destruct (isAvailable eu (getExecUnit (opcode i))) eqn:Hav; cbn [fst snd];
    [|exact Hb].
  assert (Hne : getExecUnit (opcode i) ≠ u)
    by (intros E; rewrite E in Hav; congruence).
  unfold isAvailable in *. cbn [available].
  rewrite lookup_insert_ne by exact Hne. exact Hb.
Qed.

Lemma issue_slot_blocked_same c i st a :
  isAvailable a.1 (getExecUnit (opcode i)) = false →
  (issue_slot c i st a).1 = st.
Proof.
  destruct a as [eu sb]. cbn [fst]. intros Hb. unfold issue_slot.
  case_bool_decide; [|reflexivity].
  unfold allocate. rewrite Hb. reflexivity.
Qed.

(** Once no unit of kind [u] is free, the rest of the issue pass leaves
    the slots that need [u] as they are. *)
Lemma issue_pass_blocked c u instrs :
  ∀ sts a, isAvailable a.1 u = false →
    ∀ n i st, instrs !! n = Some i → sts !! n = Some st →
      getExecUnit (opcode i) = u →
      (for_each (issue_slot c) instrs sts a).1 !! n = Some st.
Proof.
  induction instrs as [|i0 instrs IH]; intros [|st0 sts] a Hb n i st Hi Hs Hu;
    try discriminate.
  rewrite for_each_cons. cbn [fst].
  destruct n as [|n]; simpl in Hi, Hs |- *.
  - injection Hi as ->. injection Hs as ->. subst u.
    rewrite issue_slot_blocked_same by exact Hb. reflexivity.
  - exact (IH sts _ (issue_slot_blocked c u i0 st0 a Hb) n i st Hi Hs Hu).
Qed.

Lemma issue_slot_ISSUE c i st a :
  current_stage st = ISSUE →
  ((allocate a.1 (getExecUnit (opcode i))).1 = true
   ∧ current_stage (issue_slot c i st a).1 = EXECUTE
   ∧ issue_cycle (issue_slot c i st a).1 = c)
  ∨ (isAvailable a.1 (getExecUnit (opcode i)) = false
     ∧ issue_slot c i st a = (st, a)).
Proof.
  destruct a as [eu sb]. cbn [fst]. intros Hst. unfold issue_slot.
  rewrite bool_decide_eq_true_2 by exact Hst.
  unfold allocate.
  destruct (isAvailable eu (getExecUnit (opcode i))) eqn:Hav; cbn [fst snd].
  - left. repeat split.
  - right. split; reflexivity.
Qed.

(** In one issue pass, of two waiting slots that need the same kind of
    unit the later one is issued only if the earlier one is. *)
Lemma issue_pass_in_order c instrs :
  ∀ sts a n1 n2 i1 i2 st1 st2 st2',
    (n1 < n2)%nat →
    instrs !! n1 = Some i1 → instrs !! n2 = Some i2 →
    sts !! n1 = Some st1 → sts !! n2 = Some st2 →
    current_stage st1 = ISSUE → current_stage st2 = ISSUE →
    getExecUnit (opcode i1) = getExecUnit (opcode i2) →
    (for_each (issue_slot c) instrs sts a).1 !! n2 = Some st2' →
    current_stage st2' = EXECUTE →
    ∃ st1', (for_each (issue_slot c) instrs sts a).1 !! n1 = Some st1'
            ∧ current_stage st1' = EXECUTE ∧ issue_cycle st1' = c.
Proof.
  induction instrs as [|i0 instrs IH];
    intros [|st0 sts] a n1 n2 i1 i2 st1 st2 st2' Hlt Hi1 Hi2 Hs1 Hs2 H1 H2 Hu Hr He;
    try discriminate.
  rewrite for_each_cons in Hr |- *. cbn [fst] in Hr |- *.
  destruct n2 as [|n2]; [lia|]. simpl in Hi2, Hs2, Hr.
  destruct n1 as [|n1]; simpl in Hi1, Hs1 |- *.
  - injection Hi1 as ->. injection Hs1 as ->.
    destruct (issue_slot_ISSUE c i1 st1 a H1) as [(_ & E1 & E2)|(Hb & Heq)].
    + eexists. split; [reflexivity|]. split; assumption.
    + exfalso. rewrite Heq in Hr. cbn [snd] in Hr.
      rewrite (issue_pass_blocked c (getExecUnit (opcode i1)) instrs sts a Hb
                 n2 i2 st2 Hi2 Hs2 (eq_sym Hu)) in Hr.
      injection Hr as <-. congruence.
  - eapply IH; try eassumption. lia.
Qed.

Lemma cycle_body_issue_view instrs s :
  ∃ ex a0,
    length ex = length (states s)
    ∧ (∀ n i st, instrs !! n = Some i → states s !! n = Some st →
         current_stage st = ISSUE → ex !! n = Some st)
    ∧ (∀ n i st3, instrs !! n = Some i →
         (for_each (issue_slot (cycle s + 1)) instrs ex a0).1 !! n = Some st3 →
         ∃ stats',
           states (cycle_body instrs s) !! n =
           Some (account_slot i
                   (fetch_slot i
                      (decode_slot (scoreboard (cycle_body instrs s))
                         (exec_units (cycle_body instrs s)) (cycle s + 1) i st3
                         stats').1))).
Proof.
  unfold cycle_body. cbn [states scoreboard exec_units].
  set (c := cycle s + 1).
  set (wb := for_each (writeback_slot c) instrs (states s) _).
  set (ex := sweep execute_slot instrs wb.1).
  set (a0 := (wb.2.1.2, wb.2.1.1)).
  set (iss := for_each (issue_slot c) instrs ex a0).
  set (dec := for_each (decode_slot _ _ c) instrs iss.1 _).
  exists ex, a0. split; [|split].
  - unfold ex, wb. rewrite sweep_length, for_each_length. reflexivity.
  - intros n i st Hi Hs Hst.
    destruct (for_each_lookup (writeback_slot c) instrs (states s)
                (scoreboard s, exec_units s, completed s) n i st Hi Hs)
      as [a_wb H1].
    fold wb in H1.
    rewrite writeback_slot_skip in H1 by (rewrite Hst; discriminate).
    cbn [fst] in H1.
    pose proof (sweep_lookup execute_slot instrs wb.1 n i st Hi H1) as H2.
    rewrite execute_slot_skip in H2 by (rewrite Hst; discriminate).
    exact H2.
  - intros n i st3 Hi H3. fold iss in H3.
    destruct (for_each_lookup (decode_slot iss.2.2 iss.2.1 c) instrs iss.1 (stats s)
                n i st3 Hi H3) as [stats' H4].
    fold dec in H4.
    pose proof (sweep_lookup fetch_slot instrs dec.1 n i _ Hi H4) as H5.
    pose proof (sweep_lookup account_slot instrs _ n i _ Hi H5) as H6.
    exists stats'. exact H6.
Qed.

Lemma after_issue_EXECUTE sb eu c i st stats :
  current_stage st = EXECUTE →
  current_stage (account_slot i (fetch_slot i (decode_slot sb eu c i st stats).1))
    = EXECUTE
  ∧ issue_cycle (account_slot i (fetch_slot i (decode_slot sb eu c i st stats).1))
    = issue_cycle st.
Proof.
  intros H.
  rewrite decode_slot_skip by (rewrite H; discriminate). cbn [fst].
  rewrite fetch_slot_skip by (rewrite H; discriminate).
  rewrite account_slot_active by (rewrite H; discriminate).
  cbn [current_stage issue_cycle]. split; [exact H | reflexivity].
Qed.

Lemma after_issue_ISSUE sb eu c i st stats :
  current_stage st = ISSUE →
  current_stage (account_slot i (fetch_slot i (decode_slot sb eu c i st stats).1))
    = ISSUE.
Proof.
  intros H.
  rewrite decode_slot_skip by (rewrite H; discriminate). cbn [fst].
  rewrite fetch_slot_skip by (rewrite H; discriminate).
  rewrite account_slot_active by (rewrite H; discriminate).
  cbn [current_stage]. exact H.
Qed.

Lemma step_slot_issued_keeps c i st a_wb a_is sb eu stats :
  issued st →
  issued (step_slot c i st a_wb a_is sb eu stats)
  ∧ issue_cycle (step_slot c i st a_wb a_is sb eu stats) = issue_cycle st.
Proof.
  unfold issued. intros H.
  destruct (current_stage st) eqn:Hst; simpl in H; try lia.
  - rewrite step_slot_EXECUTE by exact Hst.
    destruct (cycles_in_stage st + 1 >=? getLatency (opcode i)); cbn;
      (split; [lia | reflexivity]).
  - rewrite step_slot_WRITEBACK by exact Hst. cbn. split; [lia | reflexivity].
  - rewrite step_slot_COMPLETE by exact Hst. rewrite Hst. simpl.
    split; [lia | reflexivity].
Qed.

Lemma step_slot_newly_issued c i st a_wb a_is sb eu stats :
  ¬ issued st → issued (step_slot c i st a_wb a_is sb eu stats) →
  current_stage st = ISSUE.
Proof.
  unfold issued. intros Hn.
  destruct (current_stage st) eqn:Hst; simpl in Hn; try lia; try reflexivity.
  - rewrite step_slot_IDLE by exact Hst. cbn. lia.
  - rewrite step_slot_FETCH by exact Hst. cbn. lia.
  - destruct (step_slot_DECODE c i st a_wb a_is sb eu stats Hst) as [reason ->].
    destruct (detectHazards i st sb eu c stats).1.1; cbn; lia.
Qed.

Lemma step_slot_flows c i st a_wb a_is sb eu stats :
  slot_timing c i st → flows c i st →
  (c = 2 → sb = RegisterScoreboard_new 32 ∧ eu = ExecutionUnits_new) →
  flows (c + 1) i (step_slot (c + 1) i st a_wb a_is sb eu stats).
Proof.
  intros Ht Hf Hfresh Hop. destruct (Hf Hop) as (Hd & Hs & Hr).
  apply step_slot_unstalled; assumption.
Qed.

Lemma slot_timing_issued c i st :
  slot_timing c i st → issued st → issue_cycle st ≤ c.
Proof.
  unfold slot_timing, issued. pose proof (getLatency_pos (opcode i)) as Hl.
  destruct (current_stage st); simpl; intros Ht Hi; try lia;
    intuition (try lia).
Qed.

Lemma slot_timing_ISSUE c i st :
  slot_timing c i st → current_stage st = ISSUE → 3 ≤ c.
Proof.
  unfold slot_timing. intros Ht Hs. rewrite Hs in Ht. intuition.
Qed.

Lemma slot_timing_before_issue c i st :
  slot_timing c i st → flows c i st → opcode i ≠ NOP →
  stage_index (current_stage st) ≤ 2 → c ≤ 2.
Proof.
  unfold slot_timing. intros Ht Hf Hop Hs. destruct (Hf Hop) as (Hd & _).
  destruct (current_stage st) eqn:E; simpl in Hs;
    first [lia | intuition lia | specialize (Hd eq_refl); lia].
Qed.

Lemma cycle_body_order_inv instrs s :
  order_inv instrs s → order_inv instrs (cycle_body instrs s).
Proof.
  intros (Hfresh & Hnu & Ht & Hf & Hord).
  pose proof (cycle_body_cycle instrs s) as Hc.
  pose proof (Forall2_length _ _ _ Ht) as Hlen.
  unfold order_inv. rewrite Hc.
  split; [|split; [|split; [|split]]].
  - intros Hle. assert (Hle' : cycle s ≤ 2) by lia.
    destruct (cycle_body_early instrs s Hle' Ht) as (-> & -> & _).
    exact (Hfresh Hle').
  - apply cycle_body_no_unit_waits. exact Hnu.
  - apply cycle_body_timing. exact Ht.
  - apply Forall2_same_length_lookup_2.
    + rewrite cycle_body_length. exact Hlen.
    + intros n i st' Hi Hs'.
      destruct (Forall2_lookup_l _ _ _ _ _ Ht Hi) as (st & Hs & Hts).
      destruct (Forall2_lookup_l _ _ _ _ _ Hf Hi) as (st0 & Hs0 & Hfs).
      rewrite Hs in Hs0. injection Hs0 as <-.
      destruct (cycle_body_slot instrs s n i st Hi Hs) as (a_wb & a_is & stats' & Hq).
      rewrite Hq in Hs'. apply (inj Some) in Hs'. subst st'.
      apply step_slot_flows; try assumption.
      intros H2. assert (Hle' : cycle s ≤ 2) by lia.
      destruct (cycle_body_early instrs s Hle' Ht) as (E1 & E2 & _).
      destruct (Hfresh Hle') as (F1 & F2).
      split; [etransitivity; [exact E1 | exact F1]
             | etransitivity; [exact E2 | exact F2]].
  - intros n1 n2 i1 i2 st1' st2' Hlt Hi1 Hi2 Hs1' Hs2' Hu Hiss.
    destruct (Forall2_lookup_l _ _ _ _ _ Ht Hi1) as (st1 & Hs1 & Ht1).
    destruct (Forall2_lookup_l _ _ _ _ _ Ht Hi2) as (st2 & Hs2 & Ht2).
    destruct (Forall2_lookup_l _ _ _ _ _ Hf Hi1) as (x1 & Hx1 & Hf1).
    rewrite Hs1 in Hx1. injection Hx1 as <-.
    destruct (cycle_body_slot instrs s n1 i1 st1 Hi1 Hs1) as (w1 & a1 & t1 & Hq1).
    destruct (cycle_body_slot instrs s n2 i2 st2 Hi2 Hs2) as (w2 & a2 & t2 & Hq2).
    destruct (Z_lt_le_dec (stage_index (current_stage st2)) 4) as [Hn2 | Hy2].
    + (* the later slot is issued in this very cycle *)
      assert (Hst2 : current_stage st2 = ISSUE).
      { rewrite Hq2 in Hs2'. apply (inj Some) in Hs2'. subst st2'.
        eapply step_slot_newly_issued; [|exact Hiss]. unfold issued. lia. }
      pose proof (slot_timing_ISSUE _ _ _ Ht2 Hst2) as Hc3.
      assert (Hop2 : getExecUnit (opcode i2) ≠ ANY_UNIT).
      { intros E. destruct Hnu as (_ & Hw).
        destruct (Forall2_lookup_l _ _ _ _ _ Hw Hi2) as (y & Hy & Hwy).
        rewrite Hs2 in Hy. injection Hy as <-.
        specialize (Hwy E). rewrite Hst2 in Hwy. simpl in Hwy. lia. }
      assert (Hop1 : opcode i1 ≠ NOP).
      { intros E. apply Hop2. rewrite <- Hu, E. reflexivity. }
      destruct (cycle_body_issue_view instrs s) as (ex & a0 & Hexl & Hex & Hpost).
      pose proof (Hex n2 i2 st2 Hi2 Hs2 Hst2) as He2.
      destruct (for_each_lookup (issue_slot (cycle s + 1)) instrs ex a0 n2 i2 st2
                  Hi2 He2) as (b2 & Hb2).
      destruct (Hpost n2 i2 _ Hi2 Hb2) as (u2 & Hp2).
      rewrite Hp2 in Hs2'. apply (inj Some) in Hs2'. subst st2'.
      destruct (issue_slot_ISSUE (cycle s + 1) i2 st2 b2 Hst2)
        as [(_ & Hexe2 & Hic2) | (_ & Hsame)].
      2: { exfalso. rewrite Hsame in Hiss. cbn [fst] in Hiss.
           unfold issued in Hiss. rewrite after_issue_ISSUE in Hiss by exact Hst2.
           simpl in Hiss. lia. }
      destruct (after_issue_EXECUTE (scoreboard (cycle_body instrs s))
                  (exec_units (cycle_body instrs s)) (cycle s + 1) i2 _ u2 Hexe2)
        as (_ & Hic2').
      rewrite Hic2', Hic2.
      destruct (Z_lt_le_dec (stage_index (current_stage st1)) 4) as [Hn1 | Hy1].
      * destruct (Z_le_gt_dec (stage_index (current_stage st1)) 2) as [Hlow | Hhi].
        { exfalso.
          pose proof (slot_timing_before_issue _ _ _ Ht1 Hf1 Hop1 Hlow). lia. }
        assert (Hst1 : current_stage st1 = ISSUE).
        { destruct (current_stage st1); simpl in Hn1, Hhi; try lia; reflexivity. }
        pose proof (Hex n1 i1 st1 Hi1 Hs1 Hst1) as He1.
        destruct (issue_pass_in_order (cycle s + 1) instrs ex a0 n1 n2 i1 i2 st1 st2
                    _ Hlt Hi1 Hi2 He1 He2 Hst1 Hst2 Hu Hb2 Hexe2)
          as (y1 & Hy1 & Hexe1 & Hic1).
        destruct (Hpost n1 i1 _ Hi1 Hy1) as (u1 & Hp1).
        rewrite Hp1 in Hs1'. apply (inj Some) in Hs1'. subst st1'.
        destruct (after_issue_EXECUTE (scoreboard (cycle_body instrs s))
                    (exec_units (cycle_body instrs s)) (cycle s + 1) i1 _ u1 Hexe1)
          as (Hs1e & Hic1').
        unfold issued. rewrite Hs1e, Hic1', Hic1. simpl. lia.
      * rewrite Hq1 in Hs1'. apply (inj Some) in Hs1'. subst st1'.
        destruct (step_slot_issued_keeps (cycle s + 1) i1 st1 w1 a1
                    (scoreboard (cycle_body instrs s))
                    (exec_units (cycle_body instrs s)) t1 Hy1) as (Hk & ->).
        split; [exact Hk|].
        pose proof (slot_timing_issued _ _ _ Ht1 Hy1). lia.
    + (* the later slot was issued in an earlier cycle *)
      destruct (Hord n1 n2 i1 i2 st1 st2 Hlt Hi1 Hi2 Hs1 Hs2 Hu Hy2) as (Hy1 & Hle).
      rewrite Hq1 in Hs1'. apply (inj Some) in Hs1'. subst st1'.
      rewrite Hq2 in Hs2'. apply (inj Some) in Hs2'. subst st2'.
      destruct (step_slot_issued_keeps (cycle s + 1) i1 st1 w1 a1
                  (scoreboard (cycle_body instrs s))
                  (exec_units (cycle_body instrs s)) t1 Hy1) as (Hk & ->).
      destruct (step_slot_issued_keeps (cycle s + 1) i2 st2 w2 a2
                  (scoreboard (cycle_body instrs s))
                  (exec_units (cycle_body instrs s)) t2 Hy2) as (_ & ->).
      split; assumption.
Qed.

Lemma initial_order_inv instrs : order_inv instrs (initial instrs).
Proof.
  split; [|split; [|split; [|split]]].
  - intros _. split; reflexivity.
  - exact (state_after_no_unit_waits instrs 0).
  - apply initial_timing.
  - simpl. induction instrs as [|i instrs IH]; simpl; constructor; [|exact IH].
    intros _. repeat split. discriminate.
  - intros n1 n2 i1 i2 st1 st2 _ _ _ _ Hs2 _ Hiss. exfalso.
    simpl in Hs2. apply lookup_replicate in Hs2 as [-> _].
    unfold issued in Hiss. simpl in Hiss. lia.
Qed.

Lemma state_after_order_inv instrs k : order_inv instrs (state_after instrs k).
Proof.
  apply (state_after_inv (order_inv instrs)).
  - apply initial_order_inv.
  - intros s Hs _. apply cycle_body_order_inv. exact Hs.
Qed.

(** X23 -- slots that need the same kind of unit are issued in program order.
    In every program and after any number of loop iterations: if the later
    of two instructions with the same execution unit has been issued (its
    slot is in EXECUTE, WRITEBACK or COMPLETE), the earlier one has been
    issued as well, and not in a later cycle.  The issue pass walks the
    slots by index and a slot that finds no free unit leaves the pool as it
    is, so a later slot cannot overtake it. *)
Theorem same_unit_issued_in_program_order
    (instrs : list Instruction) (k n1 n2 : nat) (i1 i2 : Instruction)
    (st1 st2 : PipelineState)
    (Hlt : (n1 < n2)%nat)
    (Hi1 : instrs !! n1 = Some i1) (Hi2 : instrs !! n2 = Some i2)
    (Hs1 : states (state_after instrs k) !! n1 = Some st1)
    (Hs2 : states (state_after instrs k) !! n2 = Some st2)
    (Hu : getExecUnit (opcode i1) = getExecUnit (opcode i2))
    (Hiss : 4 ≤ stage_index (current_stage st2)) :
  4 ≤ stage_index (current_stage st1) ∧ issue_cycle st1 ≤ issue_cycle st2.
Proof.
  destruct (state_after_order_inv instrs k) as (_ & _ & _ & _ & Hord).
  exact (Hord n1 n2 i1 i2 st1 st2 Hlt Hi1 Hi2 Hs1 Hs2 Hu Hiss).
Qed.

Lemma same_unit_issued_in_program_order_witness :
  ∃ i1 i2 st1 st2,
    three_divs !! 0%nat = Some i1 ∧ three_divs !! 1%nat = Some i2
    ∧ states (state_after three_divs 30) !! 0%nat = Some st1
    ∧ states (state_after three_divs 30) !! 1%nat = Some st2
    ∧ 4 ≤ stage_index (current_stage st1) ∧ issue_cycle st1 ≤ issue_cycle st2.
Proof.
  eexists _, _, _, _.
  split; [reflexivity|]. split; [reflexivity|].
  split; [vm_compute; reflexivity|]. split; [vm_compute; reflexivity|].
  eapply (same_unit_issued_in_program_order three_divs 30 0 1).
  - lia.
  - reflexivity.
  - reflexivity.
  - vm_compute. reflexivity.
  - vm_compute. reflexivity.
  - reflexivity.
  - vm_compute. discriminate.
Defined.

(** X24 -- only NOP slots ever stall.  In every program and after any number
    of loop iterations the slot of an instruction other than NOP has
    [stalled == false] and an empty [stall_reason], and it is in DECODE in
    cycle 2 only: such an instruction meets the hazard detector once, in
    the decode pass of cycle 3, when the scoreboard has no busy register and
    the pool is full, so the detector lets it pass. *)
Theorem only_nop_slots_stall
    (instrs : list Instruction) (k n : nat) (i : Instruction) (st : PipelineState)
    (Hi : instrs !! n = Some i)
    (Hs : states (state_after instrs k) !! n = Some st)
    (Hop : opcode i ≠ NOP) :
  stalled st = false ∧ stall_reason st = ""
  ∧ (current_stage st = DECODE → cycle (state_after instrs k) = 2).
Proof.
  destruct (state_after_order_inv instrs k) as (_ & _ & _ & Hf & _).
  destruct (Forall2_lookup_l _ _ _ _ _ Hf Hi) as (st0 & Hs0 & Hfl).
  rewrite Hs in Hs0. apply (inj Some) in Hs0. subst st0.
  destruct (Hfl Hop) as (Hd & Hst & Hr). auto.
Qed.

Lemma only_nop_slots_stall_witness :
  ∃ i st,
    three_divs !! 1%nat = Some i
    ∧ states (state_after three_divs 2) !! 1%nat = Some st
    ∧ stalled st = false ∧ stall_reason st = ""
    ∧ (current_stage st = DECODE → cycle (state_after three_divs 2) = 2).
Proof.
  eexists _, _.
  split; [reflexivity|]. split; [vm_compute; reflexivity|].
  eapply (only_nop_slots_stall three_divs 2 1).
  - reflexivity.
  - vm_compute. reflexivity.
  - vm_compute. discriminate.
Defined.
